(** * rhh: an ordered robin-hood hash map (shallow embedding of rhh.ts)

    The map is a fixed array of [CAPACITY + OVERFLOW] entries kept in
    ascending key order.  JavaScript numbers that the source uses as 32-bit
    integers are modelled as [Z] with the wrap-around of ToInt32 written
    out; strings are lists of UTF-16 code units; the module-level variables
    [entries] and [len] are threaded through the operations as a record. *)

From Stdlib Require Import ZArith Lia List Bool Sorted Ascii String DecimalString.
From stdpp Require Import base list.

Local Open Scope Z_scope.

(** ** JavaScript 32-bit integer operations *)

(** ToInt32: reduce modulo 2^32 into the signed range. *)
Definition toInt32 (x : Z) : Z := (x + 2147483648) mod 4294967296 - 2147483648.

(** [a << n] on numbers. *)
Definition shl32 (a n : Z) : Z := toInt32 (Z.shiftl (toInt32 a) (n mod 32)).

(** [a | b] on numbers. *)
Definition or32 (a b : Z) : Z := toInt32 (Z.lor (toInt32 a) (toInt32 b)).

(** [a >> n] on numbers: the sign-propagating shift. *)
Definition sar32 (a n : Z) : Z := Z.shiftr (toInt32 a) (n mod 32).

(** The value of a 32-bit result read as an unsigned integer ([x >>> 0]). *)
Definition toUint32 (x : Z) : Z := x mod 4294967296.

(** ** Strings *)

(** A string is its sequence of code units. *)
Definition jsstring := list Z.

(** [key.charCodeAt(n) | 0]: the code unit at [n], and 0 where
    [charCodeAt] answers NaN because [n] is past the end. *)
Definition charCodeAt0 (s : jsstring) (n : nat) : Z :=
  match s !! n with
  | Some c => toInt32 c
  | None => 0
  end.

(** The relational comparison of two strings: code unit by code unit, a
    proper prefix being the smaller. *)
Fixpoint str_compare (a b : jsstring) : comparison :=
  match a, b with
  | [], [] => Eq
  | [], _ :: _ => Lt
  | _ :: _, [] => Gt
  | x :: a', y :: b' =>
      match x ?= y with
      | Eq => str_compare a' b'
      | c => c
      end
  end.

(** [a >= b] *)
Definition str_ge (a b : jsstring) : bool :=
  match str_compare a b with Lt => false | _ => true end.

(** [a === b] *)
Definition str_eq (a b : jsstring) : bool :=
  match str_compare a b with Eq => true | _ => false end.

Definition str_lt (a b : jsstring) : Prop := str_compare a b = Lt.

(** ** Constants of the module *)

Definition CAPACITY : Z := Z.shiftl 1 24.

Definition SHIFT : Z := 31 - Z.log2 CAPACITY + 1.

(** [(CAPACITY / 10 + (31 - SHIFT + 1)) << 1]: the quotient is a
    fraction in the source and [<<] truncates the sum, which for these
    positive values is the integer quotient. *)
Definition OVERFLOW : Z := shl32 (CAPACITY / 10 + (31 - SHIFT + 1)) 1.

Definition EMPTY_KEY : jsstring := [255; 255; 255; 255].

Record Entry := mkEntry { key : jsstring; value : option jsstring }.

(** [{ key: EMPTY_KEY }] *)
Definition empty_entry : Entry := mkEntry EMPTY_KEY None.

(** The two module-level variables. *)
Record Map := mkMap { entries : list Entry; len : Z }.

(** The number of slots of the array: [CAPACITY + OVERFLOW]. *)
Definition TABLE : nat := Z.to_nat (CAPACITY + OVERFLOW).

(** The state the module starts in. *)
Definition init : Map := mkMap (replicate TABLE empty_entry) 0.

(** ** Hashing *)

Definition hash (k : jsstring) : Z :=
  or32 (or32 (or32 (shl32 (charCodeAt0 k 0) 24)
                   (shl32 (charCodeAt0 k 1) 16))
             (shl32 (charCodeAt0 k 2) 8))
       (charCodeAt0 k 0).

Definition hashToIndex (h : Z) : Z := sar32 h SHIFT.

(** A key the map accepts: no code unit is 0xFF (or larger). *)
Definition legal (k : jsstring) : Prop := Forall (fun c => 0 <= c <= 254) k.

(** A string of bytes. *)
Definition bytes (k : jsstring) : Prop := Forall (fun c => 0 <= c <= 255) k.

(** The first three code units, padded with zeros. *)
Definition prefix3 (k : jsstring) : jsstring :=
  [charCodeAt0 k 0; charCodeAt0 k 1; charCodeAt0 k 2].

(** ** Outcomes *)

(** The two ways an operation stops without returning: the explicit
    [throw new Error("The map is full.")], and the TypeError of reading
    [.key] of [undefined] when [entries[i]] is outside the array. *)
Inductive Error := MapFull | TypeError.

(** How a call ends.  [OutOfFuel] belongs to the model only: the loops of
    the source are [while (true)], and the model runs them for a bounded
    number of rounds; [fuel_enough] theorems show the bound is never hit. *)
Inductive Outcome (A : Type) :=
| Return (a : A)
| Throw (e : Error)
| OutOfFuel.
Arguments Return {A} a.
Arguments Throw {A} e.
Arguments OutOfFuel {A}.

(** ** Array access *)

(** [entries[i]]: [undefined] (here [None]) outside the array, also for a
    negative [i]. *)
Definition arr_get (es : list Entry) (i : Z) : option Entry :=
  if i <? 0 then None else es !! Z.to_nat i.

(** [entries[i] = x].  Every such assignment in the source is to an index
    whose read [entries[i].key] has just succeeded, or to the index before
    one, so the index is inside the array and the array never grows.
    Outside the array (where JavaScript would extend it or add a property)
    this function leaves the list as it is; the operations below never
    call it there. *)
Definition arr_set (es : list Entry) (i : Z) (x : Entry) : list Entry :=
  if i <? 0 then es else <[Z.to_nat i := x]> es.

(** The rounds that exhaust an array: one per slot and one for the read
    past the end. *)
Definition rounds (es : list Entry) : nat := S (length es).

(** ** get *)

(** The loop of [get].  [Return None] is [null]; [Return (Some v)] is
    [entry.value], which is [undefined] ([None]) for an entry created by
    [getOrPut] alone. *)
Fixpoint get_loop (fuel : nat) (k : jsstring) (es : list Entry) (i : Z)
  : Outcome (option (option jsstring)) :=
  match fuel with
  | O => OutOfFuel
  | S fuel' =>
      match arr_get es i with
      | None => Throw TypeError
      | Some entry =>
          if str_ge (key entry) k then
            if str_eq (key entry) k then Return (Some (value entry))
            else Return None
          else get_loop fuel' k es (i + 1)
      end
  end.

Definition get (k : jsstring) (m : Map) : Outcome (option (option jsstring)) :=
  let h := hash k in
  let i := hashToIndex h in
  get_loop (rounds (entries m)) k (entries m) i.

(** ** getOrPut *)

(** [{ exists, index }] *)
Record Slot := mkSlot { exists_ : bool; index : Z }.

(** The loop of [getOrPut], with its variables [it], [insertedAt] and [i];
    the state it returns is the state at the moment it stops. *)
Fixpoint getOrPut_loop (fuel : nat) (k : jsstring) (it : Entry)
    (insertedAt : option Z) (i : Z) (m : Map) : Map * Outcome Slot :=
  match fuel with
  | O => (m, OutOfFuel)
  | S fuel' =>
      match arr_get (entries m) i with
      | None => (m, Throw TypeError)
      | Some entry =>
          if str_ge (key entry) k then
            if str_eq (key entry) k then (m, Return (mkSlot true i))
            else
              let m1 := mkMap (arr_set (entries m) i it) (len m) in
              if str_eq (key entry) EMPTY_KEY then
                (mkMap (entries m1) (len m1 + 1),
                 Return (mkSlot false
                           (match insertedAt with Some p => p | None => i end)))
              else
                let insertedAt' :=
                  match insertedAt with Some p => Some p | None => Some i end in
                getOrPut_loop fuel' k entry insertedAt' (i + 1) m1
          else getOrPut_loop fuel' k it insertedAt (i + 1) m
      end
  end.

Definition getOrPut (k : jsstring) (m : Map) : Map * Outcome Slot :=
  if len m >=? CAPACITY then (m, Throw MapFull)
  else
    let it := mkEntry k None in
    let i := hashToIndex (hash k) in
    getOrPut_loop (rounds (entries m)) k it None i m.

(** ** put *)

(** [entries[index].key = key; entries[index].value = value] on the slot
    that [getOrPut] reports.  The source assigns to the fields of the
    entry object in that slot; here the slot receives the entry with the
    new fields.  The two agree as long as no entry object sits in two
    slots, which is so in every state reached by calls that return: the
    array starts with one object per slot, an insertion chain swaps
    objects, and a [del] that returns puts a fresh sentinel into the one
    slot it copied last.  Only a [del] that throws in its shift loop
    leaves one object in two slots. *)
Definition put (k v : jsstring) (m : Map) : Map * Outcome unit :=
  match getOrPut k m with
  | (m1, Return r) =>
      match arr_get (entries m1) (index r) with
      | Some _ =>
          (mkMap (arr_set (entries m1) (index r) (mkEntry k (Some v))) (len m1),
           Return tt)
      | None => (m1, Throw TypeError)
      end
  | (m1, Throw e) => (m1, Throw e)
  | (m1, OutOfFuel) => (m1, OutOfFuel)
  end.

(** ** del *)

(** The first loop of [del]: [Return None] is its [return null], and
    [Return (Some i)] its [break] with the index found. *)
Fixpoint del_find (fuel : nat) (k : jsstring) (es : list Entry) (i : Z)
  : Outcome (option Z) :=
  match fuel with
  | O => OutOfFuel
  | S fuel' =>
      match arr_get es i with
      | None => Throw TypeError
      | Some entry =>
          if str_ge (key entry) k then
            if negb (str_eq (key entry) k) then Return None
            else Return (Some i)
          else del_find fuel' k es (i + 1)
      end
  end.

(** The second loop of [del]; it returns the array and the value of [i]
    at the [break]. *)
Fixpoint del_shift (fuel : nat) (es : list Entry) (i : Z)
  : list Entry * Outcome Z :=
  match fuel with
  | O => (es, OutOfFuel)
  | S fuel' =>
      match arr_get es (i + 1) with
      | None => (es, Throw TypeError)
      | Some next =>
          let j := hashToIndex (hash (key next)) in
          if (i <? j) || str_eq (key next) EMPTY_KEY then
            (arr_set es i next, Return i)
          else del_shift fuel' (arr_set es i next) (i + 1)
      end
  end.

Definition del (k : jsstring) (m : Map) : Map * Outcome (option (option jsstring)) :=
  let h := hash k in
  let i := hashToIndex h in
  match del_find (rounds (entries m)) k (entries m) i with
  | Return None => (m, Return None)
  | Return (Some i) =>
      match arr_get (entries m) i with
      | None => (m, Throw TypeError)
      | Some e =>
          let v := value e in
          match del_shift (rounds (entries m)) (entries m) i with
          | (es, Return i') =>
              (mkMap (arr_set es i' empty_entry) (len m - 1), Return (Some v))
          | (es, Throw e) => (mkMap es (len m), Throw e)
          | (es, OutOfFuel) => (mkMap es (len m), OutOfFuel)
          end
      end
  | Throw e => (m, Throw e)
  | OutOfFuel => (m, OutOfFuel)
  end.

(** ** Scans *)

(** A generator is modelled by the list of what it yields. *)
Definition occupied (e : Entry) : bool := negb (str_eq (key e) EMPTY_KEY).

Definition scanAscending (m : Map) : list Entry :=
  filter (fun e => occupied e = true) (entries m).

(** [for (let i = entries.length - 1; i >= 0; i--)], with [n = i + 1]. *)
Fixpoint scanDescending_from (n : nat) (es : list Entry) : list Entry :=
  match n with
  | O => []
  | S i =>
      match es !! i with
      | Some entry =>
          if occupied entry then entry :: scanDescending_from i es
          else scanDescending_from i es
      | None => scanDescending_from i es
      end
  end.

Definition scanDescending (m : Map) : list Entry :=
  scanDescending_from (length (entries m)) (entries m).

(** ** Reachable states *)

(** The states the module can be in: the initial one, and the state after
    any exported mutating call on a legal key that returned. *)
Inductive reachable : Map -> Prop :=
| reach_init : reachable init
| reach_getOrPut k m m' r :
    reachable m -> legal k -> getOrPut k m = (m', Return r) -> reachable m'
| reach_put k v m m' :
    reachable m -> legal k -> put k v m = (m', Return tt) -> reachable m'
| reach_del k m m' r :
    reachable m -> legal k -> del k m = (m', Return r) -> reachable m'.

(** The ideal bucket of a key. *)
Definition bucket (k : jsstring) : Z := hashToIndex (hash k).

(** ** Predicates and states used in the statements *)

(** A byte read as a signed 8-bit number. *)
Definition sbyte (c : Z) : Z := if c <? 128 then c else c - 256.

(** A key whose operations do not leave the array at once: legal, and its
    first code unit has the top bit clear. *)
Definition good (k : jsstring) : Prop := legal k /\ charCodeAt0 k 0 <= 127.

Local Close Scope Z_scope.

(** What an insertion chain does to the array: [x] lands in slot [p], the
    slots [p .. q-1] move up by one, and the old slot [q] is dropped. *)
Definition shift_in {A} (l : list A) (p q : nat) (x : A) : list A :=
  take p l ++ x :: take (q - p) (drop p l) ++ drop (S q) l.

(** What the shift loop of a deletion does: the slots [i+1 .. g+1] are
    copied down by one (slot [g+1] stays as well). *)
Definition shift_left {A} (l : list A) (i g : nat) : list A :=
  take i l ++ take (S g - i) (drop (S i) l) ++ drop (S g) l.

(** A whole deletion: slots [p+1 .. g] move down by one and [x] fills
    slot [g]. *)
Definition shift_out {A} (l : list A) (p g : nat) (x : A) : list A :=
  take p l ++ take (g - p) (drop (S p) l) ++ x :: drop (S g) l.

(** Case analysis on the position of an index in a shifted array. *)
Ltac idx_insert :=
  match goal with
  | |- context [<[?i := _]> ?l !! ?j] =>
      first [ replace j with i by lia;
              rewrite list_lookup_insert_eq by (rewrite ?length_insert; lia)
            | rewrite list_lookup_insert_ne by lia ]
  end.

Ltac idx_close :=
  first [ reflexivity
        | lia
        | congruence
        | f_equal; lia
        | match goal with
          | H : ?l !! ?p = Some _ |- context [?l !! ?a] =>
              replace a with p by lia; rewrite H; reflexivity
          end ].

Ltac idx_cases := repeat case_decide; try lia; repeat idx_insert; idx_close.

(** A slot below the key: the probe loops step over it. *)
Definition below (k : jsstring) (es : list Entry) (j : nat) : Prop :=
  exists e, es !! j = Some e /\ str_lt (key e) k.

(** [p] is where a probe for [k] from slot [i] stops: the first slot whose
    key is not below [k]. *)
Definition probe_stop (k : jsstring) (es : list Entry) (i p : nat) (e : Entry) : Prop :=
  i <= p /\ (forall j, i <= j < p -> below k es j) /\
  es !! p = Some e /\ str_ge (key e) k = true.

(** An occupied slot. *)
Definition full (es : list Entry) (j : nat) : Prop :=
  exists e, es !! j = Some e /\ key e <> EMPTY_KEY.

(** A slot that holds the sentinel. *)
Definition hole (es : list Entry) (j : nat) : Prop :=
  exists e, es !! j = Some e /\ key e = EMPTY_KEY.

(** From slot [i] on, and as far as the occupied run reaches, every key is
    above [k]. *)
Definition above_run (k : jsstring) (es : list Entry) (i : nat) : Prop :=
  forall j e, i <= j -> es !! j = Some e -> key e <> EMPTY_KEY ->
              (forall j', i <= j' < j -> full es j') -> str_lt k (key e).

Definition default_index (ins : option Z) (i : Z) : Z :=
  match ins with Some p => p | None => i end.

(** Once an occupied slot is above [k], the occupied slots after it are. *)
Definition above_closed (k : jsstring) (es : list Entry) : Prop :=
  forall j j' e e', j < j' -> es !! j = Some e -> es !! j' = Some e' ->
    key e <> EMPTY_KEY -> key e' <> EMPTY_KEY ->
    str_lt k (key e) -> str_lt k (key e').

(** What a returning [getOrPut] loop did: either it met the key at its
    probe stop [p], or it ran an insertion chain from [p] to the hole [q]. *)
Definition gop_found (k : jsstring) (m : Map) (p : nat) (e : Entry)
    (m' : Map) (r : Slot) : Prop :=
  key e = k /\ m' = m /\ r = mkSlot true (Z.of_nat p).

Definition gop_inserted (k : jsstring) (it : Entry) (m : Map) (p : nat)
    (e : Entry) (m' : Map) (r : Slot) : Prop :=
  key e <> k /\
  exists q, p <= q /\ (forall j, p <= j < q -> full (entries m) j) /\
            hole (entries m) q /\
            m' = mkMap (shift_in (entries m) p q it) (len m + 1) /\
            r = mkSlot false (Z.of_nat p).

(** The entry after the gap [i] stays where it is: the loop breaks. *)
Definition stays (e : Entry) (i : nat) : Prop :=
  (Z.of_nat i < bucket (key e))%Z \/ key e = EMPTY_KEY.

(** The entry after the gap [i] moves into it and the loop goes on. *)
Definition moves (e : Entry) (i : nat) : Prop :=
  (bucket (key e) <= Z.of_nat i)%Z /\ key e <> EMPTY_KEY.

(** The shift loop from the gap [i] breaks at the gap [g]. *)
Definition shift_stop (es : list Entry) (i g : nat) : Prop :=
  i <= g /\
  (forall j, i <= j < g -> exists e, es !! S j = Some e /\ moves e j) /\
  exists e, es !! S g = Some e /\ stays e g.

(** The state of the array that every operation maintains, as a property of
    the list of its keys: its length is fixed; every occupied slot holds a
    good key; occupied slots ascend strictly (I1); no key sits before its
    ideal bucket (I2); and the slots from the ideal bucket of a key to the
    key are all occupied. *)
Record KInv (ks : list jsstring) : Prop := mkKInv {
  kinv_length : Z.of_nat (length ks) = (CAPACITY + OVERFLOW)%Z;
  kinv_good : forall i k, ks !! i = Some k -> k <> EMPTY_KEY -> good k;
  kinv_sorted : forall i j ki kj,
    i < j -> ks !! i = Some ki -> ks !! j = Some kj ->
    ki <> EMPTY_KEY -> kj <> EMPTY_KEY -> str_lt ki kj;
  kinv_home : forall i k,
    ks !! i = Some k -> k <> EMPTY_KEY -> (bucket k <= Z.of_nat i)%Z;
  kinv_dense : forall i k j,
    ks !! i = Some k -> k <> EMPTY_KEY -> (bucket k <= Z.of_nat j)%Z -> j <= i ->
    exists kj, ks !! j = Some kj /\ kj <> EMPTY_KEY
}.

Definition Inv (m : Map) : Prop :=
  KInv (key <$> entries m) /\ (len m <= CAPACITY)%Z.

(** What a returning [put] did. *)
Definition put_found (k v : jsstring) (m : Map) (p : nat) (e : Entry) (m' : Map) : Prop :=
  key e = k /\ m' = mkMap (<[p := mkEntry k (Some v)]> (entries m)) (len m).

(** What a returning [del] did: nothing when it answers [null]; otherwise
    it found the key at its probe stop [p], the shift loop broke at the
    gap [g], and the sentinel went into slot [g]. *)
Definition del_removed (k : jsstring) (m : Map) (b p g : nat) (e : Entry)
    (m' : Map) : Prop :=
  bucket k = Z.of_nat b /\ probe_stop k (entries m) b p e /\ key e = k /\
  shift_stop (entries m) p g /\
  m' = mkMap (shift_out (entries m) p g empty_entry) (len m - 1).

(** [w] digits of [n] in base 128, most significant first. *)
Fixpoint enc (w : nat) (n : Z) : jsstring :=
  match w with
  | O => []
  | S w' => enc w' (n / 128) ++ [(n mod 128)%Z]
  end.

(** The [n]-th key of the family with the three-byte prefix [pre]. *)
Definition fam_key (pre : jsstring) (n : nat) : jsstring :=
  pre ++ enc 4 (Z.of_nat n).

(** Slot [j] of the array that holds the first [n] keys of the family,
    from the bucket [B] of the family on. *)
Definition fam_slot (pre v : jsstring) (B n j : nat) : Entry :=
  if decide (B <= j < B + n) then mkEntry (fam_key pre (j - B)) (Some v)
  else empty_entry.

Definition fam_state (pre v : jsstring) (B n : nat) : Map :=
  mkMap (fam_slot pre v B n <$> seq 0 TABLE) (Z.of_nat n).

(** [CAPACITY] keys, all of bucket 0: slot [n] holds the key
    00 00 00 d3 d2 d1 d0, where d3 .. d0 are the base-128 digits of [n],
    for [n < 16777216]; the other slots hold the sentinel. *)
Definition full_count : nat := Z.to_nat 16777216.

Definition full_map : Map := fam_state [0; 0; 0]%Z [118%Z] 0 full_count.

(** 11744356 keys, all of bucket 8388350, the largest bucket of a good
    key: slot [8388350 + n] holds the key 7F FE FE d3 d2 d1 d0, where
    d3 .. d0 are the base-128 digits of [n], for [n < 11744356].  They
    occupy every slot from 8388350 to the last one, 20132705. *)
Definition crowd_base : nat := Z.to_nat 8388350.

Definition crowd_count : nat := Z.to_nat 11744356.

Definition crowded_map : Map :=
  fam_state [127; 254; 254]%Z [118%Z] crowd_base crowd_count.

(** Two keys in their ideal buckets 0 and 1. *)
Definition pair_map : Map :=
  mkMap (<[1 := mkEntry [0; 0; 1]%Z (Some [50%Z])]>
           (<[0 := mkEntry [0; 0; 0]%Z (Some [49%Z])]>
              (replicate TABLE empty_entry)))
        2.

(** One key in its ideal bucket 0. *)
Definition one_map : Map :=
  mkMap (<[0 := mkEntry [0; 0; 0]%Z (Some [49%Z])]> (replicate TABLE empty_entry)) 1.

(** [pair_map] after [del] of its first key. *)
Definition after_del_map : Map :=
  mkMap (<[0 := empty_entry]> (entries pair_map)) 1.

(** The last slot of the array holds the sentinel. *)
Definition last_slot_empty (m : Map) : Prop :=
  hole (entries m) (length (entries m) - 1).

(** ** The contents of the table and the benchmark loop *)

(** The key [k] is in the table, with the value [w] ([None] for an entry
    that [getOrPut] created and nobody gave a value). *)
Definition stored (m : Map) (k : jsstring) (w : option jsstring) : Prop :=
  exists i e, entries m !! i = Some e /\ key e = k /\ value e = w.

(** No slot of the table holds the key [k]. *)
Definition absent (m : Map) (k : jsstring) : Prop :=
  forall e, e ∈ entries m -> key e <> k.

(** The number of occupied slots. *)
Definition count_occupied (es : list Entry) : nat :=
  length (filter (fun e => occupied e = true) es).

(** What the operations maintain besides [Inv]: [len] counts the occupied
    slots, and a slot that is not occupied holds [{ key: EMPTY_KEY }]. *)
Definition Inv2 (m : Map) : Prop :=
  len m = Z.of_nat (count_occupied (entries m)) /\
  forall i e, entries m !! i = Some e -> key e = EMPTY_KEY -> e = empty_entry.

(** [String(i)] for an index [i]: its decimal digits. *)
Definition String_ (i : nat) : jsstring :=
  (fun c => Z.of_nat (nat_of_ascii c))
    <$> list_ascii_of_string (NilEmpty.string_of_uint (Nat.to_uint i)).

(** The first loop of a round of benchmark.ts,
    [for (const [i, item] of items.entries()) put(item, String(i))],
    from the index [i] on; a call that throws ends the run. *)
Fixpoint put_items (i : nat) (items : list jsstring) (m : Map) : Map * Outcome unit :=
  match items with
  | [] => (m, Return tt)
  | item :: rest =>
      match put item (String_ i) m with
      | (m1, Return _) => put_items (S i) rest m1
      | (m1, Throw e) => (m1, Throw e)
      | (m1, OutOfFuel) => (m1, OutOfFuel)
      end
  end.

(** The second loop, [for (const item of items) del(item)]. *)
Fixpoint del_items (items : list jsstring) (m : Map) : Map * Outcome unit :=
  match items with
  | [] => (m, Return tt)
  | item :: rest =>
      match del item m with
      | (m1, Return _) => del_items rest m1
      | (m1, Throw e) => (m1, Throw e)
      | (m1, OutOfFuel) => (m1, OutOfFuel)
      end
  end.

(** One round of the benchmark on the map: all the puts, then all the
    dels.  The list [items] is built in the source with a SHA-256 of the
    index, which is outside this development; it is a parameter here. *)
Definition rhh_round (items : list jsstring) (m : Map) : Map * Outcome unit :=
  match put_items 0 items m with
  | (m1, Return _) => del_items items m1
  | other => other
  end.

(** The outer loop, [for (let i = 0; i < 10; i++)], for [n] rounds; the
    timing and the logging around a round leave the map alone. *)
Fixpoint rhh_rounds (n : nat) (items : list jsstring) (m : Map) : Map * Outcome unit :=
  match n with
  | O => (m, Return tt)
  | S n' =>
      match rhh_round items m with
      | (m1, Return _) => rhh_rounds n' items m1
      | other => other
      end
  end.

(** * Proofs *)

Local Open Scope Z_scope.

Lemma bucket_unfold k : hashToIndex (hash k) = bucket k.
Proof. unfold bucket. exact eq_refl. Qed.

(** * The operations on a small array

    The loops run on any array; eight slots are enough to watch three keys
    of bucket 2 and one of bucket 3 being inserted out of order, looked up
    and deleted. *)

Example small_inserts :
  let m := mkMap (replicate 8 empty_entry) 0 in
  let m := fst (put [0; 0; 2; 1] [1] m) in
  let m := fst (put [0; 0; 2; 3] [3] m) in
  let m := fst (put [0; 0; 3] [4] m) in
  let m := fst (put [0; 0; 2; 2] [2] m) in
  (key <$> entries m, len m, get [0; 0; 2; 2] m, get [0; 0; 2; 4] m)
  = ([EMPTY_KEY; EMPTY_KEY; [0; 0; 2; 1]; [0; 0; 2; 2]; [0; 0; 2; 3];
      [0; 0; 3]; EMPTY_KEY; EMPTY_KEY],
     4, Return (Some (Some [2])), Return None).
Proof. vm_compute. exact eq_refl. Qed.

Example small_delete :
  let m := mkMap (replicate 8 empty_entry) 0 in
  let m := fst (put [0; 0; 2; 1] [1] m) in
  let m := fst (put [0; 0; 2; 3] [3] m) in
  let m := fst (put [0; 0; 3] [4] m) in
  let m := fst (put [0; 0; 2; 2] [2] m) in
  let d := del [0; 0; 2; 2] m in
  (key <$> entries (fst d), len (fst d), snd d,
   key <$> scanDescending (fst d))
  = ([EMPTY_KEY; EMPTY_KEY; [0; 0; 2; 1]; [0; 0; 2; 3]; [0; 0; 3];
      EMPTY_KEY; EMPTY_KEY; EMPTY_KEY],
     3, Return (Some (Some [2])),
     [[0; 0; 3]; [0; 0; 2; 3]; [0; 0; 2; 1]]).
Proof. vm_compute. exact eq_refl. Qed.

Example constants : (CAPACITY, SHIFT, OVERFLOW) = (16777216, 8, 3355490).
Proof. vm_compute. exact eq_refl. Qed.

(** * Arithmetic of the hash *)

Lemma toInt32_id x : -2147483648 <= x < 2147483648 -> toInt32 x = x.
Proof.
  intros H. unfold toInt32.
  rewrite Z.mod_small by lia. lia.
Qed.

Lemma land_shifted_low x y n :
  0 <= n -> 0 <= y < 2 ^ n -> Z.land (x * 2 ^ n) y = 0.
Proof.
  intros Hn Hy. apply Z.bits_inj'. intros m Hm.
  rewrite Z.land_spec, Z.bits_0.
  destruct (Z.lt_ge_cases m n) as [Hlt | Hge].
  - rewrite Z.mul_pow2_bits_low by lia. reflexivity.
  - destruct (Z.eq_dec y 0) as [-> | Hy0].
    + rewrite Z.bits_0. apply andb_false_r.
    + rewrite (Z.bits_above_log2 y m); [apply andb_false_r | lia |].
      apply Z.log2_lt_pow2; [lia |].
      assert (2 ^ n <= 2 ^ m) by (apply Z.pow_le_mono_r; lia). lia.
Qed.

Lemma lor_shifted_low x y n :
  0 <= n -> 0 <= y < 2 ^ n -> Z.lor (x * 2 ^ n) y = x * 2 ^ n + y.
Proof.
  intros Hn Hy.
  pose proof (land_shifted_low x y n Hn Hy) as Hl.
  rewrite <- Z.lxor_lor by exact Hl.
  symmetry. apply Z.add_nocarry_lxor. exact Hl.
Qed.

Lemma sbyte_range c : 0 <= c <= 255 -> -128 <= sbyte c <= 127.
Proof. unfold sbyte. destruct (c <? 128) eqn:E; lia. Qed.

Lemma shl32_24 c : 0 <= c <= 255 -> shl32 c 24 = sbyte c * 16777216.
Proof.
  intros H. unfold shl32. rewrite (toInt32_id c) by lia.
  change (24 mod 32) with 24. rewrite Z.shiftl_mul_pow2 by lia.
  change (2 ^ 24) with 16777216.
  unfold sbyte. destruct (c <? 128) eqn:E.
  - apply toInt32_id. lia.
  - unfold toInt32.
    replace (c * 16777216 + 2147483648)
      with ((c - 256) * 16777216 + 2147483648 + 1 * 4294967296) by lia.
    rewrite Z.mod_add by lia. rewrite Z.mod_small by lia. lia.
Qed.

Lemma shl32_small c n :
  0 <= c <= 255 -> 0 <= n <= 16 -> shl32 c n = c * 2 ^ n.
Proof.
  intros Hc Hn. unfold shl32. rewrite (toInt32_id c) by lia.
  rewrite Z.mod_small by lia. rewrite Z.shiftl_mul_pow2 by lia.
  apply toInt32_id.
  assert (2 ^ n <= 2 ^ 16) by (apply Z.pow_le_mono_r; lia).
  assert (0 < 2 ^ n) by (apply Z.pow_pos_nonneg; lia).
  change (2 ^ 16) with 65536 in *. nia.
Qed.

Lemma or32_shifted x y n :
  0 <= n -> 0 <= y < 2 ^ n -> y < 2147483648 ->
  -2147483648 <= x * 2 ^ n -> x * 2 ^ n + y < 2147483648 ->
  or32 (x * 2 ^ n) y = x * 2 ^ n + y.
Proof.
  intros Hn Hy Hy' Hlo Hhi. unfold or32.
  rewrite (toInt32_id (x * 2 ^ n)) by lia.
  rewrite (toInt32_id y) by lia.
  rewrite lor_shifted_low by assumption.
  apply toInt32_id. lia.
Qed.

(** The hash of three bytes in closed form. *)
Lemma hash_bytes c0 c1 c2 :
  0 <= c0 <= 255 -> 0 <= c1 <= 255 -> 0 <= c2 <= 255 ->
  or32 (or32 (or32 (shl32 c0 24) (shl32 c1 16)) (shl32 c2 8)) c0
  = sbyte c0 * 16777216 + c1 * 65536 + c2 * 256 + c0.
Proof.
  intros H0 H1 H2.
  pose proof (sbyte_range c0 H0) as Hs.
  rewrite shl32_24 by assumption.
  rewrite !shl32_small by lia.
  change (2 ^ 16) with 65536. change (2 ^ 8) with 256.
  change 16777216 with (2 ^ 24).
  rewrite or32_shifted; change (2 ^ 24) with 16777216; try lia.
  replace (sbyte c0 * 16777216 + c1 * 65536)
    with ((sbyte c0 * 256 + c1) * 2 ^ 16) by (change (2 ^ 16) with 65536; lia).
  rewrite or32_shifted; change (2 ^ 16) with 65536; try lia.
  replace ((sbyte c0 * 256 + c1) * 65536 + c2 * 256)
    with (((sbyte c0 * 256 + c1) * 256 + c2) * 2 ^ 8) by (change (2 ^ 8) with 256; lia).
  rewrite or32_shifted; change (2 ^ 8) with 256; lia.
Qed.

Lemma charCodeAt0_bytes k n : bytes k -> 0 <= charCodeAt0 k n <= 255.
Proof.
  intros Hk. unfold charCodeAt0.
  destruct (k !! n) as [c|] eqn:E; [| lia].
  assert (0 <= c <= 255) as Hc.
  { unfold bytes in Hk. rewrite Forall_lookup in Hk. exact (Hk n c E). }
  rewrite toInt32_id; lia.
Qed.

Lemma legal_bytes k : legal k -> bytes k.
Proof.
  unfold legal, bytes. intros H.
  eapply Forall_impl; [exact H |]. intros c Hc. simpl in Hc. lia.
Qed.

Lemma hash_closed k :
  bytes k ->
  hash k = sbyte (charCodeAt0 k 0) * 16777216 + charCodeAt0 k 1 * 65536
           + charCodeAt0 k 2 * 256 + charCodeAt0 k 0.
Proof.
  intros Hk. unfold hash. apply hash_bytes; apply charCodeAt0_bytes; exact Hk.
Qed.

Lemma hashToIndex_closed h : -2147483648 <= h < 2147483648 -> hashToIndex h = h / 256.
Proof.
  intros H. unfold hashToIndex, sar32. rewrite toInt32_id by lia.
  change (SHIFT mod 32) with 8. rewrite Z.shiftr_div_pow2 by lia. reflexivity.
Qed.

Lemma bucket_closed k :
  bytes k ->
  bucket k = sbyte (charCodeAt0 k 0) * 65536 + charCodeAt0 k 1 * 256
             + charCodeAt0 k 2.
Proof.
  intros Hk. unfold bucket. rewrite hash_closed by exact Hk.
  pose proof (charCodeAt0_bytes k 0 Hk) as H0.
  pose proof (charCodeAt0_bytes k 1 Hk) as H1.
  pose proof (charCodeAt0_bytes k 2 Hk) as H2.
  pose proof (sbyte_range _ H0) as Hs.
  rewrite hashToIndex_closed by lia.
  symmetry. apply Z.div_unique with (r := charCodeAt0 k 0); lia.
Qed.

Lemma toUint32_hash k :
  bytes k ->
  toUint32 (hash k) = charCodeAt0 k 0 * 16777216 + charCodeAt0 k 1 * 65536
                      + charCodeAt0 k 2 * 256 + charCodeAt0 k 0.
Proof.
  intros Hk. rewrite hash_closed by exact Hk.
  pose proof (charCodeAt0_bytes k 0 Hk) as H0.
  pose proof (charCodeAt0_bytes k 1 Hk) as H1.
  pose proof (charCodeAt0_bytes k 2 Hk) as H2.
  unfold toUint32, sbyte. destruct (charCodeAt0 k 0 <? 128) eqn:E.
  - apply Z.mod_small. lia.
  - replace ((charCodeAt0 k 0 - 256) * 16777216 + charCodeAt0 k 1 * 65536
             + charCodeAt0 k 2 * 256 + charCodeAt0 k 0)
      with (charCodeAt0 k 0 * 16777216 + charCodeAt0 k 1 * 65536
            + charCodeAt0 k 2 * 256 + charCodeAt0 k 0 + (-1) * 4294967296) by lia.
    rewrite Z.mod_add by lia. apply Z.mod_small. lia.
Qed.

(** * The order on strings *)

Lemma str_compare_refl a : str_compare a a = Eq.
Proof.
  induction a as [| x a IH]; simpl; [reflexivity |].
  rewrite Z.compare_refl. exact IH.
Qed.

Lemma str_compare_eq a b : str_compare a b = Eq <-> a = b.
Proof.
  split; [| intros ->; apply str_compare_refl].
  revert b. induction a as [| x a IH]; intros [| y b]; simpl; try discriminate.
  - reflexivity.
  - destruct (x ?= y) eqn:E; try discriminate.
    apply Z.compare_eq in E. intros H. f_equal; [exact E | apply IH, H].
Qed.

Lemma str_compare_antisym a b : str_compare b a = CompOpp (str_compare a b).
Proof.
  revert b. induction a as [| x a IH]; intros [| y b]; simpl; try reflexivity.
  rewrite (Z.compare_antisym x y).
  destruct (x ?= y); simpl; [apply IH | reflexivity | reflexivity].
Qed.

Lemma str_lt_trans a b c : str_lt a b -> str_lt b c -> str_lt a c.
Proof.
  unfold str_lt. revert b c.
  induction a as [| x a IH]; intros [| y b] [| z c]; simpl; try discriminate;
    try reflexivity.
  destruct (x ?= y) eqn:Exy; try discriminate;
    destruct (y ?= z) eqn:Eyz; try discriminate; intros H1 H2.
  - apply Z.compare_eq in Exy, Eyz. subst. rewrite Z.compare_refl. eauto.
  - apply Z.compare_eq in Exy. subst. rewrite Eyz. reflexivity.
  - apply Z.compare_eq in Eyz. subst. rewrite Exy. reflexivity.
  - rewrite Z.compare_lt_iff in Exy, Eyz.
    assert (x < z) as Hxz by lia. rewrite <- Z.compare_lt_iff in Hxz.
    rewrite Hxz. reflexivity.
Qed.

Lemma str_lt_irrefl a : ~ str_lt a a.
Proof. unfold str_lt. rewrite str_compare_refl. discriminate. Qed.

Lemma str_lt_asym a b : str_lt a b -> ~ str_lt b a.
Proof.
  intros H1 H2. exact (str_lt_irrefl a (str_lt_trans _ _ _ H1 H2)).
Qed.

Lemma str_eq_true a b : str_eq a b = true <-> a = b.
Proof.
  unfold str_eq. rewrite <- str_compare_eq.
  destruct (str_compare a b); split; congruence.
Qed.

Lemma str_eq_false a b : str_eq a b = false <-> a <> b.
Proof.
  rewrite <- str_eq_true. destruct (str_eq a b); split; congruence.
Qed.

Lemma str_ge_false a b : str_ge a b = false <-> str_lt a b.
Proof.
  unfold str_ge, str_lt. destruct (str_compare a b); split; congruence.
Qed.

Lemma str_ge_true a b : str_ge a b = true <-> a = b \/ str_lt b a.
Proof.
  unfold str_ge, str_lt. rewrite (str_compare_antisym a b).
  rewrite <- str_compare_eq.
  destruct (str_compare a b); simpl; split; intros H;
    try discriminate; auto; destruct H; congruence.
Qed.

Lemma str_total a b : str_lt a b \/ a = b \/ str_lt b a.
Proof.
  unfold str_lt. rewrite (str_compare_antisym a b).
  rewrite <- str_compare_eq.
  destruct (str_compare a b); simpl; auto.
Qed.

(** The sentinel is above every legal key. *)
Lemma legal_lt_EMPTY k : legal k -> str_lt k EMPTY_KEY.
Proof.
  unfold legal, str_lt, EMPTY_KEY. intros H.
  destruct k as [| c k]; simpl; [reflexivity |].
  inversion H as [| ? ? Hc _]; subst.
  assert (c < 255) as Hlt by lia.
  rewrite <- Z.compare_lt_iff in Hlt. rewrite Hlt. reflexivity.
Qed.

Lemma legal_not_EMPTY k : legal k -> k <> EMPTY_KEY.
Proof.
  intros H ->. exact (str_lt_irrefl _ (legal_lt_EMPTY _ H)).
Qed.

Lemma charCodeAt0_cons_0 c k : charCodeAt0 (c :: k) 0 = toInt32 c.
Proof. reflexivity. Qed.

Lemma charCodeAt0_cons_S c k n : charCodeAt0 (c :: k) (S n) = charCodeAt0 k n.
Proof. reflexivity. Qed.

(** The order of two byte strings decides the order of their padded
    three-byte prefixes. *)
Lemma str_le_prefix a b :
  bytes a -> bytes b -> str_compare a b <> Gt ->
  let a0 := charCodeAt0 a 0 in let a1 := charCodeAt0 a 1 in
  let a2 := charCodeAt0 a 2 in
  let b0 := charCodeAt0 b 0 in let b1 := charCodeAt0 b 1 in
  let b2 := charCodeAt0 b 2 in
  a0 < b0 \/ (a0 = b0 /\ (a1 < b1 \/ (a1 = b1 /\ a2 <= b2))).
Proof.
  intros Ha Hb Hc.
  pose proof (charCodeAt0_bytes b 0 Hb) as Hb0.
  pose proof (charCodeAt0_bytes b 1 Hb) as Hb1.
  pose proof (charCodeAt0_bytes b 2 Hb) as Hb2.
  cbv zeta.
  assert (forall x y (l l' : jsstring) (P : Prop),
             0 <= x <= 255 -> 0 <= y <= 255 ->
             str_compare (x :: l) (y :: l') <> Gt ->
             (x < y -> P) -> (x = y -> str_compare l l' <> Gt -> P) -> P) as step.
  { intros x y l l' P Hx Hy Hcmp H1 H2. simpl in Hcmp.
    destruct (x ?= y) eqn:E.
    - apply Z.compare_eq in E. auto.
    - rewrite Z.compare_lt_iff in E. auto.
    - congruence. }
  destruct a as [| x0 a].
  { change (charCodeAt0 [] 0) with 0. change (charCodeAt0 [] 1) with 0.
    change (charCodeAt0 [] 2) with 0. lia. }
  destruct b as [| y0 b]; [simpl in Hc; congruence |].
  apply Forall_cons in Ha as [Hx0 Ha]. apply Forall_cons in Hb as [Hy0 Hb].
  rewrite !charCodeAt0_cons_0, !charCodeAt0_cons_S in *.
  rewrite !toInt32_id in * by lia.
  apply (step x0 y0 a b); try assumption; [lia |]. intros -> Hc1.
  destruct a as [| x1 a].
  { change (charCodeAt0 [] 0) with 0. change (charCodeAt0 [] 1) with 0. lia. }
  destruct b as [| y1 b]; [simpl in Hc1; congruence |].
  apply Forall_cons in Ha as [Hx1 Ha]. apply Forall_cons in Hb as [Hy1 Hb].
  rewrite !charCodeAt0_cons_0, !charCodeAt0_cons_S in *.
  rewrite !toInt32_id in * by lia.
  apply (step x1 y1 a b); try assumption; [lia |]. intros -> Hc2.
  destruct a as [| x2 a].
  { change (charCodeAt0 [] 0) with 0. lia. }
  destruct b as [| y2 b]; [simpl in Hc2; congruence |].
  apply Forall_cons in Ha as [Hx2 Ha]. apply Forall_cons in Hb as [Hy2 Hb].
  rewrite !charCodeAt0_cons_0 in *.
  rewrite !toInt32_id in * by lia.
  apply (step x2 y2 a b); try assumption; lia.
Qed.

Lemma good_bucket_nonneg k : good k -> 0 <= bucket k.
Proof.
  intros [Hl H0]. pose proof (legal_bytes _ Hl) as Hb.
  rewrite bucket_closed by exact Hb.
  pose proof (charCodeAt0_bytes k 0 Hb). pose proof (charCodeAt0_bytes k 1 Hb).
  pose proof (charCodeAt0_bytes k 2 Hb).
  unfold sbyte. destruct (charCodeAt0 k 0 <? 128) eqn:E; lia.
Qed.

Lemma legal_bucket_nonneg_good k : legal k -> 0 <= bucket k -> good k.
Proof.
  intros Hl Hb0. split; [exact Hl |]. pose proof (legal_bytes _ Hl) as Hb.
  rewrite bucket_closed in Hb0 by exact Hb.
  pose proof (charCodeAt0_bytes k 0 Hb). pose proof (charCodeAt0_bytes k 1 Hb).
  pose proof (charCodeAt0_bytes k 2 Hb).
  unfold sbyte in Hb0. destruct (charCodeAt0 k 0 <? 128) eqn:E; lia.
Qed.

Lemma charCodeAt0_legal k n : legal k -> 0 <= charCodeAt0 k n <= 254.
Proof.
  intros Hk. unfold charCodeAt0.
  destruct (k !! n) as [c|] eqn:E; [| lia].
  assert (0 <= c <= 254) as Hc.
  { unfold legal in Hk. rewrite Forall_lookup in Hk. exact (Hk n c E). }
  rewrite toInt32_id; lia.
Qed.

Lemma good_bucket_bound k : good k -> bucket k <= 8388350.
Proof.
  intros [Hl H0]. pose proof (legal_bytes _ Hl) as Hb.
  rewrite bucket_closed by exact Hb.
  pose proof (charCodeAt0_legal k 0 Hl). pose proof (charCodeAt0_legal k 1 Hl).
  pose proof (charCodeAt0_legal k 2 Hl).
  unfold sbyte. destruct (charCodeAt0 k 0 <? 128) eqn:E; lia.
Qed.

(** On good keys the ideal bucket is monotone in the key. *)
Lemma bucket_mono a b :
  good a -> good b -> str_compare a b <> Gt -> bucket a <= bucket b.
Proof.
  intros [Hla Ha0] [Hlb Hb0] Hc.
  pose proof (legal_bytes _ Hla) as Ha. pose proof (legal_bytes _ Hlb) as Hb.
  pose proof (str_le_prefix a b Ha Hb Hc) as H. cbv zeta in H.
  rewrite !bucket_closed by assumption.
  pose proof (charCodeAt0_bytes a 0 Ha). pose proof (charCodeAt0_bytes a 1 Ha).
  pose proof (charCodeAt0_bytes a 2 Ha).
  pose proof (charCodeAt0_bytes b 0 Hb). pose proof (charCodeAt0_bytes b 1 Hb).
  pose proof (charCodeAt0_bytes b 2 Hb).
  unfold sbyte.
  destruct (charCodeAt0 a 0 <? 128) eqn:Ea; [| lia].
  destruct (charCodeAt0 b 0 <? 128) eqn:Eb; [| lia].
  lia.
Qed.

Lemma bucket_mono_lt a b : good a -> good b -> str_lt a b -> bucket a <= bucket b.
Proof.
  intros Ha Hb H. apply bucket_mono; try assumption.
  unfold str_lt in H. congruence.
Qed.

(** * Moving a run of slots by one *)

Local Close Scope Z_scope.

Section Shifts.
Context {A : Type}.
Implicit Types (l : list A) (x : A).

Lemma length_shift_in l p q x :
  p <= q < length l -> length (shift_in l p q x) = length l.
Proof.
  intros H. unfold shift_in.
  rewrite length_app, length_cons, length_app.
  rewrite !length_take, !length_drop. lia.
Qed.

Lemma lookup_shift_in l p q x j :
  p <= q < length l ->
  shift_in l p q x !! j =
    if decide (j < p) then l !! j
    else if decide (j = p) then Some x
    else if decide (j <= q) then l !! (j - 1)
    else l !! j.
Proof.
  intros H. unfold shift_in.
  assert (length (take p l) = p) as Hp by (rewrite length_take; lia).
  assert (length (take (q - p) (drop p l)) = q - p) as Hq
    by (rewrite length_take, length_drop; lia).
  repeat case_decide.
  - rewrite lookup_app_l by lia. apply lookup_take_lt. lia.
  - subst j. rewrite lookup_app_r by lia. rewrite Hp, Nat.sub_diag. reflexivity.
  - rewrite lookup_app_r by lia. rewrite Hp.
    destruct (j - p) as [| d] eqn:E; [lia |]. simpl.
    rewrite lookup_app_l by lia. rewrite lookup_take_lt by lia.
    rewrite lookup_drop. f_equal. lia.
  - rewrite lookup_app_r by lia. rewrite Hp.
    destruct (j - p) as [| d] eqn:E; [lia |]. simpl.
    rewrite lookup_app_r by lia. rewrite Hq, lookup_drop. f_equal. lia.
Qed.

Lemma length_shift_left l i g :
  i <= g -> S g < length l -> length (shift_left l i g) = length l.
Proof.
  intros H1 H2. unfold shift_left.
  rewrite !length_app, !length_take, !length_drop. lia.
Qed.

Lemma lookup_shift_left l i g j :
  i <= g -> S g < length l ->
  shift_left l i g !! j =
    if decide (j < i) then l !! j
    else if decide (j <= g) then l !! (S j)
    else l !! j.
Proof.
  intros H1 H2. unfold shift_left.
  assert (length (take i l) = i) as Hi by (rewrite length_take; lia).
  assert (length (take (S g - i) (drop (S i) l)) = S g - i) as Hg
    by (rewrite length_take, length_drop; lia).
  repeat case_decide.
  - rewrite lookup_app_l by lia. apply lookup_take_lt. lia.
  - rewrite lookup_app_r by lia. rewrite Hi.
    rewrite lookup_app_l by lia. rewrite lookup_take_lt by lia.
    rewrite lookup_drop. f_equal. lia.
  - rewrite lookup_app_r by lia. rewrite Hi.
    rewrite lookup_app_r by lia. rewrite Hg, lookup_drop. f_equal. lia.
Qed.

Lemma length_shift_out l p g x :
  p <= g < length l -> length (shift_out l p g x) = length l.
Proof.
  intros H. unfold shift_out.
  rewrite !length_app, length_cons, !length_take, !length_drop. lia.
Qed.

Lemma lookup_shift_out l p g x j :
  p <= g < length l ->
  shift_out l p g x !! j =
    if decide (j < p) then l !! j
    else if decide (j < g) then l !! (S j)
    else if decide (j = g) then Some x
    else l !! j.
Proof.
  intros H. unfold shift_out.
  assert (length (take p l) = p) as Hp by (rewrite length_take; lia).
  assert (length (take (g - p) (drop (S p) l)) = g - p) as Hg
    by (rewrite length_take, length_drop; lia).
  repeat case_decide.
  - rewrite lookup_app_l by lia. apply lookup_take_lt. lia.
  - rewrite lookup_app_r by lia. rewrite Hp.
    rewrite lookup_app_l by lia. rewrite lookup_take_lt by lia.
    rewrite lookup_drop. f_equal. lia.
  - subst j. rewrite lookup_app_r by lia. rewrite Hp.
    rewrite lookup_app_r by lia. rewrite Hg, Nat.sub_diag. reflexivity.
  - rewrite lookup_app_r by lia. rewrite Hp.
    rewrite lookup_app_r by lia. rewrite Hg.
    destruct (j - p - (g - p)) as [| d] eqn:E; [lia |]. simpl.
    rewrite lookup_drop. f_equal. lia.
Qed.

(** One round of an insertion chain, seen from its end. *)
Lemma shift_in_step l p q x y :
  p < q -> q < length l -> l !! p = Some y ->
  shift_in (<[p := x]> l) (S p) q y = shift_in l p q x.
Proof.
  intros H1 H2 Hy. apply list_eq. intros j.
  rewrite !lookup_shift_in by (rewrite ?length_insert; lia).
  idx_cases.
Qed.

Lemma shift_in_base l p x :
  p < length l -> <[p := x]> l = shift_in l p p x.
Proof.
  intros H. apply list_eq. intros j.
  rewrite lookup_shift_in by lia. idx_cases.
Qed.

Lemma insert_shift_in l p q x y :
  p <= q < length l -> <[p := y]> (shift_in l p q x) = shift_in l p q y.
Proof.
  intros H. apply list_eq. intros j.
  pose proof (length_shift_in l p q x H) as Hlen.
  destruct (decide (j = p)) as [-> | Hne].
  - rewrite list_lookup_insert_eq by lia.
    rewrite lookup_shift_in by lia. idx_cases.
  - rewrite list_lookup_insert_ne by lia.
    rewrite !lookup_shift_in by lia. idx_cases.
Qed.

(** One round of the shift loop of a deletion, seen from its end. *)
Lemma shift_left_step l i g y :
  i < g -> S g < length l -> l !! (S i) = Some y ->
  shift_left (<[i := y]> l) (S i) g = shift_left l i g.
Proof.
  intros H1 H2 Hy. apply list_eq. intros j.
  rewrite !lookup_shift_left by (rewrite ?length_insert; lia).
  idx_cases.
Qed.

Lemma shift_left_base l i y :
  S i < length l -> l !! (S i) = Some y -> <[i := y]> l = shift_left l i i.
Proof.
  intros H Hy. apply list_eq. intros j.
  rewrite lookup_shift_left by lia. idx_cases.
Qed.

Lemma insert_shift_left l p g x :
  p <= g -> S g < length l -> <[g := x]> (shift_left l p g) = shift_out l p g x.
Proof.
  intros H1 H2. apply list_eq. intros j.
  rewrite lookup_shift_out by lia.
  pose proof (length_shift_left l p g H1 H2) as Hlen.
  destruct (decide (j = g)) as [-> | Hne].
  - rewrite list_lookup_insert_eq by lia. idx_cases.
  - rewrite list_lookup_insert_ne by lia.
    rewrite lookup_shift_left by lia. idx_cases.
Qed.
End Shifts.

Lemma fmap_shift_in {A B} (f : A -> B) (l : list A) p q x :
  f <$> shift_in l p q x = shift_in (f <$> l) p q (f x).
Proof.
  unfold shift_in.
  rewrite fmap_app, fmap_cons, fmap_app, !fmap_take, !fmap_drop. reflexivity.
Qed.

Lemma fmap_shift_out {A B} (f : A -> B) (l : list A) p g x :
  f <$> shift_out l p g x = shift_out (f <$> l) p g (f x).
Proof.
  unfold shift_out.
  rewrite !fmap_app, fmap_cons, !fmap_take, !fmap_drop. reflexivity.
Qed.

(** * The loops *)

Lemma arr_get_nat es (i : nat) : arr_get es (Z.of_nat i) = es !! i.
Proof.
  unfold arr_get. destruct (Z.ltb_spec (Z.of_nat i) 0) as [H | H]; [lia |].
  rewrite Nat2Z.id. reflexivity.
Qed.

Lemma arr_get_neg es (i : Z) : (i < 0)%Z -> arr_get es i = None.
Proof.
  intros H. unfold arr_get. destruct (Z.ltb_spec i 0); [reflexivity | lia].
Qed.

Lemma arr_get_Some es (i : Z) e :
  arr_get es i = Some e -> exists n : nat, i = Z.of_nat n /\ es !! n = Some e.
Proof.
  unfold arr_get. destruct (Z.ltb_spec i 0) as [H | H]; [discriminate |].
  intros He. exists (Z.to_nat i). split; [lia | exact He].
Qed.

Lemma arr_set_nat es (i : nat) x : arr_set es (Z.of_nat i) x = <[i := x]> es.
Proof.
  unfold arr_set. destruct (Z.ltb_spec (Z.of_nat i) 0) as [H | H]; [lia |].
  rewrite Nat2Z.id. reflexivity.
Qed.

Lemma arr_get_0 es : arr_get es 0 = es !! 0.
Proof. exact eq_refl. Qed.

Lemma arr_get_1 es : arr_get es 1 = es !! 1.
Proof. exact eq_refl. Qed.

Lemma of_nat_succ (i : nat) : (Z.of_nat i + 1)%Z = Z.of_nat (S i).
Proof. lia. Qed.

Lemma get_loop_skip fuel k es i p :
  i <= p -> (forall j, i <= j < p -> below k es j) -> p - i < fuel ->
  get_loop fuel k es (Z.of_nat i) = get_loop (fuel - (p - i)) k es (Z.of_nat p).
Proof.
  revert i. induction fuel as [| fuel IH]; intros i Hip Hb Hf; [lia |].
  destruct (decide (i = p)) as [-> | Hne].
  { rewrite Nat.sub_diag, Nat.sub_0_r. reflexivity. }
  destruct (Hb i) as (e & He & Hlt); [lia |].
  apply str_ge_false in Hlt.
  cbn [get_loop]. rewrite arr_get_nat, He, Hlt, of_nat_succ.
  rewrite IH by (try lia; intros j Hj; apply Hb; lia).
  f_equal. lia.
Qed.

Lemma get_loop_stop fuel k es i p e :
  probe_stop k es i p e -> p - i < fuel ->
  get_loop fuel k es (Z.of_nat i) =
    if str_eq (key e) k then Return (Some (value e)) else Return None.
Proof.
  intros (Hip & Hb & He & Hge) Hf.
  rewrite (get_loop_skip fuel k es i p) by assumption.
  destruct (fuel - (p - i)) as [| f] eqn:E; [lia |].
  cbn [get_loop]. rewrite arr_get_nat, He, Hge. reflexivity.
Qed.

Lemma del_find_skip fuel k es i p :
  i <= p -> (forall j, i <= j < p -> below k es j) -> p - i < fuel ->
  del_find fuel k es (Z.of_nat i) = del_find (fuel - (p - i)) k es (Z.of_nat p).
Proof.
  revert i. induction fuel as [| fuel IH]; intros i Hip Hb Hf; [lia |].
  destruct (decide (i = p)) as [-> | Hne].
  { rewrite Nat.sub_diag, Nat.sub_0_r. reflexivity. }
  destruct (Hb i) as (e & He & Hlt); [lia |].
  apply str_ge_false in Hlt.
  cbn [del_find]. rewrite arr_get_nat, He, Hlt, of_nat_succ.
  rewrite IH by (try lia; intros j Hj; apply Hb; lia).
  f_equal. lia.
Qed.

Lemma del_find_stop fuel k es i p e :
  probe_stop k es i p e -> p - i < fuel ->
  del_find fuel k es (Z.of_nat i) =
    if str_eq (key e) k then Return (Some (Z.of_nat p)) else Return None.
Proof.
  intros (Hip & Hb & He & Hge) Hf.
  rewrite (del_find_skip fuel k es i p) by assumption.
  destruct (fuel - (p - i)) as [| f] eqn:E; [lia |].
  cbn [del_find]. rewrite arr_get_nat, He, Hge.
  destruct (str_eq (key e) k); reflexivity.
Qed.

(** If the first loop of [del] breaks, it does so at the probe stop. *)
Lemma del_find_inv fuel k es i i' :
  del_find fuel k es (Z.of_nat i) = Return (Some i') ->
  exists p e, i' = Z.of_nat p /\ probe_stop k es i p e /\ key e = k.
Proof.
  revert i. induction fuel as [| fuel IH]; intros i; [discriminate |].
  cbn [del_find]. rewrite arr_get_nat.
  destruct (es !! i) as [e |] eqn:He; [| discriminate].
  destruct (str_ge (key e) k) eqn:Hge.
  - destruct (str_eq (key e) k) eqn:Heq; simpl; [| discriminate].
    intros [= <-]. exists i, e. apply str_eq_true in Heq.
    repeat split; auto. intros j Hj. lia.
  - rewrite of_nat_succ. intros H. apply IH in H as (p & e' & -> & Hp & Hk).
    exists p, e'. split; [reflexivity |]. split; [| exact Hk].
    destruct Hp as (Hip & Hb & Hp).
    split; [lia |]. split; [| exact Hp].
    intros j Hj. destruct (decide (j = i)) as [-> | Hne].
    + exists e. split; [exact He | apply str_ge_false, Hge].
    + apply Hb. lia.
Qed.

Lemma gop_loop_skip fuel k it ins m i p :
  i <= p -> (forall j, i <= j < p -> below k (entries m) j) -> p - i < fuel ->
  getOrPut_loop fuel k it ins (Z.of_nat i) m =
  getOrPut_loop (fuel - (p - i)) k it ins (Z.of_nat p) m.
Proof.
  revert i. induction fuel as [| fuel IH]; intros i Hip Hb Hf; [lia |].
  destruct (decide (i = p)) as [-> | Hne].
  { rewrite Nat.sub_diag, Nat.sub_0_r. reflexivity. }
  destruct (Hb i) as (e & He & Hlt); [lia |].
  apply str_ge_false in Hlt.
  cbn [getOrPut_loop]. rewrite arr_get_nat, He, Hlt, of_nat_succ.
  rewrite IH by (try lia; intros j Hj; apply Hb; lia).
  f_equal. lia.
Qed.

Lemma gop_loop_chain fuel k it ins m i q :
  legal k -> i <= q -> q - i < fuel ->
  above_run k (entries m) i ->
  (forall j, i <= j < q -> full (entries m) j) ->
  hole (entries m) q ->
  getOrPut_loop fuel k it ins (Z.of_nat i) m =
    (mkMap (shift_in (entries m) i q it) (len m + 1),
     Return (mkSlot false (default_index ins (Z.of_nat i)))).
Proof.
  intros Hk. revert it ins m i.
  induction fuel as [| fuel IH]; intros it ins m i Hiq Hf Hab Hfull Hq; [lia |].
  assert (q < length (entries m)) as Hlen.
  { destruct Hq as (e & He & _). eapply lookup_lt_Some, He. }
  cbn [getOrPut_loop]. rewrite arr_get_nat.
  destruct (decide (i = q)) as [-> | Hne].
  - destruct Hq as (e & He & Hempty). rewrite He, Hempty.
    assert (str_ge EMPTY_KEY k = true) as ->.
    { apply str_ge_true. right. apply legal_lt_EMPTY, Hk. }
    assert (str_eq EMPTY_KEY k = false) as ->.
    { apply str_eq_false. intros E. symmetry in E. revert E. apply legal_not_EMPTY, Hk. }
    assert (str_eq EMPTY_KEY EMPTY_KEY = true) as -> by (apply str_eq_true; reflexivity).
    cbn [entries len]. rewrite arr_set_nat, shift_in_base by exact Hlen.
    destruct ins; reflexivity.
  - destruct (Hfull i) as (e & He & Hocc); [lia |]. rewrite He.
    assert (str_lt k (key e)) as Hlt.
    { apply (Hab i e); auto. intros j' Hj'. lia. }
    assert (str_ge (key e) k = true) as -> by (apply str_ge_true; auto).
    assert (str_eq (key e) k = false) as ->.
    { apply str_eq_false. intros E. rewrite E in Hlt. exact (str_lt_irrefl _ Hlt). }
    assert (str_eq (key e) EMPTY_KEY = false) as -> by (apply str_eq_false, Hocc).
    cbn [entries len]. rewrite arr_set_nat, of_nat_succ.
    rewrite (IH e _ _ (S i)); cbn [entries len]; try lia.
    + rewrite shift_in_step by (auto; lia).
      destruct ins; reflexivity.
    + intros j e' Hj He' Hocc' Hrun.
      rewrite list_lookup_insert_ne in He' by lia.
      apply (Hab j e'); auto; [lia |].
      intros j' Hj'. destruct (decide (j' = i)) as [-> | Hne'].
      * exists e. auto.
      * destruct (Hrun j') as (e'' & He'' & Hocc''); [lia |].
        rewrite list_lookup_insert_ne in He'' by lia. exists e''. auto.
    + intros j Hj. destruct (Hfull j) as (e' & He' & Hocc'); [lia |].
      exists e'. rewrite list_lookup_insert_ne by lia. auto.
    + destruct Hq as (e' & He' & Hempty). exists e'.
      rewrite list_lookup_insert_ne by lia. auto.
Qed.

(** If the chain returns, it ran through occupied slots to the first hole. *)
Lemma gop_loop_chain_inv fuel k it ins m i m' r :
  legal k -> above_run k (entries m) i ->
  getOrPut_loop fuel k it ins (Z.of_nat i) m = (m', Return r) ->
  exists q, i <= q /\ (forall j, i <= j < q -> full (entries m) j) /\
            hole (entries m) q /\
            m' = mkMap (shift_in (entries m) i q it) (len m + 1) /\
            r = mkSlot false (default_index ins (Z.of_nat i)).
Proof.
  intros Hk. revert it ins m i.
  induction fuel as [| fuel IH]; intros it ins m i Hab; [discriminate |].
  cbn [getOrPut_loop]. rewrite arr_get_nat.
  destruct (entries m !! i) as [e |] eqn:He; [| discriminate].
  assert (i < length (entries m)) as Hlen by (eapply lookup_lt_Some, He).
  destruct (decide (key e = EMPTY_KEY)) as [Hempty | Hocc].
  - rewrite Hempty.
    assert (str_ge EMPTY_KEY k = true) as ->.
    { apply str_ge_true. right. apply legal_lt_EMPTY, Hk. }
    assert (str_eq EMPTY_KEY k = false) as ->.
    { apply str_eq_false. intros E. symmetry in E. revert E. apply legal_not_EMPTY, Hk. }
    assert (str_eq EMPTY_KEY EMPTY_KEY = true) as -> by (apply str_eq_true; reflexivity).
    cbn [entries len]. rewrite arr_set_nat, shift_in_base by exact Hlen.
    intros [= <- <-]. exists i. split; [lia |]. split; [intros j Hj; lia |].
    split; [exists e; auto |]. split; [reflexivity |]. destruct ins; reflexivity.
  - assert (str_lt k (key e)) as Hlt.
    { apply (Hab i e); auto. intros j' Hj'. lia. }
    assert (str_ge (key e) k = true) as -> by (apply str_ge_true; auto).
    assert (str_eq (key e) k = false) as ->.
    { apply str_eq_false. intros E. rewrite E in Hlt. exact (str_lt_irrefl _ Hlt). }
    assert (str_eq (key e) EMPTY_KEY = false) as -> by (apply str_eq_false, Hocc).
    cbn [entries len]. rewrite arr_set_nat, of_nat_succ.
    intros H. apply IH in H; cbn [entries len] in *.
    + destruct H as (q & Hq & Hfull & Hhole & -> & ->).
      exists q. split; [lia |].
      assert (q < length (entries m)) as Hqlen.
      { destruct Hhole as (e' & He' & _). apply lookup_lt_Some in He'.
        rewrite length_insert in He'. exact He'. }
      split; [| split; [| split]].
      * intros j Hj. destruct (decide (j = i)) as [-> | Hne]; [exists e; auto |].
        destruct (Hfull j) as (e' & He' & Hocc'); [lia |].
        rewrite list_lookup_insert_ne in He' by lia. exists e'. auto.
      * destruct Hhole as (e' & He' & Hempty).
        rewrite list_lookup_insert_ne in He' by lia. exists e'. auto.
      * rewrite shift_in_step by (auto; lia). reflexivity.
      * destruct ins; reflexivity.
    + intros j e' Hj He' Hocc' Hrun.
      rewrite list_lookup_insert_ne in He' by lia.
      apply (Hab j e'); auto; [lia |].
      intros j' Hj'. destruct (decide (j' = i)) as [-> | Hne'].
      * exists e. auto.
      * destruct (Hrun j') as (e'' & He'' & Hocc''); [lia |].
        rewrite list_lookup_insert_ne in He'' by lia. exists e''. auto.
Qed.

Lemma above_closed_run k es p e :
  above_closed k es -> es !! p = Some e ->
  (key e <> EMPTY_KEY -> str_lt k (key e)) -> above_run k es p.
Proof.
  intros Hc He Hlt j e' Hj He' Hocc' Hrun.
  destruct (decide (j = p)) as [-> | Hne].
  - rewrite He in He'. injection He' as <-. auto.
  - destruct (Hrun p) as (e0 & He0 & Hocc0); [lia |].
    rewrite He in He0. injection He0 as <-.
    apply (Hc p j e e'); auto. lia.
Qed.

Lemma gop_loop_inv fuel k it m i m' r :
  legal k -> above_closed k (entries m) ->
  getOrPut_loop fuel k it None (Z.of_nat i) m = (m', Return r) ->
  exists p e, probe_stop k (entries m) i p e /\
              (gop_found k m p e m' r \/ gop_inserted k it m p e m' r).
Proof.
  intros Hk Hc. revert i.
  induction fuel as [| fuel IH]; intros i H; [discriminate |].
  pose proof H as Hwhole.
  cbn [getOrPut_loop] in H. rewrite arr_get_nat in H.
  destruct (entries m !! i) as [e |] eqn:He; [| discriminate].
  destruct (str_ge (key e) k) eqn:Hge.
  - exists i, e. split.
    { split; [lia |]. split; [intros j Hj; lia | auto]. }
    destruct (str_eq (key e) k) eqn:Heq.
    + left. apply str_eq_true in Heq. injection H as <- <-. repeat split; auto.
    + right. apply str_eq_false in Heq. split; [exact Heq |].
      apply gop_loop_chain_inv in Hwhole; [exact Hwhole | exact Hk |].
      apply (above_closed_run k _ i e); auto.
      intros _. apply str_ge_true in Hge as [E | Hlt]; [contradiction | exact Hlt].
  - rewrite of_nat_succ in H. apply IH in H as (p & e' & Hp & Hres).
    exists p, e'. split; [| exact Hres].
    destruct Hp as (Hip & Hb & Hp).
    split; [lia |]. split; [| exact Hp].
    intros j Hj. destruct (decide (j = i)) as [-> | Hne].
    + exists e. split; [exact He | apply str_ge_false, Hge].
    + apply Hb. lia.
Qed.

(** The forward direction, for a probe stop and a hole that are known. *)
Lemma gop_loop_found fuel k it m i p e :
  probe_stop k (entries m) i p e -> key e = k -> p - i < fuel ->
  getOrPut_loop fuel k it None (Z.of_nat i) m = (m, Return (mkSlot true (Z.of_nat p))).
Proof.
  intros (Hip & Hb & He & Hge) Hk Hf.
  rewrite (gop_loop_skip fuel k it None m i p) by assumption.
  destruct (fuel - (p - i)) as [| f] eqn:E; [lia |].
  cbn [getOrPut_loop]. rewrite arr_get_nat, He, Hge.
  apply str_eq_true in Hk. rewrite Hk. reflexivity.
Qed.

Lemma gop_loop_inserted fuel k it m i p e q :
  legal k -> above_closed k (entries m) ->
  probe_stop k (entries m) i p e -> key e <> k ->
  p <= q -> (forall j, p <= j < q -> full (entries m) j) -> hole (entries m) q ->
  q - i < fuel ->
  getOrPut_loop fuel k it None (Z.of_nat i) m =
    (mkMap (shift_in (entries m) p q it) (len m + 1),
     Return (mkSlot false (Z.of_nat p))).
Proof.
  intros Hk Hc (Hip & Hb & He & Hge) Hne Hpq Hfull Hhole Hf.
  rewrite (gop_loop_skip fuel k it None m i p) by (auto; lia).
  rewrite (gop_loop_chain _ k it None m p q); auto; [lia |].
  apply (above_closed_run k _ p e); auto.
  intros _. apply str_ge_true in Hge as [E | Hlt]; [contradiction | exact Hlt].
Qed.

(** ** The shift loop of [del] *)

Lemma break_test_true e i :
  (Z.of_nat i <? hashToIndex (hash (key e)))%Z || str_eq (key e) EMPTY_KEY = true
  <-> stays e i.
Proof.
  unfold stays, bucket. rewrite orb_true_iff, Z.ltb_lt, str_eq_true. reflexivity.
Qed.

Lemma break_test_false e i :
  (Z.of_nat i <? hashToIndex (hash (key e)))%Z || str_eq (key e) EMPTY_KEY = false
  <-> moves e i.
Proof.
  unfold moves, bucket. rewrite orb_false_iff, Z.ltb_ge, str_eq_false. reflexivity.
Qed.

Lemma del_shift_run fuel es i g :
  shift_stop es i g -> g - i < fuel ->
  del_shift fuel es (Z.of_nat i) = (shift_left es i g, Return (Z.of_nat g)).
Proof.
  revert es i. induction fuel as [| fuel IH]; intros es i (Hig & Hmv & Hst) Hf; [lia |].
  assert (S g < length es) as Hlen.
  { destruct Hst as (e & He & _). eapply lookup_lt_Some, He. }
  cbn [del_shift]. rewrite of_nat_succ, arr_get_nat.
  destruct (decide (i = g)) as [-> | Hne].
  - destruct Hst as (e & He & Hst). rewrite He.
    apply break_test_true in Hst. rewrite Hst.
    rewrite arr_set_nat. erewrite shift_left_base; eauto.
  - destruct (Hmv i) as (e & He & Hm); [lia |]. rewrite He.
    apply break_test_false in Hm. rewrite Hm.
    rewrite arr_set_nat. rewrite (IH _ (S i)); [| | lia].
    + rewrite shift_left_step by (auto; lia). reflexivity.
    + split; [lia |]. split.
      * intros j Hj. destruct (Hmv j) as (e' & He' & Hm'); [lia |].
        exists e'. rewrite list_lookup_insert_ne by lia. auto.
      * destruct Hst as (e' & He' & Hst). exists e'.
        rewrite list_lookup_insert_ne by lia. auto.
Qed.

Lemma del_shift_inv fuel es i es' g' :
  del_shift fuel es (Z.of_nat i) = (es', Return g') ->
  exists g, g' = Z.of_nat g /\ shift_stop es i g /\ es' = shift_left es i g.
Proof.
  revert es i. induction fuel as [| fuel IH]; intros es i; [discriminate |].
  cbn [del_shift]. rewrite of_nat_succ, arr_get_nat.
  destruct (es !! S i) as [e |] eqn:He; [| discriminate].
  assert (S i < length es) as Hlen by (eapply lookup_lt_Some, He).
  destruct ((Z.of_nat i <? hashToIndex (hash (key e)))%Z || str_eq (key e) EMPTY_KEY)
    eqn:Ht.
  - apply break_test_true in Ht. rewrite arr_set_nat. intros [= <- <-].
    exists i. split; [reflexivity |]. split.
    + split; [lia |]. split; [intros j Hj; lia | exists e; auto].
    + eapply shift_left_base; eauto.
  - apply break_test_false in Ht. rewrite arr_set_nat. intros H.
    apply IH in H as (g & -> & (Hig & Hmv & Hst) & ->).
    exists g. split; [reflexivity |].
    assert (S g < length es) as Hglen.
    { destruct Hst as (e' & He' & _). apply lookup_lt_Some in He'.
      rewrite length_insert in He'. exact He'. }
    split.
    + split; [lia |]. split.
      * intros j Hj. destruct (decide (j = i)) as [-> | Hne]; [exists e; auto |].
        destruct (Hmv j) as (e' & He' & Hm'); [lia |].
        rewrite list_lookup_insert_ne in He' by lia. exists e'. auto.
      * destruct Hst as (e' & He' & Hst).
        rewrite list_lookup_insert_ne in He' by lia. exists e'. auto.
    + apply shift_left_step; auto; lia.
Qed.

(** When every later entry moves, the shift loop copies each of them down
    and then reads past the end of the array. *)
Lemma del_shift_runs_off fuel es i :
  length es - i <= fuel -> 0 < fuel ->
  (forall j e, i <= j -> es !! S j = Some e -> moves e j) ->
  exists es',
    del_shift fuel es (Z.of_nat i) = (es', Throw TypeError) /\
    forall j, es' !! j =
      if decide (j < i) then es !! j
      else if decide (S j < length es) then es !! S j
      else es !! j.
Proof.
  revert es i. induction fuel as [| fuel IH]; intros es i Hf Hpos Hmv; [lia |].
  cbn [del_shift]. rewrite of_nat_succ, arr_get_nat.
  destruct (es !! S i) as [e |] eqn:He.
  - pose proof (lookup_lt_Some _ _ _ He) as Hlt.
    pose proof (Hmv i e ltac:(lia) He) as Hm.
    apply break_test_false in Hm. rewrite Hm, arr_set_nat.
    destruct (IH (<[i := e]> es) (S i)) as (es' & Hrun & Hes').
    + rewrite length_insert. lia.
    + lia.
    + intros j e' Hj He'. rewrite list_lookup_insert_ne in He' by lia.
      apply Hmv; [lia | exact He'].
    + exists es'. split; [exact Hrun |]. intros j. rewrite Hes', length_insert.
      idx_cases.
  - apply lookup_ge_None in He. exists es. split; [exact eq_refl |].
    intros j. idx_cases.
Qed.

(** * The invariant, on the keys of the array *)

Lemma table_length : (CAPACITY + OVERFLOW = 20132706)%Z.
Proof. reflexivity. Qed.

Lemma CAPACITY_val : CAPACITY = 16777216%Z.
Proof. reflexivity. Qed.

Lemma TABLE_val : Z.of_nat TABLE = 20132706%Z.
Proof. unfold TABLE. rewrite table_length. lia. Qed.

Opaque TABLE.

Lemma str_lt_not_Gt a b : str_lt a b -> str_compare a b <> Gt.
Proof. unfold str_lt. congruence. Qed.

Lemma str_eq_not_Gt a : str_compare a a <> Gt.
Proof. rewrite str_compare_refl. discriminate. Qed.

Section Insert.
Variables (ks : list jsstring) (k : jsstring) (p q : nat).
Hypothesis Hinv : KInv ks.
Hypothesis Hgood : good k.
Hypothesis Hhome : (bucket k <= Z.of_nat p)%Z.
Hypothesis Hbelow : forall j, (bucket k <= Z.of_nat j)%Z -> j < p ->
                    exists kj, ks !! j = Some kj /\ str_lt kj k.
Hypothesis Hstop : exists kp, ks !! p = Some kp /\ (kp <> EMPTY_KEY -> str_lt k kp).
Hypothesis Hpq : p <= q.
Hypothesis Hfull : forall j, p <= j < q ->
                   exists kj, ks !! j = Some kj /\ kj <> EMPTY_KEY.
Hypothesis Hhole : ks !! q = Some EMPTY_KEY.

Lemma insert_before i ki :
  i < p -> ks !! i = Some ki -> ki <> EMPTY_KEY -> str_lt ki k.
Proof.
  intros Hi Hki Hocc.
  destruct (Z.le_gt_cases (bucket k) (Z.of_nat i)) as [Hb | Hb].
  - destruct (Hbelow i Hb Hi) as (kj & Hkj & Hlt). congruence.
  - pose proof (kinv_good _ Hinv i ki Hki Hocc) as Hg.
    pose proof (kinv_home _ Hinv i ki Hki Hocc) as Hh.
    destruct (str_total ki k) as [Hlt | [-> | Hgt]]; [exact Hlt | lia |].
    pose proof (bucket_mono_lt k ki Hgood Hg Hgt). lia.
Qed.

Lemma insert_after j kj :
  p <= j -> ks !! j = Some kj -> kj <> EMPTY_KEY -> str_lt k kj.
Proof.
  intros Hj Hkj Hocc. destruct Hstop as (kp & Hkp & Hlt).
  destruct (decide (kp = EMPTY_KEY)) as [-> | Hpocc].
  - pose proof (kinv_good _ Hinv j kj Hkj Hocc) as Hg.
    destruct (str_total k kj) as [H | H]; [exact H |].
    assert (bucket kj <= bucket k)%Z as Hb.
    { destruct H as [<- | H]; [lia | apply bucket_mono_lt; assumption]. }
    destruct (kinv_dense _ Hinv j kj p Hkj Hocc) as (kp' & Hkp' & Hocc');
      [lia | lia |].
    congruence.
  - destruct (decide (j = p)) as [-> | Hne]; [replace kj with kp by congruence; auto |].
    eapply str_lt_trans; [apply Hlt, Hpocc |].
    apply (kinv_sorted _ Hinv p j kp kj); auto. lia.
Qed.

Lemma KInv_insert : KInv (shift_in ks p q k).
Proof.
  assert (q < length ks) as Hq by (eapply lookup_lt_Some, Hhole).
  assert (k <> EMPTY_KEY) as HkE by (apply legal_not_EMPTY, Hgood).
  split.
  - rewrite length_shift_in by lia. apply (kinv_length _ Hinv).
  - intros i x Hx Hocc. rewrite lookup_shift_in in Hx by lia.
    repeat case_decide;
      try (assert (x = k) as -> by congruence; exact Hgood);
      eapply (kinv_good _ Hinv); eauto.
  - intros i j ki kj Hij Hi Hj Hoi Hoj.
    rewrite lookup_shift_in in Hi, Hj by lia.
    repeat case_decide; try lia;
      try (assert (ki = k) as -> by congruence);
      try (assert (kj = k) as -> by congruence);
      first [ eapply insert_before; [| eassumption | assumption]; lia
            | eapply insert_after; [| eassumption | assumption]; lia
            | eapply (kinv_sorted _ Hinv); [| exact Hi | exact Hj | |];
                (assumption || lia) ].
  - intros i x Hx Hocc. rewrite lookup_shift_in in Hx by lia.
    repeat case_decide;
      try (assert (x = k) as -> by congruence; lia);
      pose proof (kinv_home _ Hinv _ _ Hx Hocc); lia.
  - intros i x j Hx Hocc Hb Hji.
    rewrite lookup_shift_in by lia.
    destruct (decide (j < p)) as [Hjp | Hjp].
    + rewrite lookup_shift_in in Hx by lia.
      repeat case_decide; try lia.
      * eapply (kinv_dense _ Hinv); eauto.
      * assert (x = k) as -> by congruence.
        destruct (Hbelow j Hb Hjp) as (kj & Hkj & Hlt).
        exists kj. split; [exact Hkj |]. intros ->.
        eapply str_lt_asym; [exact Hlt |]. apply legal_lt_EMPTY, Hgood.
      * eapply (kinv_dense _ Hinv); eauto. lia.
      * eapply (kinv_dense _ Hinv); eauto.
    + destruct (decide (j = p)) as [-> | Hne]; [eauto |].
      destruct (decide (j <= q)) as [Hjq | Hjq]; [apply Hfull; lia |].
      rewrite lookup_shift_in in Hx by lia.
      repeat case_decide; try lia.
      eapply (kinv_dense _ Hinv); eauto.
Qed.
End Insert.

Section Delete.
Variables (ks : list jsstring) (p g : nat).
Hypothesis Hinv : KInv ks.
Hypothesis Hpg : p <= g.
Hypothesis Hmoves : forall j, p <= j < g ->
  exists kj, ks !! S j = Some kj /\ (bucket kj <= Z.of_nat j)%Z /\ kj <> EMPTY_KEY.
Hypothesis Hstays : exists kg, ks !! S g = Some kg /\
  ((Z.of_nat g < bucket kg)%Z \/ kg = EMPTY_KEY).

Lemma KInv_delete : KInv (shift_out ks p g EMPTY_KEY).
Proof.
  assert (S g < length ks) as Hg.
  { destruct Hstays as (kg & Hkg & _). eapply lookup_lt_Some, Hkg. }
  split.
  - rewrite length_shift_out by lia. apply (kinv_length _ Hinv).
  - intros i x Hx Hocc. rewrite lookup_shift_out in Hx by lia.
    repeat case_decide; try congruence; eapply (kinv_good _ Hinv); eauto.
  - intros i j ki kj Hij Hi Hj Hoi Hoj.
    rewrite lookup_shift_out in Hi, Hj by lia.
    repeat case_decide; try lia; try congruence;
      (eapply (kinv_sorted _ Hinv); [| exact Hi | exact Hj | |]; (assumption || lia)).
  - intros i x Hx Hocc. rewrite lookup_shift_out in Hx by lia.
    repeat case_decide; try congruence.
    + pose proof (kinv_home _ Hinv _ _ Hx Hocc); lia.
    + destruct (Hmoves i) as (kj & Hkj & Hb & _); [lia |].
      replace x with kj by congruence. exact Hb.
    + pose proof (kinv_home _ Hinv _ _ Hx Hocc); lia.
  - intros i x j Hx Hocc Hb Hji.
    rewrite lookup_shift_out by lia.
    rewrite lookup_shift_out in Hx by lia.
    destruct (decide (j < p)) as [Hjp | Hjp].
    + repeat case_decide; try lia; try congruence;
        eapply (kinv_dense _ Hinv); eauto; lia.
    + destruct (decide (j < g)) as [Hjg | Hjg].
      { destruct (Hmoves j) as (kj & Hkj & _ & Hoj); [lia |]. eauto. }
      destruct (decide (j = g)) as [-> | Hne].
      * exfalso.
        assert (g < i /\ ks !! i = Some x) as [Hgi Hx'].
        { repeat case_decide; try lia; try congruence. split; [lia | exact Hx]. }
        clear Hx. destruct Hstays as (kg & Hkg & Hst).
        destruct (kinv_dense _ Hinv i x (S g) Hx' Hocc) as (kg' & Hkg' & Hog);
          [lia | lia |].
        replace kg' with kg in * by congruence.
        destruct Hst as [Hst | ->]; [| congruence].
        destruct (decide (S g = i)) as [<- | Hne].
        { replace x with kg in * by congruence. lia. }
        assert (str_lt kg x) as Hlt.
        { apply (kinv_sorted _ Hinv (S g) i); auto. lia. }
        pose proof (kinv_good _ Hinv _ _ Hkg Hog) as Hg1.
        pose proof (kinv_good _ Hinv _ _ Hx' Hocc) as Hg2.
        pose proof (bucket_mono_lt kg x Hg1 Hg2 Hlt).
        lia.
      * repeat case_decide; try lia; try congruence.
        eapply (kinv_dense _ Hinv); eauto.
Qed.
End Delete.

(** * The invariant, on states *)

Lemma lookup_key (es : list Entry) j kj :
  (key <$> es) !! j = Some kj <-> exists e, es !! j = Some e /\ key e = kj.
Proof.
  rewrite list_lookup_fmap. destruct (es !! j) as [e |]; simpl; split.
  - intros [= <-]. eauto.
  - intros (e' & [= <-] & <-). reflexivity.
  - discriminate.
  - intros (e' & H & _). discriminate.
Qed.

Lemma lookup_key_of (es : list Entry) j e :
  es !! j = Some e -> (key <$> es) !! j = Some (key e).
Proof. intros H. apply lookup_key. eauto. Qed.

Lemma Inv_above_closed k m : Inv m -> above_closed k (entries m).
Proof.
  intros [Hk _] j j' e e' Hjj He He' Ho Ho' Hlt.
  eapply str_lt_trans; [exact Hlt |].
  apply (kinv_sorted _ Hk j j'); auto using lookup_key_of.
Qed.

Lemma Inv_init : Inv init.
Proof.
  split; [| unfold init; simpl; rewrite CAPACITY_val; lia].
  unfold init. cbn [entries].
  assert (forall i k, (key <$> replicate TABLE empty_entry)
                        !! i = Some k -> k = EMPTY_KEY) as Hall.
  { intros i k H. apply lookup_key in H as (e & He & <-).
    apply lookup_replicate in He as [-> _]. reflexivity. }
  split.
  - rewrite length_fmap, length_replicate. rewrite table_length. apply TABLE_val.
  - intros i k H Hocc. apply Hall in H. contradiction.
  - intros i j ki kj _ H _ Hocc. apply Hall in H. contradiction.
  - intros i k H Hocc. apply Hall in H. contradiction.
  - intros i k j H Hocc. apply Hall in H. contradiction.
Qed.

(** A loop started at a negative index stops at once with a TypeError. *)
Lemma gop_loop_neg fuel k it ins i m :
  (i < 0)%Z -> snd (getOrPut_loop (S fuel) k it ins i m) = Throw TypeError.
Proof. intros H. cbn [getOrPut_loop]. rewrite arr_get_neg by exact H. reflexivity. Qed.

Lemma getOrPut_inv k m m' r :
  Inv m -> legal k -> getOrPut k m = (m', Return r) ->
  (len m < CAPACITY)%Z /\ good k /\
  exists b p e, bucket k = Z.of_nat b /\ probe_stop k (entries m) b p e /\
    (gop_found k m p e m' r \/ gop_inserted k (mkEntry k None) m p e m' r).
Proof.
  intros HI Hk. unfold getOrPut.
  destruct (Z.geb_spec (len m) CAPACITY) as [Hfull | Hroom]; [discriminate |].
  rewrite !bucket_unfold. intros H.
  assert (0 <= bucket k)%Z as Hb.
  { destruct (Z.le_gt_cases 0 (bucket k)) as [Hb | Hb]; [exact Hb |].
    pose proof (gop_loop_neg (length (entries m)) k (mkEntry k None) None
                  (bucket k) m ltac:(lia)) as Hn.
    unfold rounds in H. rewrite H in Hn. discriminate. }
  split; [lia |]. split; [apply legal_bucket_nonneg_good; assumption |].
  exists (Z.to_nat (bucket k)).
  replace (bucket k) with (Z.of_nat (Z.to_nat (bucket k))) in H by lia.
  apply gop_loop_inv in H; [| exact Hk | apply Inv_above_closed, HI].
  destruct H as (p & e & Hp & Hres). exists p, e.
  split; [lia |]. auto.
Qed.

Lemma probe_stop_above k es i p e :
  probe_stop k es i p e -> key e <> k -> str_lt k (key e).
Proof.
  intros (_ & _ & _ & Hge) Hne.
  apply str_ge_true in Hge as [E | Hlt]; [contradiction | exact Hlt].
Qed.

Lemma KInv_inserted k it m b p e m' r :
  Inv m -> good k -> key it = k -> bucket k = Z.of_nat b ->
  probe_stop k (entries m) b p e ->
  gop_inserted k it m p e m' r ->
  KInv (key <$> entries m').
Proof.
  intros [HK Hlen] Hg Hit Hb Hp (Hne & q & Hpq & Hfull & Hhole & -> & _).
  cbn [entries]. rewrite fmap_shift_in, Hit.
  pose proof (probe_stop_above _ _ _ _ _ Hp Hne) as Habove.
  destruct Hp as (Hbp & Hbelow & He & Hge).
  apply KInv_insert; auto.
  - lia.
  - intros j Hj Hjp. destruct (Hbelow j) as (e' & He' & Hlt); [lia |].
    exists (key e'). auto using lookup_key_of.
  - exists (key e). auto using lookup_key_of.
  - intros j Hj. destruct (Hfull j Hj) as (e' & He' & Ho).
    exists (key e'). auto using lookup_key_of.
  - destruct Hhole as (e' & He' & <-). auto using lookup_key_of.
Qed.

Lemma Inv_getOrPut k m m' r :
  Inv m -> legal k -> getOrPut k m = (m', Return r) -> Inv m'.
Proof.
  intros HI Hk H.
  destruct (getOrPut_inv _ _ _ _ HI Hk H)
    as (Hroom & Hg & b & p & e & Hb & Hp & [(_ & -> & _) | Hins]); [exact HI |].
  split; [eapply (KInv_inserted k (mkEntry k None)); eauto |].
  destruct Hins as (_ & q & _ & _ & _ & -> & _). cbn [len]. lia.
Qed.

Lemma put_inv k v m m' :
  Inv m -> legal k -> put k v m = (m', Return tt) ->
  (len m < CAPACITY)%Z /\ good k /\
  exists b p e, bucket k = Z.of_nat b /\ probe_stop k (entries m) b p e /\
    (put_found k v m p e m' \/
     gop_inserted k (mkEntry k (Some v)) m p e m' (mkSlot false (Z.of_nat p))).
Proof.
  intros HI Hk. unfold put.
  destruct (getOrPut k m) as [m1 [r | err |]] eqn:Hgop; try discriminate.
  destruct (getOrPut_inv _ _ _ _ HI Hk Hgop)
    as (Hroom & Hg & b & p & e & Hb & Hp & Hres).
  intros H. split; [exact Hroom |]. split; [exact Hg |].
  exists b, p, e. split; [exact Hb |]. split; [exact Hp |].
  destruct Hres as [(Hke & -> & ->) | (Hne & q & Hpq & Hfull & Hhole & -> & ->)];
    cbn [index entries len] in H; rewrite arr_get_nat, arr_set_nat in H.
  - left. destruct (entries m !! p); [| discriminate].
    injection H as <-. split; auto.
  - right. assert (q < length (entries m)) as Hq.
    { destruct Hhole as (e' & He' & _). eapply lookup_lt_Some, He'. }
    destruct (shift_in (entries m) p q (mkEntry k None) !! p); [| discriminate].
    injection H as <-. rewrite insert_shift_in by lia.
    split; [exact Hne |]. exists q. auto.
Qed.

Lemma Inv_put k v m m' :
  Inv m -> legal k -> put k v m = (m', Return tt) -> Inv m'.
Proof.
  intros HI Hk H.
  destruct (put_inv _ _ _ _ HI Hk H)
    as (Hroom & Hg & b & p & e & Hb & Hp & [(Hke & ->) | Hins]).
  - destruct HI as [HK Hlen]. split; [| exact Hlen]. cbn [entries].
    rewrite list_fmap_insert. cbn [key].
    rewrite list_insert_id; [exact HK |].
    destruct Hp as (_ & _ & He & _). rewrite <- Hke. apply lookup_key_of, He.
  - split; [eapply (KInv_inserted k (mkEntry k (Some v))); eauto |].
    destruct Hins as (_ & q & _ & _ & _ & -> & _). cbn [len]. lia.
Qed.

Lemma del_find_neg fuel k es i :
  (i < 0)%Z -> del_find (S fuel) k es i = Throw TypeError.
Proof. intros H. cbn [del_find]. rewrite arr_get_neg by exact H. reflexivity. Qed.

Lemma del_inv k m m' r :
  del k m = (m', Return r) ->
  match r with
  | None => m' = m
  | Some v => exists b p g e, del_removed k m b p g e m' /\ v = value e
  end.
Proof.
  unfold del. rewrite !bucket_unfold.
  destruct (del_find (rounds (entries m)) k (entries m) (bucket k))
    as [[i |] | err |] eqn:Hfind; try discriminate.
  2:{ intros [= <- <-]. reflexivity. }
  assert (0 <= bucket k)%Z as Hb.
  { destruct (Z.le_gt_cases 0 (bucket k)) as [Hb | Hb]; [exact Hb |].
    unfold rounds in Hfind. rewrite del_find_neg in Hfind by lia. discriminate. }
  replace (bucket k) with (Z.of_nat (Z.to_nat (bucket k))) in Hfind by lia.
  apply del_find_inv in Hfind as (p & e & -> & Hp & Hke).
  rewrite arr_get_nat.
  destruct Hp as (Hbp & Hbelow & He & Hge). rewrite He.
  destruct (del_shift (rounds (entries m)) (entries m) (Z.of_nat p))
    as [es [g' | err |]] eqn:Hshift; try discriminate.
  apply del_shift_inv in Hshift as (g & -> & Hstop & ->).
  intros [= <- <-].
  exists (Z.to_nat (bucket k)), p, g, e. split; [| reflexivity].
  split; [lia |]. split; [repeat split; auto |]. split; [exact Hke |].
  split; [exact Hstop |].
  rewrite arr_set_nat. f_equal.
  destruct Hstop as (Hpg & _ & e' & He' & _).
  apply insert_shift_left; [lia | eapply lookup_lt_Some, He'].
Qed.

Lemma Inv_del k m m' r :
  Inv m -> del k m = (m', Return r) -> Inv m'.
Proof.
  intros [HK Hlen] H. apply del_inv in H.
  destruct r as [v |]; [| subst; split; assumption].
  destruct H as (b & p & g & e & (Hb & Hp & Hke & Hstop & ->) & _).
  split; [| cbn [len]; lia]. cbn [entries].
  rewrite fmap_shift_out. cbn [key empty_entry].
  destruct Hstop as (Hpg & Hmv & e' & He' & Hst).
  apply KInv_delete; auto.
  - intros j Hj. destruct (Hmv j Hj) as (e'' & He'' & Hb'' & Ho'').
    exists (key e''). auto using lookup_key_of.
  - exists (key e'). split; [apply lookup_key_of, He' | exact Hst].
Qed.

Theorem reachable_Inv m : reachable m -> Inv m.
Proof.
  induction 1 as [| k m m' r _ IH Hk H | k v m m' _ IH Hk H | k m m' r _ IH Hk H].
  - apply Inv_init.
  - eapply Inv_getOrPut; eauto.
  - eapply Inv_put; eauto.
  - eapply Inv_del; eauto.
Qed.

(** * Where the loops stop *)

(** The first slot from [i] on whose entry passes a test, given a later
    slot that passes it. *)
Lemma first_entry (f : nat -> Entry -> bool) (es : list Entry) i x :
  i <= x -> (exists e, es !! x = Some e /\ f x e = true) ->
  exists p e, i <= p <= x /\ es !! p = Some e /\ f p e = true /\
    forall j, i <= j < p -> exists e', es !! j = Some e' /\ f j e' = false.
Proof.
  intros Hix Hx. remember (x - i) as d eqn:Hd. revert i Hix Hd.
  induction d as [| d IH]; intros i Hix Hd.
  - assert (i = x) as -> by lia. destruct Hx as (e & He & Hf).
    exists x, e. split; [lia |]. split; [exact He |]. split; [exact Hf |].
    intros j Hj. lia.
  - assert (is_Some (es !! i)) as [ei Hei].
    { apply lookup_lt_is_Some. destruct Hx as (e & He & _).
      apply lookup_lt_Some in He. lia. }
    destruct (f i ei) eqn:Hf.
    + exists i, ei. split; [lia |]. split; [exact Hei |]. split; [exact Hf |].
      intros j Hj. lia.
    + destruct (IH (S i)) as (p & e & Hp & He & Hfe & Hbefore); [lia | lia |].
      exists p, e. split; [lia |]. split; [exact He |]. split; [exact Hfe |].
      intros j Hj. destruct (decide (j = i)) as [-> | Hne]; [eauto |].
      apply Hbefore. lia.
Qed.

Lemma probe_stop_exists k es i x :
  i <= x -> (exists e, es !! x = Some e /\ str_ge (key e) k = true) ->
  exists p e, probe_stop k es i p e /\ p <= x.
Proof.
  intros Hix Hx.
  destruct (first_entry (fun _ e => str_ge (key e) k) es i x Hix Hx)
    as (p & e & Hp & He & Hf & Hbefore).
  exists p, e. split; [| lia]. split; [lia |]. split; [| auto].
  intros j Hj. destruct (Hbefore j Hj) as (e' & He' & Hf').
  exists e'. split; [exact He' | apply str_ge_false, Hf'].
Qed.

Lemma hole_exists es p x :
  p <= x -> hole es x ->
  exists q, p <= q <= x /\ (forall j, p <= j < q -> full es j) /\ hole es q.
Proof.
  intros Hpx (ex & Hex & Hempty).
  destruct (first_entry (fun _ e => str_eq (key e) EMPTY_KEY) es p x Hpx)
    as (q & e & Hq & He & Hf & Hbefore).
  { exists ex. split; [exact Hex | apply str_eq_true, Hempty]. }
  exists q. split; [lia |]. split.
  - intros j Hj. destruct (Hbefore j Hj) as (e' & He' & Hf').
    exists e'. split; [exact He' | apply str_eq_false, Hf'].
  - exists e. split; [exact He | apply str_eq_true, Hf].
Qed.

Lemma shift_stop_exists es p x :
  p <= x -> hole es (S x) -> exists g, shift_stop es p g /\ g <= x.
Proof.
  intros Hpx (ex & Hex & Hempty).
  destruct (first_entry
              (fun j e => (Z.of_nat (j - 1) <? hashToIndex (hash (key e)))%Z
                          || str_eq (key e) EMPTY_KEY)
              es (S p) (S x) ltac:(lia))
    as (g' & e & Hg & He & Hf & Hbefore).
  { exists ex. split; [exact Hex |]. rewrite Hempty.
    apply orb_true_iff. right. apply str_eq_true. reflexivity. }
  destruct g' as [| g]; [lia |].
  exists g. split; [| lia]. split; [lia |]. split.
  - intros j Hj. destruct (Hbefore (S j)) as (e' & He' & Hf'); [lia |].
    exists e'. split; [exact He' |].
    apply break_test_false. simpl in Hf'. rewrite Nat.sub_0_r in Hf'. exact Hf'.
  - exists e. split; [exact He |].
    apply break_test_true. simpl in Hf. rewrite Nat.sub_0_r in Hf. exact Hf.
Qed.

(** ** The operations, forwards *)

Lemma probe_stop_lt_length k es i p e : probe_stop k es i p e -> p < length es.
Proof. intros (_ & _ & He & _). eapply lookup_lt_Some, He. Qed.

Lemma get_at k m b p e :
  bucket k = Z.of_nat b -> probe_stop k (entries m) b p e ->
  get k m = if str_eq (key e) k then Return (Some (value e)) else Return None.
Proof.
  intros Hb Hp. unfold get. rewrite !bucket_unfold. rewrite Hb.
  apply (get_loop_stop _ k _ b p e); [exact Hp |].
  apply probe_stop_lt_length in Hp. unfold rounds. lia.
Qed.

Lemma getOrPut_found k m b p e :
  (len m < CAPACITY)%Z -> bucket k = Z.of_nat b ->
  probe_stop k (entries m) b p e -> key e = k ->
  getOrPut k m = (m, Return (mkSlot true (Z.of_nat p))).
Proof.
  intros Hroom Hb Hp Hke. unfold getOrPut. rewrite !bucket_unfold.
  destruct (Z.geb_spec (len m) CAPACITY) as [Hfull | _]; [lia |].
  rewrite Hb. eapply gop_loop_found; eauto.
  apply probe_stop_lt_length in Hp. unfold rounds. lia.
Qed.

Lemma getOrPut_inserted k m b p e q :
  (len m < CAPACITY)%Z -> legal k -> above_closed k (entries m) ->
  bucket k = Z.of_nat b -> probe_stop k (entries m) b p e -> key e <> k ->
  p <= q -> (forall j, p <= j < q -> full (entries m) j) -> hole (entries m) q ->
  getOrPut k m =
    (mkMap (shift_in (entries m) p q (mkEntry k None)) (len m + 1),
     Return (mkSlot false (Z.of_nat p))).
Proof.
  intros Hroom Hk Hc Hb Hp Hne Hpq Hfull Hhole. unfold getOrPut. rewrite !bucket_unfold.
  destruct (Z.geb_spec (len m) CAPACITY) as [Hf | _]; [lia |].
  rewrite Hb. eapply gop_loop_inserted; eauto.
  destruct Hhole as (e' & He' & _). apply lookup_lt_Some in He'.
  unfold rounds. lia.
Qed.

Lemma put_found_at k v m b p e :
  (len m < CAPACITY)%Z -> bucket k = Z.of_nat b ->
  probe_stop k (entries m) b p e -> key e = k ->
  put k v m = (mkMap (<[p := mkEntry k (Some v)]> (entries m)) (len m), Return tt).
Proof.
  intros Hroom Hb Hp Hke. unfold put.
  rewrite (getOrPut_found k m b p e) by assumption.
  cbn [index]. rewrite arr_get_nat, arr_set_nat.
  destruct Hp as (_ & _ & He & _). rewrite He. reflexivity.
Qed.

Lemma put_inserted_at k v m b p e q :
  (len m < CAPACITY)%Z -> legal k -> above_closed k (entries m) ->
  bucket k = Z.of_nat b -> probe_stop k (entries m) b p e -> key e <> k ->
  p <= q -> (forall j, p <= j < q -> full (entries m) j) -> hole (entries m) q ->
  put k v m =
    (mkMap (shift_in (entries m) p q (mkEntry k (Some v))) (len m + 1), Return tt).
Proof.
  intros Hroom Hk Hc Hb Hp Hne Hpq Hfull Hhole. unfold put.
  rewrite (getOrPut_inserted k m b p e q) by assumption.
  assert (q < length (entries m)) as Hq.
  { destruct Hhole as (e' & He' & _). eapply lookup_lt_Some, He'. }
  cbn [index entries len]. rewrite arr_get_nat, arr_set_nat.
  rewrite lookup_shift_in by lia.
  repeat case_decide; try lia.
  rewrite insert_shift_in by lia. reflexivity.
Qed.

Lemma del_absent_at k m b p e :
  bucket k = Z.of_nat b -> probe_stop k (entries m) b p e -> key e <> k ->
  del k m = (m, Return None).
Proof.
  intros Hb Hp Hne. unfold del. rewrite !bucket_unfold. rewrite Hb.
  rewrite (del_find_stop _ k _ b p e); [| exact Hp |].
  - apply str_eq_false in Hne. rewrite Hne. reflexivity.
  - apply probe_stop_lt_length in Hp. unfold rounds. lia.
Qed.

Lemma del_removed_at k m b p e g :
  bucket k = Z.of_nat b -> probe_stop k (entries m) b p e -> key e = k ->
  shift_stop (entries m) p g ->
  del k m = (mkMap (shift_out (entries m) p g empty_entry) (len m - 1),
             Return (Some (value e))).
Proof.
  intros Hb Hp Hke Hstop. unfold del. rewrite !bucket_unfold. rewrite Hb.
  assert (S g < length (entries m)) as Hg.
  { destruct Hstop as (_ & _ & e' & He' & _). eapply lookup_lt_Some, He'. }
  rewrite (del_find_stop _ k _ b p e); [| exact Hp |].
  2:{ apply probe_stop_lt_length in Hp. unfold rounds. lia. }
  apply str_eq_true in Hke. rewrite Hke.
  rewrite arr_get_nat. destruct Hp as (_ & _ & He & _). rewrite He.
  rewrite (del_shift_run _ _ p g) by (auto; unfold rounds; lia).
  rewrite arr_set_nat, insert_shift_left by (destruct Hstop; lia).
  reflexivity.
Qed.

(** * A family of keys that share one bucket *)


Lemma str_compare_app a b x y :
  length a = length b ->
  str_compare (a ++ x) (b ++ y) =
    match str_compare a b with Eq => str_compare x y | c => c end.
Proof.
  revert b. induction a as [| c a IH]; intros [| d b] Hlen; simpl in *;
    try discriminate; [reflexivity |].
  destruct (c ?= d)%Z; [apply IH; lia | reflexivity | reflexivity].
Qed.

Lemma length_enc w n : length (enc w n) = w.
Proof.
  revert n. induction w as [| w IH]; intros n; simpl; [reflexivity |].
  rewrite length_app, IH. simpl. lia.
Qed.

Lemma enc_lt w n m :
  (0 <= n < m)%Z -> (m < 128 ^ Z.of_nat w)%Z -> str_lt (enc w n) (enc w m).
Proof.
  revert n m. induction w as [| w IH]; intros n m Hnm Hm.
  - simpl in Hm. lia.
  - cbn [enc]. unfold str_lt.
    rewrite str_compare_app by (rewrite !length_enc; reflexivity).
    assert (128 ^ Z.of_nat (S w) = 128 * 128 ^ Z.of_nat w)%Z as Hpow.
    { rewrite Nat2Z.inj_succ, Z.pow_succ_r by lia. reflexivity. }
    assert (n / 128 <= m / 128)%Z as Hle by (apply Z.div_le_mono; lia).
    destruct (Z.eq_dec (n / 128)%Z (m / 128)%Z) as [Heq | Hne].
    + rewrite Heq, str_compare_refl. simpl.
      assert (n mod 128 < m mod 128)%Z as Hlt.
      { rewrite (Z.div_mod n 128), (Z.div_mod m 128) in Hnm by lia. lia. }
      rewrite <- Z.compare_lt_iff in Hlt. rewrite Hlt. reflexivity.
    + assert (str_lt (enc w (n / 128)) (enc w (m / 128))) as Hlt.
      { apply IH.
        - split; [apply Z.div_pos; lia | lia].
        - apply Z.div_lt_upper_bound; lia. }
      unfold str_lt in Hlt. rewrite Hlt. reflexivity.
Qed.

Lemma legal_enc w n : legal (enc w n).
Proof.
  revert n. induction w as [| w IH]; intros n; cbn [enc]; [constructor |].
  apply Forall_app. split; [apply IH |].
  constructor; [| constructor].
  pose proof (Z.mod_pos_bound n 128 ltac:(lia)). lia.
Qed.

(** The hash reads the code units at 0, 1 and 2 only. *)
Lemma hash_first_three k1 k2 :
  k1 !! 0 = k2 !! 0 -> k1 !! 1 = k2 !! 1 -> k1 !! 2 = k2 !! 2 ->
  hash k1 = hash k2.
Proof.
  intros H0 H1 H2. unfold hash, charCodeAt0. rewrite H0, H1, H2. exact eq_refl.
Qed.

Section Family.
Variables (pre v : jsstring) (B : nat).
Hypothesis pre_good : good pre.
Hypothesis pre_length : length pre = 3.
Hypothesis pre_bucket : bucket pre = Z.of_nat B.

Lemma fam_key_legal n : legal (fam_key pre n).
Proof.
  unfold fam_key. apply Forall_app. split; [apply pre_good | apply legal_enc].
Qed.

Lemma fam_key_bucket n : bucket (fam_key pre n) = Z.of_nat B.
Proof.
  rewrite <- pre_bucket. unfold bucket. f_equal.
  unfold fam_key. apply hash_first_three; apply lookup_app_l; lia.
Qed.

Lemma fam_key_lt n m :
  n < m -> (Z.of_nat m < 268435456)%Z -> str_lt (fam_key pre n) (fam_key pre m).
Proof.
  intros Hnm Hm. unfold fam_key, str_lt.
  rewrite str_compare_app by reflexivity. rewrite str_compare_refl.
  apply enc_lt; [lia |]. change (128 ^ Z.of_nat 4)%Z with 268435456%Z. exact Hm.
Qed.

Lemma fam_length n : length (entries (fam_state pre v B n)) = TABLE.
Proof using Type. clear pre_good pre_length pre_bucket. cbn [fam_state entries]. rewrite length_fmap, length_seq. exact eq_refl. Qed.

Lemma fam_lookup n j :
  j < TABLE -> entries (fam_state pre v B n) !! j = Some (fam_slot pre v B n j).
Proof using Type.
  clear pre_good pre_length pre_bucket.
  intros Hj. cbn [fam_state entries].
  rewrite list_lookup_fmap, lookup_seq_lt by exact Hj. exact eq_refl.
Qed.

Lemma fam_lookup_key n j :
  B <= j < B + n -> j < TABLE ->
  entries (fam_state pre v B n) !! j = Some (mkEntry (fam_key pre (j - B)) (Some v)).
Proof using Type.
  clear pre_good pre_length pre_bucket.
  intros Hj Hlt. rewrite fam_lookup by exact Hlt. unfold fam_slot.
  case_decide; [exact eq_refl | lia].
Qed.

Lemma fam_lookup_empty n j :
  ~ (B <= j < B + n) -> j < TABLE ->
  entries (fam_state pre v B n) !! j = Some empty_entry.
Proof using Type.
  clear pre_good pre_length pre_bucket.
  intros Hj Hlt. rewrite fam_lookup by exact Hlt. unfold fam_slot.
  case_decide; [lia | exact eq_refl].
Qed.

Lemma fam_state_0 : fam_state pre v B 0 = init.
Proof.
  unfold fam_state, init. change (Z.of_nat 0) with 0%Z.
  apply (f_equal (fun es => mkMap es 0)). apply list_eq. intros j.
  destruct (decide (j < TABLE)) as [Hj | Hj].
  - rewrite lookup_replicate_2 by exact Hj.
    rewrite list_lookup_fmap, lookup_seq_lt by exact Hj. cbn [fmap option_fmap option_map].
    unfold fam_slot. case_decide; [lia | exact eq_refl].
  - rewrite !(proj2 (lookup_ge_None _ _)); [exact eq_refl | |].
    + rewrite length_replicate. lia.
    + rewrite length_fmap, length_seq. lia.
Qed.

(** The keys of the family before the [n]-th lie below it. *)
Lemma fam_probe_stop n :
  B + n < TABLE -> (Z.of_nat n < 268435456)%Z ->
  probe_stop (fam_key pre n) (entries (fam_state pre v B n)) B (B + n) empty_entry.
Proof.
  intros Hn Hsmall. split; [lia |]. split; [| split].
  - intros j Hj. exists (mkEntry (fam_key pre (j - B)) (Some v)).
    split; [apply fam_lookup_key; lia |]. cbn [key].
    apply fam_key_lt; lia.
  - apply fam_lookup_empty; lia.
  - cbn [key empty_entry]. apply str_ge_true. right.
    apply legal_lt_EMPTY, fam_key_legal.
Qed.

Lemma fam_put n :
  B + n < TABLE -> (Z.of_nat n < CAPACITY)%Z -> Inv (fam_state pre v B n) ->
  put (fam_key pre n) v (fam_state pre v B n) = (fam_state pre v B (S n), Return tt).
Proof.
  intros Hn Hroom HI. rewrite CAPACITY_val in Hroom.
  assert (B + n < length (entries (fam_state pre v B n))) as Hlen
    by (rewrite fam_length; exact Hn).
  rewrite (put_inserted_at _ v _ B (B + n) empty_entry (B + n)).
  - unfold fam_state at 2. cbn [len fam_state].
    replace (Z.of_nat n + 1)%Z with (Z.of_nat (S n)) by lia.
    apply (f_equal (fun es => (mkMap es (Z.of_nat (S n)), Return tt))).
    rewrite <- shift_in_base by exact Hlen.
    apply list_eq. intros j.
    destruct (decide (j < TABLE)) as [Hj | Hj].
    + rewrite list_lookup_fmap, lookup_seq_lt by exact Hj.
      cbn [fmap option_fmap option_map plus].
      destruct (decide (j = B + n)) as [-> | Hne].
      * rewrite list_lookup_insert_eq by exact Hlen.
        unfold fam_slot. case_decide; [| lia].
        replace (B + n - B) with n by lia. exact eq_refl.
      * rewrite list_lookup_insert_ne by lia.
        rewrite fam_lookup by exact Hj. unfold fam_slot.
        repeat case_decide; try lia; exact eq_refl.
    + rewrite !(proj2 (lookup_ge_None _ _)); [exact eq_refl | |].
      * rewrite length_fmap, length_seq. lia.
      * rewrite length_insert, fam_length. lia.
  - cbn [len fam_state]. rewrite CAPACITY_val. lia.
  - apply fam_key_legal.
  - apply Inv_above_closed, HI.
  - apply fam_key_bucket.
  - apply fam_probe_stop; [exact Hn | lia].
  - cbn [key empty_entry]. intros E. symmetry in E. revert E.
    apply legal_not_EMPTY, fam_key_legal.
  - lia.
  - intros j Hj. lia.
  - exists empty_entry. split; [apply fam_lookup_empty; lia | exact eq_refl].
Qed.

Lemma fam_reachable n :
  B + n <= TABLE -> (Z.of_nat n <= CAPACITY)%Z -> reachable (fam_state pre v B n).
Proof.
  induction n as [| n IH]; intros Hn Hcap.
  - rewrite fam_state_0. constructor.
  - assert (reachable (fam_state pre v B n)) as Hr by (apply IH; lia).
    apply (reach_put (fam_key pre n) v (fam_state pre v B n)).
    + exact Hr.
    + apply fam_key_legal.
    + apply fam_put; [lia | lia | apply reachable_Inv, Hr].
Qed.
(** The [n]-th key of the family is not among the first [n]. *)
Lemma fam_absent n e :
  (Z.of_nat n < 268435456)%Z -> e ∈ entries (fam_state pre v B n) ->
  key e <> fam_key pre n.
Proof.
  intros Hsmall He. apply list_elem_of_lookup in He as [j Hj].
  pose proof (lookup_lt_Some _ _ _ Hj) as Hlt. rewrite fam_length in Hlt.
  rewrite fam_lookup in Hj by exact Hlt. injection Hj as <-.
  unfold fam_slot. case_decide as Hin; cbn [key empty_entry].
  - intros E. apply (str_lt_irrefl (fam_key pre n)).
    rewrite <- E at 1. apply fam_key_lt; lia.
  - intros E. symmetry in E. revert E. apply legal_not_EMPTY, fam_key_legal.
Qed.

Lemma fam_lookup_end n : entries (fam_state pre v B n) !! TABLE = None.
Proof using Type.
  clear pre_good pre_length pre_bucket.
  apply (proj2 (lookup_ge_None (entries (fam_state pre v B n)) TABLE)).
  rewrite fam_length. lia.
Qed.

(** When the family fills the array to its last slot, the probe for the
    next key of the family steps over every slot and reads past the end. *)
Lemma fam_all_below n j :
  B + n = TABLE -> (Z.of_nat n < 268435456)%Z -> B <= j < TABLE ->
  below (fam_key pre n) (entries (fam_state pre v B n)) j.
Proof.
  intros Hn Hsmall Hj. exists (mkEntry (fam_key pre (j - B)) (Some v)).
  split; [apply fam_lookup_key; lia |]. cbn [key].
  apply fam_key_lt; lia.
Qed.

Lemma fam_get_runs_off n :
  B + n = TABLE -> (Z.of_nat n < 268435456)%Z ->
  get (fam_key pre n) (fam_state pre v B n) = Throw TypeError.
Proof.
  intros Hn Hsmall. unfold get, rounds.
  rewrite bucket_unfold, fam_key_bucket, fam_length.
  rewrite (get_loop_skip _ _ _ B TABLE); [| lia | | lia].
  2:{ intros j Hj. apply fam_all_below; assumption. }
  destruct (S TABLE - (TABLE - B)) as [| f] eqn:E; [lia |].
  cbn [get_loop]. rewrite arr_get_nat.
  rewrite fam_lookup_end. exact eq_refl.
Qed.

Lemma fam_getOrPut_runs_off n :
  B + n = TABLE -> (Z.of_nat n < 268435456)%Z -> (Z.of_nat n < CAPACITY)%Z ->
  getOrPut (fam_key pre n) (fam_state pre v B n)
  = (fam_state pre v B n, Throw TypeError).
Proof.
  intros Hn Hsmall Hroom. unfold getOrPut, rounds.
  destruct (Z.geb_spec (len (fam_state pre v B n)) CAPACITY) as [H | _].
  { cbn [len fam_state] in H. lia. }
  rewrite bucket_unfold, fam_key_bucket, fam_length.
  rewrite (gop_loop_skip _ _ _ _ _ B TABLE); [| lia | | lia].
  2:{ intros j Hj. apply fam_all_below; assumption. }
  destruct (S TABLE - (TABLE - B)) as [| f] eqn:E; [lia |].
  cbn [getOrPut_loop]. rewrite arr_get_nat.
  rewrite fam_lookup_end. exact eq_refl.
Qed.

Lemma fam_put_runs_off n w :
  B + n = TABLE -> (Z.of_nat n < 268435456)%Z -> (Z.of_nat n < CAPACITY)%Z ->
  put (fam_key pre n) w (fam_state pre v B n)
  = (fam_state pre v B n, Throw TypeError).
Proof.
  intros Hn Hsmall Hroom. unfold put.
  rewrite fam_getOrPut_runs_off by assumption. exact eq_refl.
Qed.

Lemma fam_del_runs_off n :
  B + n = TABLE -> (Z.of_nat n < 268435456)%Z ->
  del (fam_key pre n) (fam_state pre v B n)
  = (fam_state pre v B n, Throw TypeError).
Proof.
  intros Hn Hsmall. unfold del, rounds.
  rewrite bucket_unfold, fam_key_bucket, fam_length.
  rewrite (del_find_skip _ _ _ B TABLE); [| lia | | lia].
  2:{ intros j Hj. apply fam_all_below; assumption. }
  destruct (S TABLE - (TABLE - B)) as [| f] eqn:E; [lia |].
  cbn [del_find]. rewrite arr_get_nat.
  rewrite fam_lookup_end. exact eq_refl.
Qed.
(** On such a crowded array, [del] of the first key of the family finds it,
    copies every later entry down by one, and then throws: the last entry
    is left in the last two slots. *)
Lemma fam_del_first_throws n :
  B + n = TABLE -> 2 <= n -> (Z.of_nat n < 268435456)%Z ->
  exists m' e,
    del (fam_key pre 0) (fam_state pre v B n) = (m', Throw TypeError) /\
    entries m' !! (TABLE - 2) = Some e /\ entries m' !! (TABLE - 1) = Some e /\
    key e <> EMPTY_KEY /\ len m' = len (fam_state pre v B n).
Proof.
  intros Hn Hn2 Hsmall.
  destruct (del_shift_runs_off (rounds (entries (fam_state pre v B n)))
              (entries (fam_state pre v B n)) B) as (es' & Hrun & Hes').
  { unfold rounds. lia. }
  { unfold rounds. lia. }
  { intros j e Hj He. pose proof (lookup_lt_Some _ _ _ He) as Hlt.
    rewrite fam_length in Hlt. rewrite fam_lookup_key in He by lia.
    injection He as <-. split; cbn [key].
    - rewrite fam_key_bucket. lia.
    - apply legal_not_EMPTY, fam_key_legal. }
  exists (mkMap es' (len (fam_state pre v B n))),
         (mkEntry (fam_key pre (TABLE - 1 - B)) (Some v)).
  split; [| split; [| split; [| split]]].
  - unfold del. rewrite bucket_unfold, fam_key_bucket.
    rewrite (del_find_stop _ _ _ B B (mkEntry (fam_key pre 0) (Some v))).
    + cbn [key]. rewrite (proj2 (str_eq_true _ _) eq_refl).
      rewrite arr_get_nat, fam_lookup_key by lia. rewrite Hrun. exact eq_refl.
    + split; [lia |]. split; [intros j Hj; lia |]. split.
      * rewrite fam_lookup_key by lia. rewrite Nat.sub_diag. exact eq_refl.
      * cbn [key]. apply str_ge_true. left. exact eq_refl.
    + unfold rounds. lia.
  - cbn [entries]. rewrite Hes', fam_length.
    repeat case_decide; try lia.
    rewrite fam_lookup_key by lia.
    replace (S (TABLE - 2) - B) with (TABLE - 1 - B) by lia. exact eq_refl.
  - cbn [entries]. rewrite Hes', fam_length.
    repeat case_decide; try lia.
    rewrite fam_lookup_key by lia. exact eq_refl.
  - cbn [key]. apply legal_not_EMPTY, fam_key_legal.
  - exact eq_refl.
Qed.
End Family.

(** * The hash *)

Lemma legal_x80 : legal [128%Z].
Proof. constructor; [lia | constructor]. Qed.

Lemma bucket_x80 : hashToIndex (hash [128%Z]) = (-8388608)%Z.
Proof. vm_compute. exact eq_refl. Qed.

(** C1 (the code departs from it).  For the legal one-byte key 0x80 the
    ideal bucket [hashToIndex (hash key)] is -8388608, outside
    [0, CAPACITY): the hash is a signed 32-bit number and [>>] keeps its
    sign.  [get] then reads [entries[-8388608]], which is [undefined], and
    stops with a TypeError. *)
Theorem idealBucket_negative_for_high_byte :
  legal [128%Z] /\
  hash [128%Z] = (-2147483520)%Z /\
  hashToIndex (hash [128%Z]) = (-8388608)%Z /\
  ~ (0 <= hashToIndex (hash [128%Z]) < CAPACITY)%Z /\
  get [128%Z] init = Throw TypeError.
Proof.
  split; [exact legal_x80 |].
  split; [vm_compute; exact eq_refl |].
  split; [exact bucket_x80 |].
  split; [rewrite bucket_x80; lia |].
  unfold get, rounds. rewrite bucket_x80. cbn [get_loop].
  rewrite arr_get_neg by lia. exact eq_refl.
Qed.

(** As the signed numbers that [hash] returns, the hashes of 0x7F and 0x80
    are in the wrong order, and so are their buckets. *)
Lemma hash_signed_order_breaks :
  str_lt [127%Z] [128%Z] /\
  (hash [128%Z] < hash [127%Z])%Z /\
  (hashToIndex (hash [128%Z]) < hashToIndex (hash [127%Z]))%Z.
Proof. repeat split; vm_compute; exact eq_refl. Qed.

(** The code unit at position 3 is not read: two keys that differ there
    only have the same hash. *)
Lemma hash_ignores_fourth_byte :
  str_lt [97; 97; 97; 98]%Z [97; 97; 97; 99]%Z /\
  hash [97; 97; 97; 98]%Z = hash [97; 97; 97; 99]%Z.
Proof. split; vm_compute; exact eq_refl. Qed.

(** The ideal bucket of a legal key lies in [-2^23, 2^23), and in
    [0, 2^23) exactly when the first byte has its top bit clear. *)
Lemma bucket_range k :
  legal k -> (-8388608 <= bucket k < 8388608)%Z.
Proof.
  intros Hl. pose proof (legal_bytes _ Hl) as Hb.
  rewrite bucket_closed by exact Hb.
  pose proof (charCodeAt0_bytes k 0 Hb) as H0.
  pose proof (charCodeAt0_bytes k 1 Hb). pose proof (charCodeAt0_bytes k 2 Hb).
  pose proof (sbyte_range _ H0). lia.
Qed.

(** C2.  The hash preserves the order of the zero-padded three-byte
    prefixes of byte strings: if the prefix of [a] is below the prefix of
    [b], then [hash a < hash b] as unsigned 32-bit integers. *)
Theorem hash_order_preserving a b :
  bytes a -> bytes b -> str_lt (prefix3 a) (prefix3 b) ->
  (toUint32 (hash a) < toUint32 (hash b))%Z.
Proof.
  intros Ha Hb Hlt. rewrite !toUint32_hash by assumption.
  pose proof (charCodeAt0_bytes a 0 Ha). pose proof (charCodeAt0_bytes a 1 Ha).
  pose proof (charCodeAt0_bytes a 2 Ha).
  pose proof (charCodeAt0_bytes b 0 Hb). pose proof (charCodeAt0_bytes b 1 Hb).
  pose proof (charCodeAt0_bytes b 2 Hb).
  unfold str_lt, prefix3 in Hlt. cbn [str_compare] in Hlt.
  destruct (charCodeAt0 a 0 ?= charCodeAt0 b 0)%Z eqn:E0; try discriminate.
  2:{ rewrite Z.compare_lt_iff in E0. lia. }
  apply Z.compare_eq in E0.
  destruct (charCodeAt0 a 1 ?= charCodeAt0 b 1)%Z eqn:E1; try discriminate.
  2:{ rewrite Z.compare_lt_iff in E1. lia. }
  apply Z.compare_eq in E1.
  destruct (charCodeAt0 a 2 ?= charCodeAt0 b 2)%Z eqn:E2; try discriminate.
  rewrite Z.compare_lt_iff in E2. lia.
Qed.

Lemma hash_order_preserving_witness :
  (toUint32 (hash [127; 255]%Z) < toUint32 (hash [128%Z]))%Z.
Proof.
  apply hash_order_preserving.
  - repeat constructor; lia.
  - repeat constructor; lia.
  - vm_compute. exact eq_refl.
Defined.

(** C10.  Two keys with the same code units at positions 0, 1 and 2 have
    the same hash, and so the same ideal bucket, whatever follows. *)
Theorem hash_depends_on_first_three k1 k2 :
  k1 !! 0 = k2 !! 0 -> k1 !! 1 = k2 !! 1 -> k1 !! 2 = k2 !! 2 ->
  hash k1 = hash k2 /\ hashToIndex (hash k1) = hashToIndex (hash k2).
Proof.
  intros H0 H1 H2.
  assert (hash k1 = hash k2) as H by (apply hash_first_three; assumption).
  split; [exact H | rewrite H; exact eq_refl].
Qed.

Lemma hash_depends_on_first_three_witness :
  hash [97; 98; 99; 100]%Z = hash [97; 98; 99; 1; 2; 3]%Z /\
  hashToIndex (hash [97; 98; 99; 100]%Z) = hashToIndex (hash [97; 98; 99; 1; 2; 3]%Z).
Proof.
  apply hash_depends_on_first_three; exact eq_refl.
Defined.

(** * A full table *)

Lemma gop_loop_not_MapFull fuel k it ins i m :
  snd (getOrPut_loop fuel k it ins i m) <> Throw MapFull.
Proof.
  revert it ins i m. induction fuel as [| fuel IH]; intros it ins i m;
    cbn [getOrPut_loop]; [discriminate |].
  destruct (arr_get (entries m) i) as [e |]; [| discriminate].
  destruct (str_ge (key e) k); [| apply IH].
  destruct (str_eq (key e) k); [discriminate |].
  destruct (str_eq (key e) EMPTY_KEY); [discriminate | apply IH].
Qed.

Lemma getOrPut_full k m :
  (len m >= CAPACITY)%Z -> getOrPut k m = (m, Throw MapFull).
Proof.
  intros H. unfold getOrPut.
  destruct (Z.geb_spec (len m) CAPACITY); [exact eq_refl | lia].
Qed.

Lemma put_full k v m :
  (len m >= CAPACITY)%Z -> put k v m = (m, Throw MapFull).
Proof.
  intros H. unfold put. rewrite getOrPut_full by exact H. exact eq_refl.
Qed.

Lemma getOrPut_MapFull_inv k m :
  snd (getOrPut k m) = Throw MapFull -> (len m >= CAPACITY)%Z.
Proof.
  unfold getOrPut. destruct (Z.geb_spec (len m) CAPACITY) as [H | H]; [lia |].
  intros E. exfalso. revert E. apply gop_loop_not_MapFull.
Qed.

Lemma put_MapFull_inv k v m :
  snd (put k v m) = Throw MapFull -> (len m >= CAPACITY)%Z.
Proof.
  unfold put. destruct (getOrPut k m) as [m1 [r | err |]] eqn:Hgop.
  - destruct (arr_get (entries m1) (index r)); discriminate.
  - cbn [snd]. intros [= ->]. apply (getOrPut_MapFull_inv k).
    rewrite Hgop. exact eq_refl.
  - discriminate.
Qed.

(** C3, amended.  On a reachable state, [put] and [getOrPut] stop with
    MapFull exactly when [len == CAPACITY], whether or not the key is
    already in the table; the state is then left as it was.  So [put] of
    a key that is present fails as well on a full table. *)
Theorem MapFull_iff_full m k v :
  reachable m ->
  (snd (put k v m) = Throw MapFull <-> len m = CAPACITY) /\
  (snd (getOrPut k m) = Throw MapFull <-> len m = CAPACITY) /\
  (len m = CAPACITY ->
   put k v m = (m, Throw MapFull) /\ getOrPut k m = (m, Throw MapFull)).
Proof.
  intros Hr. destruct (reachable_Inv m Hr) as [_ Hlen].
  split; [| split].
  - split.
    + intros H. apply put_MapFull_inv in H. lia.
    + intros H. rewrite put_full by lia. exact eq_refl.
  - split.
    + intros H. apply getOrPut_MapFull_inv in H. lia.
    + intros H. rewrite getOrPut_full by lia. exact eq_refl.
  - intros H. split; [apply put_full | apply getOrPut_full]; lia.
Qed.

(** ** Three concrete states *)

Lemma full_count_val : Z.of_nat full_count = 16777216%Z.
Proof. unfold full_count. lia. Qed.

Lemma crowd_base_val : Z.of_nat crowd_base = 8388350%Z.
Proof. unfold crowd_base. lia. Qed.

Lemma crowd_count_val : Z.of_nat crowd_count = 11744356%Z.
Proof. unfold crowd_count. lia. Qed.

Opaque full_count crowd_base crowd_count.

Lemma good_000 : good [0; 0; 0]%Z.
Proof. split; [repeat constructor; lia | vm_compute; discriminate]. Qed.

Lemma good_crowd_prefix : good [127; 254; 254]%Z.
Proof. split; [repeat constructor; lia | vm_compute; discriminate]. Qed.

Lemma bucket_crowd_prefix : bucket [127; 254; 254]%Z = Z.of_nat crowd_base.
Proof. rewrite crowd_base_val. vm_compute. exact eq_refl. Qed.

Lemma full_map_reachable : reachable full_map.
Proof.
  pose proof TABLE_val. pose proof full_count_val.
  apply fam_reachable.
  - exact good_000.
  - exact eq_refl.
  - vm_compute. exact eq_refl.
  - lia.
  - rewrite CAPACITY_val. lia.
Qed.

Lemma full_map_len : len full_map = CAPACITY.
Proof. cbn [full_map fam_state len]. rewrite full_count_val, CAPACITY_val. exact eq_refl. Qed.

Lemma full_map_first :
  arr_get (entries full_map) 0 = Some (mkEntry [0; 0; 0; 0; 0; 0; 0]%Z (Some [118%Z])).
Proof.
  pose proof TABLE_val. pose proof full_count_val.
  rewrite arr_get_0. unfold full_map.
  rewrite (fam_lookup_key [0; 0; 0]%Z [118%Z] 0 full_count 0) by lia.
  exact eq_refl.
Qed.

Lemma crowded_map_reachable : reachable crowded_map.
Proof.
  pose proof TABLE_val. pose proof crowd_base_val. pose proof crowd_count_val.
  apply fam_reachable.
  - exact good_crowd_prefix.
  - exact eq_refl.
  - exact bucket_crowd_prefix.
  - lia.
  - rewrite CAPACITY_val. lia.
Qed.

Lemma crowded_map_len : len crowded_map = 11744356%Z.
Proof. cbn [crowded_map fam_state len]. apply crowd_count_val. Qed.

(** The key after the last key of the crowded state. *)
Lemma crowd_next_key :
  fam_key [127; 254; 254]%Z crowd_count = [127; 254; 254; 5; 76; 104; 100]%Z.
Proof.
  unfold fam_key. rewrite crowd_count_val. vm_compute. exact eq_refl.
Qed.

Lemma shift_out_base {A} (l : list A) p x :
  p < length l -> shift_out l p p x = <[p := x]> l.
Proof.
  intros H. apply list_eq. intros j.
  rewrite lookup_shift_out by lia. idx_cases.
Qed.

Lemma TABLE_big : 2 < TABLE.
Proof. pose proof TABLE_val. lia. Qed.

Lemma one_map_put : put [0; 0; 0]%Z [49%Z] init = (one_map, Return tt).
Proof.
  pose proof TABLE_big as HT.
  rewrite (put_inserted_at [0; 0; 0]%Z [49%Z] init 0 0 empty_entry 0).
  - unfold one_map, init. cbn [entries len].
    rewrite <- shift_in_base by (rewrite length_replicate; lia). exact eq_refl.
  - cbn [init len]. rewrite CAPACITY_val. lia.
  - apply good_000.
  - apply Inv_above_closed, Inv_init.
  - vm_compute. exact eq_refl.
  - split; [lia |]. split; [intros j Hj; lia |]. split.
    + cbn [init entries]. apply lookup_replicate_2. lia.
    + vm_compute. exact eq_refl.
  - discriminate.
  - lia.
  - intros j Hj. lia.
  - exists empty_entry. split; [| exact eq_refl].
    cbn [init entries]. apply lookup_replicate_2. lia.
Qed.

Lemma one_map_reachable : reachable one_map.
Proof.
  apply (reach_put [0; 0; 0]%Z [49%Z] init); [constructor | apply good_000 |].
  exact one_map_put.
Qed.

Lemma one_map_0 : entries one_map !! 0 = Some (mkEntry [0; 0; 0]%Z (Some [49%Z])).
Proof.
  pose proof TABLE_big. cbn [one_map entries].
  apply list_lookup_insert_eq. rewrite length_replicate. lia.
Qed.

Lemma one_map_empty j : 0 < j < TABLE -> entries one_map !! j = Some empty_entry.
Proof.
  intros Hj. cbn [one_map entries].
  rewrite list_lookup_insert_ne by lia. apply lookup_replicate_2. lia.
Qed.

Lemma one_map_length : length (entries one_map) = TABLE.
Proof. cbn [one_map entries]. rewrite length_insert, length_replicate. exact eq_refl. Qed.

Lemma good_001 : good [0; 0; 1]%Z.
Proof. split; [repeat constructor; lia | vm_compute; discriminate]. Qed.

Lemma pair_map_put : put [0; 0; 1]%Z [50%Z] one_map = (pair_map, Return tt).
Proof.
  pose proof TABLE_big as HT.
  rewrite (put_inserted_at [0; 0; 1]%Z [50%Z] one_map 1 1 empty_entry 1).
  - unfold pair_map.
    rewrite <- shift_in_base by (rewrite one_map_length; lia). exact eq_refl.
  - cbn [one_map len]. rewrite CAPACITY_val. lia.
  - apply good_001.
  - apply Inv_above_closed, reachable_Inv, one_map_reachable.
  - vm_compute. exact eq_refl.
  - split; [lia |]. split; [intros j Hj; lia |]. split.
    + apply one_map_empty. lia.
    + vm_compute. exact eq_refl.
  - discriminate.
  - lia.
  - intros j Hj. lia.
  - exists empty_entry. split; [apply one_map_empty; lia | exact eq_refl].
Qed.

Lemma pair_map_reachable : reachable pair_map.
Proof.
  apply (reach_put [0; 0; 1]%Z [50%Z] one_map);
    [exact one_map_reachable | apply good_001 | exact pair_map_put].
Qed.

Lemma pair_map_length : length (entries pair_map) = TABLE.
Proof.
  cbn [pair_map entries]. rewrite !length_insert, length_replicate. exact eq_refl.
Qed.

Lemma pair_map_0 : entries pair_map !! 0 = Some (mkEntry [0; 0; 0]%Z (Some [49%Z])).
Proof.
  pose proof TABLE_big. cbn [pair_map entries].
  rewrite list_lookup_insert_ne by lia.
  apply list_lookup_insert_eq. rewrite length_replicate. lia.
Qed.

Lemma pair_map_1 : entries pair_map !! 1 = Some (mkEntry [0; 0; 1]%Z (Some [50%Z])).
Proof.
  pose proof TABLE_big. cbn [pair_map entries].
  apply list_lookup_insert_eq. rewrite length_insert, length_replicate. lia.
Qed.

Lemma pair_map_probe :
  probe_stop [0; 0; 0]%Z (entries pair_map) 0 0 (mkEntry [0; 0; 0]%Z (Some [49%Z])).
Proof.
  split; [lia |]. split; [intros j Hj; lia |].
  split; [exact pair_map_0 | vm_compute; exact eq_refl].
Qed.

Lemma pair_map_shift_stop : shift_stop (entries pair_map) 0 0.
Proof.
  split; [lia |]. split; [intros j Hj; lia |].
  exists (mkEntry [0; 0; 1]%Z (Some [50%Z])). split; [exact pair_map_1 |].
  left. vm_compute. exact eq_refl.
Qed.

Lemma pair_map_del :
  del [0; 0; 0]%Z pair_map = (after_del_map, Return (Some (Some [49%Z]))).
Proof.
  pose proof TABLE_big as HT.
  rewrite (del_removed_at [0; 0; 0]%Z pair_map 0 0
             (mkEntry [0; 0; 0]%Z (Some [49%Z])) 0).
  - rewrite shift_out_base by (rewrite pair_map_length; lia). exact eq_refl.
  - vm_compute. exact eq_refl.
  - exact pair_map_probe.
  - exact eq_refl.
  - exact pair_map_shift_stop.
Qed.

Lemma after_del_map_0 : entries after_del_map !! 0 = Some empty_entry.
Proof.
  pose proof TABLE_big. cbn [after_del_map entries].
  apply list_lookup_insert_eq. rewrite pair_map_length. lia.
Qed.

Lemma after_del_map_1 :
  entries after_del_map !! 1 = Some (mkEntry [0; 0; 1]%Z (Some [50%Z])).
Proof.
  cbn [after_del_map entries].
  rewrite list_lookup_insert_ne by lia. exact pair_map_1.
Qed.

(** * Order and displacement *)

Lemma occupied_true e : occupied e = true <-> key e <> EMPTY_KEY.
Proof. unfold occupied. rewrite negb_true_iff. apply str_eq_false. Qed.

Lemma Inv_sorted m i j ei ej :
  Inv m -> i < j -> entries m !! i = Some ei -> entries m !! j = Some ej ->
  occupied ei = true -> occupied ej = true -> str_lt (key ei) (key ej).
Proof.
  intros [HK _] Hij Hi Hj Hoi Hoj. apply occupied_true in Hoi, Hoj.
  apply (kinv_sorted _ HK i j); auto using lookup_key_of.
Qed.

(** Entries that ascend wherever two of them are occupied: the occupied
    ones, in order, ascend strictly. *)
Lemma filter_sorted (es : list Entry) :
  (forall i j ei ej, i < j -> es !! i = Some ei -> es !! j = Some ej ->
     occupied ei = true -> occupied ej = true -> str_lt (key ei) (key ej)) ->
  StronglySorted str_lt (key <$> filter (fun e => occupied e = true) es).
Proof.
  induction es as [| e es IH]; intros H; [constructor |].
  assert (StronglySorted str_lt (key <$> filter (fun e => occupied e = true) es)) as Htl.
  { apply IH. intros i j ei ej Hij Hi Hj. apply (H (S i) (S j)); auto. lia. }
  rewrite filter_cons. case_decide as Ho; [| exact Htl].
  rewrite fmap_cons. constructor; [exact Htl |].
  apply Forall_fmap, Forall_forall. intros x Hx.
  apply list_elem_of_filter in Hx as [Hox Hx].
  apply list_elem_of_lookup in Hx as [j Hj].
  apply (H 0 (S j) e x); auto. lia.
Qed.

Lemma scanDescending_from_take n es :
  scanDescending_from n es
  = reverse (filter (fun e => occupied e = true) (take n es)).
Proof.
  induction n as [| i IH]; [exact eq_refl |].
  cbn [scanDescending_from].
  destruct (es !! i) as [e |] eqn:He.
  - erewrite take_S_r by exact He.
    rewrite filter_app, reverse_app, <- IH.
    rewrite filter_cons, filter_nil.
    destruct (occupied e) eqn:Ho; case_decide; try congruence; exact eq_refl.
  - apply lookup_ge_None in He.
    rewrite IH, !take_ge by lia. exact eq_refl.
Qed.

(** C6, amended.  In every state reached from the empty map by [getOrPut],
    [put] and [del] calls on legal keys that all return, the occupied
    entries ascend strictly by key from left to right (I1); [scanAscending]
    yields the occupied entries in index order, so its keys ascend
    strictly; and [scanDescending] yields the reverse of that sequence. *)
Theorem scans_are_ordered m :
  reachable m ->
  (forall i j ei ej, i < j ->
     entries m !! i = Some ei -> entries m !! j = Some ej ->
     occupied ei = true -> occupied ej = true -> str_lt (key ei) (key ej)) /\
  scanAscending m = filter (fun e => occupied e = true) (entries m) /\
  (forall e, e ∈ scanAscending m <-> e ∈ entries m /\ occupied e = true) /\
  StronglySorted str_lt (key <$> scanAscending m) /\
  scanDescending m = reverse (scanAscending m).
Proof.
  intros Hr. pose proof (reachable_Inv m Hr) as HI.
  assert (forall i j ei ej, i < j ->
     entries m !! i = Some ei -> entries m !! j = Some ej ->
     occupied ei = true -> occupied ej = true -> str_lt (key ei) (key ej)) as Hs.
  { intros i j ei ej. apply Inv_sorted, HI. }
  split; [exact Hs |]. split; [exact eq_refl |]. split; [| split].
  - intros e. unfold scanAscending. rewrite list_elem_of_filter. tauto.
  - apply filter_sorted, Hs.
  - unfold scanDescending, scanAscending.
    rewrite scanDescending_from_take, take_ge by lia. exact eq_refl.
Qed.

Lemma scans_are_ordered_witness :
  (forall i j ei ej, i < j ->
     entries pair_map !! i = Some ei -> entries pair_map !! j = Some ej ->
     occupied ei = true -> occupied ej = true -> str_lt (key ei) (key ej)) /\
  scanAscending pair_map = filter (fun e => occupied e = true) (entries pair_map) /\
  (forall e, e ∈ scanAscending pair_map <-> e ∈ entries pair_map /\ occupied e = true) /\
  StronglySorted str_lt (key <$> scanAscending pair_map) /\
  scanDescending pair_map = reverse (scanAscending pair_map).
Proof.
  apply scans_are_ordered. exact pair_map_reachable.
Defined.

(** C7.  In every reachable state, an occupied slot at index [i] holds a
    key whose ideal bucket is at most [i] (I2). *)
Theorem no_entry_before_its_bucket m i e :
  reachable m -> arr_get (entries m) i = Some e -> occupied e = true ->
  (hashToIndex (hash (key e)) <= i)%Z.
Proof.
  intros Hr He Ho. destruct (reachable_Inv m Hr) as [HK _].
  apply arr_get_Some in He as (n & -> & He). apply occupied_true in Ho.
  rewrite bucket_unfold.
  apply (kinv_home _ HK n (key e)); auto using lookup_key_of.
Qed.

Lemma no_entry_before_its_bucket_witness :
  (hashToIndex (hash (key (mkEntry [0; 0; 1]%Z (Some [50%Z])))) <= 1)%Z.
Proof.
  apply (no_entry_before_its_bucket pair_map 1 (mkEntry [0; 0; 1]%Z (Some [50%Z]))).
  - exact pair_map_reachable.
  - rewrite arr_get_1. exact pair_map_1.
  - vm_compute. exact eq_refl.
Defined.

(** * Deletion *)

(** C4, amended.  When [del] removes a key found at slot [p], every round
    of the shift loop, the last one included, copies [entries[j+1]] into
    [entries[j]]; the loop breaks at the first gap [g] whose next entry
    is the sentinel or has its ideal bucket after [g].  The gap stays at
    [g]: that slot is then set to the sentinel, which overwrites the copy
    made in the last round, slot [g+1] keeps its entry, and [len] goes
    down by one. *)
Theorem del_gap_stays k m m' v :
  del k m = (m', Return (Some v)) ->
  exists p g : nat,
    (exists e, entries m !! p = Some e /\ key e = k /\ v = value e) /\
    shift_stop (entries m) p g /\
    del_shift (rounds (entries m)) (entries m) (Z.of_nat p)
      = (shift_left (entries m) p g, Return (Z.of_nat g)) /\
    (forall j, p <= j <= g ->
       shift_left (entries m) p g !! j = entries m !! S j) /\
    entries m' = <[g := empty_entry]> (shift_left (entries m) p g) /\
    entries m' !! g = Some empty_entry /\
    entries m' !! S g = entries m !! S g /\
    (forall j, p <= j < g -> entries m' !! j = entries m !! S j) /\
    len m' = (len m - 1)%Z.
Proof.
  intros H. apply del_inv in H.
  destruct H as (b & p & g & e & (Hb & Hp & Hke & Hstop & ->) & ->).
  exists p, g.
  assert (p <= g /\ S g < length (entries m)) as [Hpg Hg].
  { destruct Hstop as (Hpg & _ & e' & He' & _).
    split; [exact Hpg | eapply lookup_lt_Some, He']. }
  split. { exists e. destruct Hp as (_ & _ & He & _). auto. }
  split; [exact Hstop |].
  split. { apply del_shift_run; [exact Hstop | unfold rounds; lia]. }
  split. { intros j Hj. rewrite lookup_shift_left by lia. idx_cases. }
  cbn [entries len].
  split. { symmetry. apply insert_shift_left; lia. }
  split. { rewrite lookup_shift_out by lia. idx_cases. }
  split. { rewrite lookup_shift_out by lia. idx_cases. }
  split; [| exact eq_refl].
  intros j Hj. rewrite lookup_shift_out by lia. idx_cases.
Qed.

Lemma del_gap_stays_witness :
  exists p g : nat,
    (exists e, entries pair_map !! p = Some e /\ key e = [0; 0; 0]%Z /\
               Some [49%Z] = value e) /\
    shift_stop (entries pair_map) p g /\
    del_shift (rounds (entries pair_map)) (entries pair_map) (Z.of_nat p)
      = (shift_left (entries pair_map) p g, Return (Z.of_nat g)) /\
    (forall j, p <= j <= g ->
       shift_left (entries pair_map) p g !! j = entries pair_map !! S j) /\
    entries after_del_map = <[g := empty_entry]> (shift_left (entries pair_map) p g) /\
    entries after_del_map !! g = Some empty_entry /\
    entries after_del_map !! S g = entries pair_map !! S g /\
    (forall j, p <= j < g -> entries after_del_map !! j = entries pair_map !! S j) /\
    len after_del_map = (len pair_map - 1)%Z.
Proof.
  apply (del_gap_stays [0; 0; 0]%Z pair_map after_del_map (Some [49%Z])).
  exact pair_map_del.
Defined.

(** C4 as stated fails.  In [pair_map] the keys 00 00 00 and 00 00 01 sit
    in slots 0 and 1, their ideal buckets.  [del] of the first finds it at
    [i = 0]; the shift loop breaks in its first round, at gap [i = 0],
    because the ideal bucket of [entries[1]] is 1.  Afterwards slot
    [i = 0] holds the sentinel and slot [i + 1 = 1] still holds its
    entry: the gap is not at [i + 1]. *)
Lemma del_gap_not_at_next_slot :
  reachable pair_map /\
  del [0; 0; 0]%Z pair_map = (after_del_map, Return (Some (Some [49%Z]))) /\
  snd (del_shift (rounds (entries pair_map)) (entries pair_map) 0) = Return 0%Z /\
  arr_get (entries pair_map) 1 = Some (mkEntry [0; 0; 1]%Z (Some [50%Z])) /\
  arr_get (entries after_del_map) 0 = Some empty_entry /\
  arr_get (entries after_del_map) 1 = Some (mkEntry [0; 0; 1]%Z (Some [50%Z])) /\
  arr_get (entries after_del_map) 1 <> Some empty_entry /\
  arr_get (entries after_del_map) 0 <> arr_get (entries pair_map) 1.
Proof.
  split; [exact pair_map_reachable |].
  split; [exact pair_map_del |].
  split.
  { change 0%Z with (Z.of_nat 0).
    rewrite (del_shift_run _ _ 0 0); [exact eq_refl | exact pair_map_shift_stop |].
    unfold rounds. lia. }
  rewrite !arr_get_0, !arr_get_1, pair_map_1, after_del_map_0, after_del_map_1.
  repeat split; discriminate.
Qed.

(** * Termination, round trip and insert-or-locate *)

Lemma Inv_length m : Inv m -> Z.of_nat (length (entries m)) = 20132706%Z.
Proof.
  intros [HK _]. pose proof (kinv_length _ HK) as H.
  rewrite length_fmap, table_length in H. exact H.
Qed.

(** A key that is in the table is found by the probe from its bucket. *)
Lemma present_probe_stop m n e :
  Inv m -> entries m !! n = Some e -> key e <> EMPTY_KEY ->
  exists b, bucket (key e) = Z.of_nat b /\ probe_stop (key e) (entries m) b n e.
Proof.
  intros [HK _] He Ho.
  pose proof (lookup_key_of _ _ _ He) as Hk.
  pose proof (kinv_good _ HK n _ Hk Ho) as Hg.
  pose proof (good_bucket_nonneg _ Hg) as Hb0.
  pose proof (kinv_home _ HK n _ Hk Ho) as Hh.
  exists (Z.to_nat (bucket (key e))). split; [lia |].
  split; [lia |]. split; [| split; [exact He |]].
  - intros j Hj.
    destruct (kinv_dense _ HK n (key e) j Hk Ho) as (kj & Hkj & Hoj); [lia | lia |].
    pose proof (kinv_sorted _ HK j n kj (key e) ltac:(lia) Hkj Hk Hoj Ho) as Hlt.
    apply lookup_key in Hkj as (ej & Hej & <-). exists ej. auto.
  - apply str_ge_true. left. exact eq_refl.
Qed.

(** With the sentinel in the last slot, the probe for a good key stops
    inside the array. *)
Lemma probe_exists m k :
  Inv m -> good k -> last_slot_empty m ->
  exists b p e, bucket k = Z.of_nat b /\ probe_stop k (entries m) b p e /\
                p <= length (entries m) - 1.
Proof.
  intros HI Hg (el & Hel & Hempty).
  pose proof (Inv_length m HI) as HL.
  pose proof (good_bucket_nonneg _ Hg) as Hb0.
  pose proof (good_bucket_bound _ Hg) as Hb1.
  destruct (probe_stop_exists k (entries m) (Z.to_nat (bucket k))
              (length (entries m) - 1)) as (p & e & Hp & Hpx); [lia | |].
  { exists el. split; [exact Hel |]. rewrite Hempty.
    apply str_ge_true. right. apply legal_lt_EMPTY, Hg. }
  exists (Z.to_nat (bucket k)), p, e. split; [lia |]. auto.
Qed.

Lemma getOrPut_returns m k :
  Inv m -> good k -> last_slot_empty m -> (len m < CAPACITY)%Z ->
  exists m' r, getOrPut k m = (m', Return r).
Proof.
  intros HI Hg Hlast Hroom.
  destruct (probe_exists m k HI Hg Hlast) as (b & p & e & Hb & Hp & Hpx).
  destruct (decide (key e = k)) as [Hke | Hne].
  - eexists _, _. eapply getOrPut_found; eauto.
  - destruct (hole_exists (entries m) p (length (entries m) - 1) Hpx Hlast)
      as (q & Hq & Hfull & Hhole).
    eexists _, _. apply (getOrPut_inserted k m b p e q); auto;
      first [apply Hg | apply Inv_above_closed, HI | lia].
Qed.

Lemma put_returns m k v :
  Inv m -> good k -> last_slot_empty m -> (len m < CAPACITY)%Z ->
  exists m', put k v m = (m', Return tt).
Proof.
  intros HI Hg Hlast Hroom.
  destruct (probe_exists m k HI Hg Hlast) as (b & p & e & Hb & Hp & Hpx).
  destruct (decide (key e = k)) as [Hke | Hne].
  - eexists. eapply put_found_at; eauto.
  - destruct (hole_exists (entries m) p (length (entries m) - 1) Hpx Hlast)
      as (q & Hq & Hfull & Hhole).
    eexists. apply (put_inserted_at k v m b p e q); auto;
      first [apply Hg | apply Inv_above_closed, HI | lia].
Qed.

Lemma del_returns m k :
  Inv m -> good k -> last_slot_empty m -> exists m' r, del k m = (m', Return r).
Proof.
  intros HI Hg Hlast.
  destruct (probe_exists m k HI Hg Hlast) as (b & p & e & Hb & Hp & Hpx).
  destruct (decide (key e = k)) as [Hke | Hne].
  - assert (p <> length (entries m) - 1) as Hpl.
    { intros ->. destruct Hlast as (el & Hel & Hempty).
      destruct Hp as (_ & _ & He & _). rewrite He in Hel. injection Hel as <-.
      rewrite Hke in Hempty. revert Hempty. apply legal_not_EMPTY, Hg. }
    destruct (shift_stop_exists (entries m) p (length (entries m) - 2))
      as (g & Hstop & _); [lia | |].
    { replace (S (length (entries m) - 2)) with (length (entries m) - 1) by lia.
      exact Hlast. }
    eexists _, _. eapply del_removed_at; eauto.
  - eexists _, _. eapply del_absent_at; eauto.
Qed.

(** C5, amended.  For a legal key whose first byte is at most 0x7F, on a
    reachable state whose last slot holds the sentinel, the loops of
    [get], [getOrPut] (when [len < CAPACITY]) and [del] end by returning:
    the probe reaches an entry that is not below the key at an index
    inside the array, and no read falls outside it. *)
Theorem loops_return_inside_the_array m k :
  reachable m -> legal k -> (charCodeAt0 k 0 <= 127)%Z -> last_slot_empty m ->
  (exists r, get k m = Return r) /\
  ((len m < CAPACITY)%Z -> exists m' r, getOrPut k m = (m', Return r)) /\
  (exists m' r, del k m = (m', Return r)) /\
  (exists p e, (hashToIndex (hash k) <= p < CAPACITY + OVERFLOW)%Z /\
               arr_get (entries m) p = Some e /\ str_ge (key e) k = true).
Proof.
  intros Hr Hl H0 Hlast. pose proof (reachable_Inv m Hr) as HI.
  assert (good k) as Hg by (split; assumption).
  destruct (probe_exists m k HI Hg Hlast) as (b & p & e & Hb & Hp & Hpx).
  split; [| split; [| split]].
  - rewrite (get_at k m b p e Hb Hp). destruct (str_eq (key e) k); eauto.
  - intros Hroom. apply getOrPut_returns; assumption.
  - apply del_returns; assumption.
  - exists (Z.of_nat p), e. pose proof (Inv_length m HI) as HL.
    pose proof (probe_stop_lt_length _ _ _ _ _ Hp) as Hplen.
    destruct Hp as (Hbp & _ & He & Hge).
    rewrite bucket_unfold, table_length, arr_get_nat. repeat split; auto; lia.
Qed.

Lemma init_last_slot_empty : last_slot_empty init.
Proof.
  exists empty_entry. split; [| exact eq_refl].
  cbn [init entries]. rewrite length_replicate.
  apply lookup_replicate_2. pose proof TABLE_big. lia.
Qed.

Lemma loops_return_inside_the_array_witness :
  (exists r, get [0; 0; 0]%Z init = Return r) /\
  ((len init < CAPACITY)%Z -> exists m' r, getOrPut [0; 0; 0]%Z init = (m', Return r)) /\
  (exists m' r, del [0; 0; 0]%Z init = (m', Return r)) /\
  (exists p e, (hashToIndex (hash [0; 0; 0]%Z) <= p < CAPACITY + OVERFLOW)%Z /\
               arr_get (entries init) p = Some e /\
               str_ge (key e) [0; 0; 0]%Z = true).
Proof.
  apply loops_return_inside_the_array.
  - constructor.
  - repeat constructor; lia.
  - vm_compute. discriminate.
  - exact init_last_slot_empty.
Defined.

Lemma legal_crowd_next : legal [127; 254; 254; 5; 76; 104; 100]%Z.
Proof. repeat constructor; lia. Qed.

Lemma crowd_fills : crowd_base + crowd_count = TABLE.
Proof.
  pose proof TABLE_val. pose proof crowd_base_val. pose proof crowd_count_val. lia.
Qed.

Lemma crowd_small : (Z.of_nat crowd_count < 268435456)%Z.
Proof. rewrite crowd_count_val. lia. Qed.

Lemma crowd_room : (Z.of_nat crowd_count < CAPACITY)%Z.
Proof. rewrite crowd_count_val, CAPACITY_val. lia. Qed.

Lemma crowded_get :
  get [127; 254; 254; 5; 76; 104; 100]%Z crowded_map = Throw TypeError.
Proof.
  rewrite <- crowd_next_key.
  exact (fam_get_runs_off [127; 254; 254]%Z [118%Z] crowd_base eq_refl
           bucket_crowd_prefix crowd_count crowd_fills crowd_small).
Qed.

Lemma crowded_getOrPut :
  getOrPut [127; 254; 254; 5; 76; 104; 100]%Z crowded_map
  = (crowded_map, Throw TypeError).
Proof.
  rewrite <- crowd_next_key.
  exact (fam_getOrPut_runs_off [127; 254; 254]%Z [118%Z] crowd_base eq_refl
           bucket_crowd_prefix crowd_count crowd_fills crowd_small crowd_room).
Qed.

Lemma crowded_put w :
  put [127; 254; 254; 5; 76; 104; 100]%Z w crowded_map
  = (crowded_map, Throw TypeError).
Proof.
  rewrite <- crowd_next_key.
  exact (fam_put_runs_off [127; 254; 254]%Z [118%Z] crowd_base eq_refl
           bucket_crowd_prefix crowd_count w crowd_fills crowd_small crowd_room).
Qed.

Lemma crowded_del :
  del [127; 254; 254; 5; 76; 104; 100]%Z crowded_map
  = (crowded_map, Throw TypeError).
Proof.
  rewrite <- crowd_next_key.
  exact (fam_del_runs_off [127; 254; 254]%Z [118%Z] crowd_base eq_refl
           bucket_crowd_prefix crowd_count crowd_fills crowd_small).
Qed.

(** C5 as stated fails.  [crowded_map] is reached by 11744356 calls of
    [put], on keys that all have the ideal bucket 8388350; they fill the
    array from that slot to its last one, with [len <= CAPACITY].  The
    probe of [get], [getOrPut] and [del] for the next such key steps over
    all of them and reads [entries[20132706]], one past the end. *)
Lemma probe_runs_past_the_end :
  reachable crowded_map /\ (len crowded_map <= CAPACITY)%Z /\
  legal [127; 254; 254; 5; 76; 104; 100]%Z /\
  get [127; 254; 254; 5; 76; 104; 100]%Z crowded_map = Throw TypeError /\
  snd (getOrPut [127; 254; 254; 5; 76; 104; 100]%Z crowded_map) = Throw TypeError /\
  snd (del [127; 254; 254; 5; 76; 104; 100]%Z crowded_map) = Throw TypeError.
Proof.
  split; [exact crowded_map_reachable |].
  split; [rewrite crowded_map_len, CAPACITY_val; lia |].
  split; [exact legal_crowd_next |].
  split; [exact crowded_get |].
  rewrite crowded_getOrPut, crowded_del. split; exact eq_refl.
Qed.

(** ** A call that throws midway

    [reachable] follows the calls that return.  A call that throws leaves
    the state as it was when it throws at its guard or at its first read;
    the shift loop of [del] can also throw after it has copied entries.
    On [crowded_map], [del] of the first key throws when it reads past
    the end, and the array it leaves holds its last entry twice. *)
Lemma throwing_del_leaves_last_entry_twice :
  exists m' e,
    del [127; 254; 254; 0; 0; 0; 0]%Z crowded_map = (m', Throw TypeError) /\
    entries m' !! (TABLE - 2) = Some e /\ entries m' !! (TABLE - 1) = Some e /\
    occupied e = true /\ len m' = len crowded_map.
Proof.
  assert (2 <= crowd_count) as H2 by (pose proof crowd_count_val; lia).
  destruct (fam_del_first_throws [127; 254; 254]%Z [118%Z] crowd_base
              good_crowd_prefix eq_refl bucket_crowd_prefix crowd_count
              crowd_fills H2 crowd_small)
    as (m' & e & Hdel & He1 & He2 & Ho & Hlen).
  exists m', e. split; [exact Hdel |]. split; [exact He1 |].
  split; [exact He2 |]. split; [apply occupied_true, Ho | exact Hlen].
Qed.

(** Keys of the occupied entries that ascend strictly in the order of
    the scan: any two occupied slots are in order. *)
Lemma scan_sorted_inv (es : list Entry) :
  StronglySorted str_lt (key <$> filter (fun e => occupied e = true) es) ->
  forall i j ei ej, i < j -> es !! i = Some ei -> es !! j = Some ej ->
    occupied ei = true -> occupied ej = true -> str_lt (key ei) (key ej).
Proof.
  induction es as [| e es IH]; intros Hs i j ei ej Hij Hi Hj Hoi Hoj.
  - rewrite lookup_nil in Hi. discriminate.
  - destruct j as [| j]; [lia |]. cbn in Hj.
    rewrite filter_cons in Hs. case_decide as Ho.
    + rewrite fmap_cons in Hs. apply StronglySorted_inv in Hs as [Hs Hall].
      destruct i as [| i]; cbn in Hi.
      * injection Hi as <-.
        rewrite Forall_fmap, Forall_forall in Hall.
        apply (Hall ej). apply list_elem_of_filter. split; [exact Hoj |].
        apply list_elem_of_lookup. eauto.
      * apply (IH Hs i j); auto. lia.
    + destruct i as [| i]; cbn in Hi.
      * injection Hi as <-. contradiction.
      * apply (IH Hs i j); auto. lia.
Qed.

(** C6 as stated fails.  [crowded_map] is reached by calls of [put] on
    legal keys.  [del] of its first key, a legal key that it holds, copies
    every later entry down by one slot and then throws when it reads
    [entries[20132706]], one past the end: the last entry is left in the
    last two slots.  After this sequence of inserts and one delete the
    occupied entries do not ascend strictly, and the keys that
    [scanAscending] yields are not in strictly increasing order. *)
Lemma throwing_del_breaks_the_order :
  reachable crowded_map /\ legal [127; 254; 254; 0; 0; 0; 0]%Z /\
  exists m',
    del [127; 254; 254; 0; 0; 0; 0]%Z crowded_map = (m', Throw TypeError) /\
    ~ (forall i j ei ej, i < j ->
         entries m' !! i = Some ei -> entries m' !! j = Some ej ->
         occupied ei = true -> occupied ej = true -> str_lt (key ei) (key ej)) /\
    ~ StronglySorted str_lt (key <$> scanAscending m').
Proof.
  split; [exact crowded_map_reachable |].
  split; [repeat constructor; lia |].
  destruct throwing_del_leaves_last_entry_twice
    as (m' & e & Hdel & He1 & He2 & Ho & _).
  exists m'. split; [exact Hdel |].
  assert (~ (forall i j ei ej, i < j ->
               entries m' !! i = Some ei -> entries m' !! j = Some ej ->
               occupied ei = true -> occupied ej = true ->
               str_lt (key ei) (key ej))) as Hbreak.
  { intros H. pose proof TABLE_big as HT.
    assert (TABLE - 2 < TABLE - 1) as Hlt by lia.
    exact (str_lt_irrefl (key e) (H (TABLE - 2) (TABLE - 1) e e Hlt He1 He2 Ho Ho)). }
  split; [exact Hbreak |].
  intros Hs. apply Hbreak. apply scan_sorted_inv. exact Hs.
Qed.

Lemma get_after_put_found k v m b p e :
  bucket k = Z.of_nat b -> probe_stop k (entries m) b p e ->
  get k (mkMap (<[p := mkEntry k (Some v)]> (entries m)) (len m))
  = Return (Some (Some v)).
Proof.
  intros Hb Hp. pose proof (probe_stop_lt_length _ _ _ _ _ Hp) as Hlen.
  destruct Hp as (Hbp & Hbelow & He & Hge).
  rewrite (get_at k _ b p (mkEntry k (Some v)) Hb).
  - cbn [key value]. rewrite (proj2 (str_eq_true k k) eq_refl). exact eq_refl.
  - cbn [entries]. split; [lia |]. split; [| split].
    + intros j Hj. destruct (Hbelow j Hj) as (e' & He' & Hlt).
      exists e'. rewrite list_lookup_insert_ne by lia. auto.
    + apply list_lookup_insert_eq. lia.
    + cbn [key]. apply str_ge_true. left. exact eq_refl.
Qed.

Lemma get_after_put_inserted k v m b p e q n :
  bucket k = Z.of_nat b -> probe_stop k (entries m) b p e ->
  p <= q -> q < length (entries m) ->
  get k (mkMap (shift_in (entries m) p q (mkEntry k (Some v))) n)
  = Return (Some (Some v)).
Proof.
  intros Hb Hp Hpq Hq. destruct Hp as (Hbp & Hbelow & He & Hge).
  rewrite (get_at k _ b p (mkEntry k (Some v)) Hb).
  - cbn [key value]. rewrite (proj2 (str_eq_true k k) eq_refl). exact eq_refl.
  - cbn [entries]. split; [lia |]. split; [| split].
    + intros j Hj. destruct (Hbelow j Hj) as (e' & He' & Hlt).
      exists e'. rewrite lookup_shift_in by lia. split; [idx_cases | exact Hlt].
    + rewrite lookup_shift_in by lia. idx_cases.
    + cbn [key]. apply str_ge_true. left. exact eq_refl.
Qed.

(** C8, amended.  On a reachable state that is not full, for a legal key
    [k] and a value [v]: if [put k v] returns, then [get k] on the state
    it leaves returns [v]; and [put k v] does return when the first byte
    of [k] is at most 0x7F and the last slot of the array holds the
    sentinel. *)
Theorem put_then_get m k v :
  reachable m -> legal k -> (len m < CAPACITY)%Z ->
  (forall m', put k v m = (m', Return tt) -> get k m' = Return (Some (Some v))) /\
  ((charCodeAt0 k 0 <= 127)%Z -> last_slot_empty m ->
   exists m', put k v m = (m', Return tt)).
Proof.
  intros Hr Hl Hroom. pose proof (reachable_Inv m Hr) as HI. split.
  - intros m' H.
    destruct (put_inv _ _ _ _ HI Hl H)
      as (_ & Hg & b & p & e & Hb & Hp & [(Hke & ->) | Hins]).
    + eapply get_after_put_found; eauto.
    + destruct Hins as (_ & q & Hpq & _ & (eq & Heq & _) & -> & _).
      eapply get_after_put_inserted; eauto. eapply lookup_lt_Some, Heq.
  - intros H0 Hlast. apply put_returns; auto. split; assumption.
Qed.

Lemma put_then_get_witness :
  (forall m', put [0; 0; 0]%Z [49%Z] init = (m', Return tt) ->
              get [0; 0; 0]%Z m' = Return (Some (Some [49%Z]))) /\
  ((charCodeAt0 [0; 0; 0]%Z 0 <= 127)%Z -> last_slot_empty init ->
   exists m', put [0; 0; 0]%Z [49%Z] init = (m', Return tt)).
Proof.
  apply put_then_get.
  - constructor.
  - repeat constructor; lia.
  - cbn [init len]. rewrite CAPACITY_val. lia.
Defined.

(** C8 as stated fails.  [crowded_map] is reachable and not full
    ([len] is 11744356), the key is legal, and [put] does not return: its
    probe reads past the end of the array, so no [get] follows it. *)
Lemma put_on_crowded_map_throws :
  reachable crowded_map /\ (len crowded_map < CAPACITY)%Z /\
  legal [127; 254; 254; 5; 76; 104; 100]%Z /\
  put [127; 254; 254; 5; 76; 104; 100]%Z [49%Z] crowded_map
  = (crowded_map, Throw TypeError) /\
  get [127; 254; 254; 5; 76; 104; 100]%Z crowded_map = Throw TypeError.
Proof.
  split; [exact crowded_map_reachable |].
  split; [rewrite crowded_map_len, CAPACITY_val; lia |].
  split; [exact legal_crowd_next |].
  split; [apply crowded_put | exact crowded_get].
Qed.

(** C9, amended.  On a reachable state and for a legal key: when
    [len >= CAPACITY], [getOrPut] stops with MapFull, whether the key is
    present or not.  When [len < CAPACITY]: for a key present at slot [i]
    it returns [{exists: true, index: i}] and changes nothing; for an
    absent key, if it returns, it returns [{exists: false, index}], the
    slots before [index] are as before, slot [index] has changed and now
    holds the key (without a value), and [len] has grown by one; and for
    an absent key it does return when the first byte of the key is at
    most 0x7F and the last slot of the array holds the sentinel. *)
Theorem getOrPut_locates_or_inserts m k :
  reachable m -> legal k ->
  ((len m >= CAPACITY)%Z -> getOrPut k m = (m, Throw MapFull)) /\
  ((len m < CAPACITY)%Z ->
   (forall i e, arr_get (entries m) i = Some e -> key e = k ->
      getOrPut k m = (m, Return (mkSlot true i))) /\
   ((forall e, e ∈ entries m -> key e <> k) ->
    (forall m' r, getOrPut k m = (m', Return r) ->
       exists_ r = false /\
       arr_get (entries m') (index r) = Some (mkEntry k None) /\
       arr_get (entries m) (index r) <> arr_get (entries m') (index r) /\
       (forall j, (j < index r)%Z ->
          arr_get (entries m') j = arr_get (entries m) j) /\
       len m' = (len m + 1)%Z) /\
    ((charCodeAt0 k 0 <= 127)%Z -> last_slot_empty m ->
     exists m' r, getOrPut k m = (m', Return r)))).
Proof.
  intros Hr Hl. pose proof (reachable_Inv m Hr) as HI.
  split; [apply getOrPut_full |]. intros Hroom. split.
  - intros i e He Hke. apply arr_get_Some in He as (n & -> & He).
    assert (key e <> EMPTY_KEY) as Ho by (rewrite Hke; apply legal_not_EMPTY, Hl).
    destruct (present_probe_stop m n e HI He Ho) as (b & Hb & Hp).
    rewrite Hke in Hb, Hp. eapply getOrPut_found; eauto.
  - intros Habsent. split.
    + intros m' r H.
      destruct (getOrPut_inv _ _ _ _ HI Hl H)
        as (_ & Hg & b & p & e & Hb & Hp & [(Hke & _) | Hins]).
      { exfalso. destruct Hp as (_ & _ & He & _).
        apply (Habsent e); [| exact Hke]. apply list_elem_of_lookup. eauto. }
      destruct Hins as (Hne & q & Hpq & _ & (eq & Heq & _) & -> & ->).
      apply lookup_lt_Some in Heq. destruct Hp as (_ & _ & He & _).
      cbn [exists_ index entries len]. rewrite !arr_get_nat.
      split; [exact eq_refl |].
      split. { rewrite lookup_shift_in by lia. idx_cases. }
      split. { rewrite He, lookup_shift_in by lia.
               repeat case_decide; try lia. intros [= E]. apply Hne. rewrite E.
               exact eq_refl. }
      split; [| exact eq_refl].
      intros j Hj. destruct (Z.lt_ge_cases j 0) as [Hneg | Hpos].
      * rewrite !arr_get_neg by lia. exact eq_refl.
      * replace j with (Z.of_nat (Z.to_nat j)) by lia. rewrite !arr_get_nat.
        rewrite lookup_shift_in by lia. idx_cases.
    + intros H0 Hlast. apply getOrPut_returns; auto. split; assumption.
Qed.

Lemma getOrPut_locates_or_inserts_witness :
  ((len one_map >= CAPACITY)%Z ->
   getOrPut [0; 0; 0]%Z one_map = (one_map, Throw MapFull)) /\
  ((len one_map < CAPACITY)%Z ->
   (forall i e, arr_get (entries one_map) i = Some e -> key e = [0; 0; 0]%Z ->
      getOrPut [0; 0; 0]%Z one_map = (one_map, Return (mkSlot true i))) /\
   ((forall e, e ∈ entries one_map -> key e <> [0; 0; 0]%Z) ->
    (forall m' r, getOrPut [0; 0; 0]%Z one_map = (m', Return r) ->
       exists_ r = false /\
       arr_get (entries m') (index r) = Some (mkEntry [0; 0; 0]%Z None) /\
       arr_get (entries one_map) (index r) <> arr_get (entries m') (index r) /\
       (forall j, (j < index r)%Z ->
          arr_get (entries m') j = arr_get (entries one_map) j) /\
       len m' = (len one_map + 1)%Z) /\
    ((charCodeAt0 [0; 0; 0]%Z 0 <= 127)%Z -> last_slot_empty one_map ->
     exists m' r, getOrPut [0; 0; 0]%Z one_map = (m', Return r)))).
Proof.
  apply getOrPut_locates_or_inserts.
  - exact one_map_reachable.
  - repeat constructor; lia.
Defined.

Lemma crowded_absent e :
  e ∈ entries crowded_map -> key e <> [127; 254; 254; 5; 76; 104; 100]%Z.
Proof.
  rewrite <- crowd_next_key.
  apply (fam_absent [127; 254; 254]%Z [118%Z] crowd_base);
    [exact good_crowd_prefix | exact eq_refl | exact crowd_small].
Qed.

(** C9 as stated fails, in both of its parts.  [full_map] is reached by
    [CAPACITY] calls of [put]; the key 00 00 00 00 00 00 00 is in its slot
    0, and [getOrPut] of that key does not return
    [{exists: true, index: 0}]: it stops with MapFull.  [crowded_map] has
    [len < CAPACITY] and does not hold the legal key 7F FE FE 05 4C 68 64;
    [getOrPut] of that key does not return [{exists: false, index}]: its
    probe reads past the end of the array. *)
Lemma getOrPut_throws_instead_of_returning :
  (reachable full_map /\ len full_map = CAPACITY /\
   arr_get (entries full_map) 0
     = Some (mkEntry [0; 0; 0; 0; 0; 0; 0]%Z (Some [118%Z])) /\
   getOrPut [0; 0; 0; 0; 0; 0; 0]%Z full_map = (full_map, Throw MapFull)) /\
  (reachable crowded_map /\ (len crowded_map < CAPACITY)%Z /\
   legal [127; 254; 254; 5; 76; 104; 100]%Z /\
   (forall e, e ∈ entries crowded_map ->
              key e <> [127; 254; 254; 5; 76; 104; 100]%Z) /\
   getOrPut [127; 254; 254; 5; 76; 104; 100]%Z crowded_map
   = (crowded_map, Throw TypeError)).
Proof.
  split.
  - split; [exact full_map_reachable |].
    split; [exact full_map_len |].
    split; [exact full_map_first |].
    apply getOrPut_full. rewrite full_map_len. lia.
  - split; [exact crowded_map_reachable |].
    split; [rewrite crowded_map_len, CAPACITY_val; lia |].
    split; [exact legal_crowd_next |].
    split; [exact crowded_absent | exact crowded_getOrPut].
Qed.

Lemma MapFull_iff_full_witness :
  (snd (put [0; 0; 1]%Z [49%Z] full_map) = Throw MapFull
   <-> len full_map = CAPACITY) /\
  (snd (getOrPut [0; 0; 1]%Z full_map) = Throw MapFull
   <-> len full_map = CAPACITY) /\
  (len full_map = CAPACITY ->
   put [0; 0; 1]%Z [49%Z] full_map = (full_map, Throw MapFull) /\
   getOrPut [0; 0; 1]%Z full_map = (full_map, Throw MapFull)).
Proof.
  apply MapFull_iff_full. exact full_map_reachable.
Defined.

(** C3 as stated fails.  On [full_map], where [len == CAPACITY], [put] of
    the key that is in slot 0 does not overwrite its value: it stops with
    MapFull, as for a new key. *)
Lemma put_of_present_key_throws_when_full :
  reachable full_map /\ len full_map = CAPACITY /\
  arr_get (entries full_map) 0
    = Some (mkEntry [0; 0; 0; 0; 0; 0; 0]%Z (Some [118%Z])) /\
  put [0; 0; 0; 0; 0; 0; 0]%Z [119%Z] full_map = (full_map, Throw MapFull).
Proof.
  split; [exact full_map_reachable |].
  split; [exact full_map_len |].
  split; [exact full_map_first |].
  apply put_full. rewrite full_map_len. lia.
Qed.

(** * The fuel of the model is never exhausted *)

Lemma arr_get_lt es i e : arr_get es i = Some e -> (0 <= i < Z.of_nat (length es))%Z.
Proof.
  intros H. apply arr_get_Some in H as (n & -> & H).
  apply lookup_lt_Some in H. lia.
Qed.

Lemma length_arr_set es i x : length (arr_set es i x) = length es.
Proof.
  unfold arr_set. destruct (i <? 0)%Z; [exact eq_refl | apply length_insert].
Qed.

Lemma get_loop_fuel fuel k es i :
  (Z.of_nat (length es) < Z.of_nat fuel + i)%Z -> 0 < fuel ->
  get_loop fuel k es i <> OutOfFuel.
Proof.
  revert i. induction fuel as [| fuel IH]; intros i Hf Hpos; [lia |].
  cbn [get_loop]. destruct (arr_get es i) as [e |] eqn:He; [| discriminate].
  apply arr_get_lt in He.
  destruct (str_ge (key e) k); [destruct (str_eq (key e) k); discriminate |].
  apply IH; lia.
Qed.

Lemma del_find_fuel fuel k es i :
  (Z.of_nat (length es) < Z.of_nat fuel + i)%Z -> 0 < fuel ->
  del_find fuel k es i <> OutOfFuel.
Proof.
  revert i. induction fuel as [| fuel IH]; intros i Hf Hpos; [lia |].
  cbn [del_find]. destruct (arr_get es i) as [e |] eqn:He; [| discriminate].
  apply arr_get_lt in He.
  destruct (str_ge (key e) k); [destruct (str_eq (key e) k); discriminate |].
  apply IH; lia.
Qed.

Lemma gop_loop_fuel fuel k it ins i m :
  (Z.of_nat (length (entries m)) < Z.of_nat fuel + i)%Z -> 0 < fuel ->
  snd (getOrPut_loop fuel k it ins i m) <> OutOfFuel.
Proof.
  revert it ins i m. induction fuel as [| fuel IH]; intros it ins i m Hf Hpos; [lia |].
  cbn [getOrPut_loop].
  destruct (arr_get (entries m) i) as [e |] eqn:He; [| discriminate].
  apply arr_get_lt in He.
  destruct (str_ge (key e) k); [| apply IH; lia].
  destruct (str_eq (key e) k); [discriminate |].
  destruct (str_eq (key e) EMPTY_KEY); [discriminate |].
  apply IH; cbn [entries]; rewrite ?length_arr_set; lia.
Qed.

Lemma del_shift_fuel fuel es i :
  (Z.of_nat (length es) <= Z.of_nat fuel + i)%Z -> 0 < fuel ->
  snd (del_shift fuel es i) <> OutOfFuel.
Proof.
  revert es i. induction fuel as [| fuel IH]; intros es i Hf Hpos; [lia |].
  cbn [del_shift].
  destruct (arr_get es (i + 1)) as [e |] eqn:He; [| discriminate].
  apply arr_get_lt in He.
  destruct ((i <? hashToIndex (hash (key e)))%Z || str_eq (key e) EMPTY_KEY);
    [discriminate |].
  apply IH; rewrite ?length_arr_set; lia.
Qed.

(** [get] never stops for lack of fuel. *)
Theorem get_fuel_enough k m : get k m <> OutOfFuel.
Proof.
  unfold get, rounds. rewrite bucket_unfold.
  destruct (Z.lt_ge_cases (bucket k) 0) as [Hneg | Hpos].
  - cbn [get_loop]. rewrite arr_get_neg by exact Hneg. discriminate.
  - apply get_loop_fuel; lia.
Qed.

(** [getOrPut] never stops for lack of fuel. *)
Theorem getOrPut_fuel_enough k m : snd (getOrPut k m) <> OutOfFuel.
Proof.
  unfold getOrPut, rounds. rewrite bucket_unfold.
  destruct (len m >=? CAPACITY)%Z; [discriminate |].
  destruct (Z.lt_ge_cases (bucket k) 0) as [Hneg | Hpos].
  - rewrite gop_loop_neg by exact Hneg. discriminate.
  - apply gop_loop_fuel; lia.
Qed.

(** [put] never stops for lack of fuel. *)
Theorem put_fuel_enough k v m : snd (put k v m) <> OutOfFuel.
Proof.
  pose proof (getOrPut_fuel_enough k m) as H. unfold put.
  destruct (getOrPut k m) as [m1 [r | err |]]; cbn [snd] in *.
  - destruct (arr_get (entries m1) (index r)); discriminate.
  - discriminate.
  - congruence.
Qed.

(** [del] never stops for lack of fuel. *)
Theorem del_fuel_enough k m : snd (del k m) <> OutOfFuel.
Proof.
  unfold del, rounds. rewrite bucket_unfold.
  assert (del_find (S (length (entries m))) k (entries m) (bucket k) <> OutOfFuel)
    as Hfind.
  { destruct (Z.lt_ge_cases (bucket k) 0) as [Hneg | Hpos].
    - rewrite del_find_neg by exact Hneg. discriminate.
    - apply del_find_fuel; lia. }
  destruct (del_find (S (length (entries m))) k (entries m) (bucket k))
    as [[i |] | err |] eqn:Hf; try discriminate; [| congruence].
  destruct (arr_get (entries m) i) as [e |] eqn:He; [| discriminate].
  apply arr_get_lt in He.
  pose proof (del_shift_fuel (S (length (entries m))) (entries m) i
                ltac:(lia) ltac:(lia)) as Hshift.
  destruct (del_shift (S (length (entries m))) (entries m) i) as [es [g | err |]];
    cbn [snd] in *; try discriminate. congruence.
Qed.

(** * Lookup *)

Example String_12 : String_ 12 = [49; 50]%Z.
Proof. vm_compute. exact eq_refl. Qed.

Example String_0 : String_ 0 = [48%Z].
Proof. vm_compute. exact eq_refl. Qed.

Lemma get_loop_inv fuel k es i r :
  get_loop fuel k es (Z.of_nat i) = Return r ->
  exists p e, probe_stop k es i p e /\
              r = if str_eq (key e) k then Some (value e) else None.
Proof.
  revert i. induction fuel as [| fuel IH]; intros i; [discriminate |].
  cbn [get_loop]. rewrite arr_get_nat.
  destruct (es !! i) as [e |] eqn:He; [| discriminate].
  destruct (str_ge (key e) k) eqn:Hge.
  - intros H. exists i, e. split.
    + split; [lia |]. split; [intros j Hj; lia | auto].
    + destruct (str_eq (key e) k); congruence.
  - rewrite of_nat_succ. intros H. apply IH in H as (p & e' & Hp & Hr).
    exists p, e'. split; [| exact Hr].
    destruct Hp as (Hip & Hb & Hp).
    split; [lia |]. split; [| exact Hp].
    intros j Hj. destruct (decide (j = i)) as [-> | Hne].
    + exists e. split; [exact He | apply str_ge_false, Hge].
    + apply Hb. lia.
Qed.

Lemma get_loop_neg fuel k es i :
  (i < 0)%Z -> get_loop (S fuel) k es i = Throw TypeError.
Proof. intros H. cbn [get_loop]. rewrite arr_get_neg by exact H. exact eq_refl. Qed.

Lemma get_inv k m r :
  get k m = Return r ->
  exists b p e, bucket k = Z.of_nat b /\ probe_stop k (entries m) b p e /\
                r = if str_eq (key e) k then Some (value e) else None.
Proof.
  unfold get, rounds. rewrite bucket_unfold. intros H.
  assert (0 <= bucket k)%Z as Hb.
  { destruct (Z.le_gt_cases 0 (bucket k)) as [Hb | Hb]; [exact Hb |].
    rewrite get_loop_neg in H by lia. discriminate. }
  replace (bucket k) with (Z.of_nat (Z.to_nat (bucket k))) in H by lia.
  apply get_loop_inv in H as (p & e & Hp & Hr).
  exists (Z.to_nat (bucket k)), p, e. split; [lia |]. auto.
Qed.

(** A probe has one stop. *)
Lemma probe_stop_unique k es i p e p' e' :
  probe_stop k es i p e -> probe_stop k es i p' e' -> p = p' /\ e = e'.
Proof.
  intros (Hip & Hb & He & Hge) (Hip' & Hb' & He' & Hge').
  assert (p = p') as <-.
  { destruct (Nat.lt_trichotomy p p') as [Hlt | [Heq | Hgt]]; [| exact Heq |].
    - destruct (Hb' p) as (x & Hx & Hlt'); [lia |].
      rewrite He in Hx. injection Hx as <-.
      apply str_ge_false in Hlt'. congruence.
    - destruct (Hb p') as (x & Hx & Hlt'); [lia |].
      rewrite He' in Hx. injection Hx as <-.
      apply str_ge_false in Hlt'. congruence. }
  split; [exact eq_refl | congruence].
Qed.

(** In a state that keeps the invariant, the probe for a legal key stops
    at the key if the key is in the table at all. *)
Lemma probe_stop_decides m k b p e :
  Inv m -> legal k -> bucket k = Z.of_nat b -> probe_stop k (entries m) b p e ->
  key e <> k -> absent m k.
Proof.
  intros HI Hl Hb Hp Hne x Hx Hk.
  apply list_elem_of_lookup in Hx as [j Hj].
  assert (key x <> EMPTY_KEY) as Ho by (rewrite Hk; apply legal_not_EMPTY, Hl).
  destruct (present_probe_stop m j x HI Hj Ho) as (b' & Hb' & Hp').
  rewrite Hk in Hb', Hp'. assert (b' = b) as -> by lia.
  destruct (probe_stop_unique _ _ _ _ _ _ _ Hp Hp') as [_ ->]. contradiction.
Qed.

Lemma get_Some_iff_stored m k w :
  Inv m -> legal k -> get k m = Return (Some w) <-> stored m k w.
Proof.
  intros HI Hl. split.
  - intros H. apply get_inv in H as (b & p & e & Hb & Hp & Hr).
    destruct (str_eq (key e) k) eqn:Heq; [| discriminate].
    apply str_eq_true in Heq. injection Hr as ->.
    exists p, e. destruct Hp as (_ & _ & He & _). auto.
  - intros (i & e & He & Hk & Hw).
    assert (key e <> EMPTY_KEY) as Ho by (rewrite Hk; apply legal_not_EMPTY, Hl).
    destruct (present_probe_stop m i e HI He Ho) as (b & Hb & Hp).
    rewrite Hk in Hb, Hp. rewrite (get_at k m b i e Hb Hp).
    rewrite (proj2 (str_eq_true _ _) Hk), Hw. exact eq_refl.
Qed.

Lemma get_None_iff_absent m k r :
  Inv m -> legal k -> get k m = Return r -> r = None <-> absent m k.
Proof.
  intros HI Hl H. apply get_inv in H as (b & p & e & Hb & Hp & ->).
  destruct (str_eq (key e) k) eqn:Heq.
  - apply str_eq_true in Heq. split; [discriminate |].
    intros Ha. exfalso. apply (Ha e); [| exact Heq].
    destruct Hp as (_ & _ & He & _). apply list_elem_of_lookup. eauto.
  - apply str_eq_false in Heq. split; [| auto].
    intros _. eapply probe_stop_decides; eauto.
Qed.

(** X1.  In a reachable state, [get] of a legal key returns a value exactly
    when a slot of the table holds the key with that value. *)
Theorem get_returns_the_stored_value m k w :
  reachable m -> legal k -> get k m = Return (Some w) <-> stored m k w.
Proof.
  intros Hr Hl. apply get_Some_iff_stored; [apply reachable_Inv, Hr | exact Hl].
Qed.

Lemma get_returns_the_stored_value_witness :
  get [0; 0; 0]%Z one_map = Return (Some (Some [49%Z]))
  <-> stored one_map [0; 0; 0]%Z (Some [49%Z]).
Proof.
  apply get_returns_the_stored_value.
  - exact one_map_reachable.
  - repeat constructor; lia.
Defined.

(** X2.  In a reachable state, when [get] of a legal key returns, it
    returns [null] exactly when no slot of the table holds the key. *)
Theorem get_returns_null_iff_absent m k r :
  reachable m -> legal k -> get k m = Return r -> r = None <-> absent m k.
Proof.
  intros Hr Hl. apply get_None_iff_absent; [apply reachable_Inv, Hr | exact Hl].
Qed.

Lemma get_001_one_map : get [0; 0; 1]%Z one_map = Return None.
Proof.
  pose proof TABLE_big.
  rewrite (get_at [0; 0; 1]%Z one_map 1 1 empty_entry).
  - vm_compute. exact eq_refl.
  - vm_compute. exact eq_refl.
  - split; [lia |]. split; [intros j Hj; lia |]. split.
    + apply one_map_empty. lia.
    + vm_compute. exact eq_refl.
Qed.

Lemma get_returns_null_iff_absent_witness :
  @None (option jsstring) = None <-> absent one_map [0; 0; 1]%Z.
Proof.
  apply (get_returns_null_iff_absent one_map [0; 0; 1]%Z None).
  - exact one_map_reachable.
  - repeat constructor; lia.
  - exact get_001_one_map.
Defined.

(** * What the table holds after a call *)

Section Members.
Context {A : Type}.
Implicit Types (l : list A) (x y : A).

Lemma elem_of_shift_in l p q y x :
  p <= q < length l ->
  x ∈ shift_in l p q y <-> x = y \/ exists j, j <> q /\ l !! j = Some x.
Proof.
  intros H. rewrite list_elem_of_lookup. split.
  - intros [j Hj]. rewrite lookup_shift_in in Hj by lia.
    repeat case_decide.
    + right. exists j. split; [lia | exact Hj].
    + left. congruence.
    + right. exists (j - 1). split; [lia | exact Hj].
    + right. exists j. split; [lia | exact Hj].
  - intros [-> | (j & Hjq & Hj)].
    + exists p. rewrite lookup_shift_in by lia. idx_cases.
    + pose proof (lookup_lt_Some _ _ _ Hj) as Hlt.
      destruct (decide (j < p)) as [Hjp | Hjp].
      * exists j. rewrite lookup_shift_in by lia. idx_cases.
      * destruct (decide (j < q)) as [Hlq | Hlq].
        -- exists (S j). rewrite lookup_shift_in by lia.
           repeat case_decide; try lia. rewrite <- Hj. f_equal. lia.
        -- exists j. rewrite lookup_shift_in by lia. idx_cases.
Qed.

Lemma elem_of_shift_out l p g y x :
  p <= g < length l ->
  x ∈ shift_out l p g y <-> x = y \/ exists j, j <> p /\ l !! j = Some x.
Proof.
  intros H. rewrite list_elem_of_lookup. split.
  - intros [j Hj]. rewrite lookup_shift_out in Hj by lia.
    repeat case_decide.
    + right. exists j. split; [lia | exact Hj].
    + right. exists (S j). split; [lia | exact Hj].
    + left. congruence.
    + right. exists j. split; [lia | exact Hj].
  - intros [-> | (j & Hjp & Hj)].
    + exists g. rewrite lookup_shift_out by lia. idx_cases.
    + pose proof (lookup_lt_Some _ _ _ Hj) as Hlt.
      destruct (decide (j < p)) as [Hlp | Hlp].
      * exists j. rewrite lookup_shift_out by lia. idx_cases.
      * destruct (decide (j <= g)) as [Hlg | Hlg].
        -- exists (j - 1). rewrite lookup_shift_out by lia.
           repeat case_decide; try lia. rewrite <- Hj. f_equal. lia.
        -- exists j. rewrite lookup_shift_out by lia. idx_cases.
Qed.

Lemma elem_of_insert_at l p y x :
  p < length l ->
  x ∈ <[p := y]> l <-> x = y \/ exists j, j <> p /\ l !! j = Some x.
Proof.
  intros H. rewrite list_elem_of_lookup. split.
  - intros [j Hj]. destruct (decide (j = p)) as [-> | Hne].
    + rewrite list_lookup_insert_eq in Hj by lia. left. congruence.
    + rewrite list_lookup_insert_ne in Hj by lia. right. eauto.
  - intros [-> | (j & Hjp & Hj)].
    + exists p. apply list_lookup_insert_eq. lia.
    + exists j. rewrite list_lookup_insert_ne by lia. exact Hj.
Qed.
End Members.

Lemma elem_of_scan m e :
  e ∈ scanAscending m <-> e ∈ entries m /\ occupied e = true.
Proof. unfold scanAscending. rewrite list_elem_of_filter. tauto. Qed.

(** No key is in two slots. *)
Lemma keys_unique m i j e e' :
  Inv m -> entries m !! i = Some e -> entries m !! j = Some e' ->
  key e <> EMPTY_KEY -> key e = key e' -> i = j.
Proof.
  intros [HK _] He He' Ho Hk.
  assert (key e' <> EMPTY_KEY) as Ho' by congruence.
  pose proof (lookup_key_of _ _ _ He) as Hki.
  pose proof (lookup_key_of _ _ _ He') as Hkj.
  destruct (Nat.lt_trichotomy i j) as [Hlt | [Heq | Hgt]]; [| exact Heq |]; exfalso.
  - pose proof (kinv_sorted _ HK i j _ _ Hlt Hki Hkj Ho Ho') as H.
    rewrite Hk in H. exact (str_lt_irrefl _ H).
  - pose proof (kinv_sorted _ HK j i _ _ Hgt Hkj Hki Ho' Ho) as H.
    rewrite Hk in H. exact (str_lt_irrefl _ H).
Qed.

Lemma stored_iff_scan m k w :
  legal k ->
  stored m k w <-> exists e, e ∈ scanAscending m /\ key e = k /\ value e = w.
Proof.
  intros Hl. split.
  - intros (i & e & He & Hk & Hw). exists e. split; [| auto].
    apply elem_of_scan. split; [apply list_elem_of_lookup; eauto |].
    apply occupied_true. rewrite Hk. apply legal_not_EMPTY, Hl.
  - intros (e & He & Hk & Hw). apply elem_of_scan in He as [He _].
    apply list_elem_of_lookup in He as [i Hi]. exists i, e. auto.
Qed.

Lemma scan_after_put_inv m k v m' :
  Inv m -> legal k -> put k v m = (m', Return tt) ->
  forall e, e ∈ scanAscending m' <->
            e = mkEntry k (Some v) \/ (e ∈ scanAscending m /\ key e <> k).
Proof.
  intros HI Hl H e.
  assert (occupied (mkEntry k (Some v)) = true) as Hnew.
  { apply occupied_true. cbn [key]. apply legal_not_EMPTY, Hl. }
  destruct (put_inv _ _ _ _ HI Hl H)
    as (_ & Hg & b & p & e0 & Hb & Hp & [(Hke & ->) | Hins]).
  - pose proof (probe_stop_lt_length _ _ _ _ _ Hp) as Hlen.
    destruct Hp as (_ & _ & He0 & _).
    rewrite !elem_of_scan. cbn [entries]. rewrite elem_of_insert_at by exact Hlen.
    split.
    + intros [[-> | (j & Hjp & Hj)] Ho]; [left; reflexivity |].
      right. split; [split; [apply list_elem_of_lookup; eauto | exact Ho] |].
      intros Hk. apply Hjp.
      apply (keys_unique m j p e e0 HI Hj He0); [apply occupied_true, Ho | congruence].
    + intros [-> | [[He Ho] Hk]]; [split; [left; reflexivity | exact Hnew] |].
      split; [| exact Ho]. right.
      apply list_elem_of_lookup in He as [j Hj]. exists j. split; [| exact Hj].
      intros ->. congruence.
  - pose proof (probe_stop_decides m k b p e0 HI Hl Hb Hp (proj1 Hins)) as Habs.
    destruct Hins as (Hne & q & Hpq & _ & (eq & Heq & Hempty) & -> & _).
    pose proof (lookup_lt_Some _ _ _ Heq) as Hq.
    rewrite !elem_of_scan. cbn [entries]. rewrite elem_of_shift_in by lia.
    split.
    + intros [[-> | (j & Hjq & Hj)] Ho]; [left; reflexivity |].
      assert (e ∈ entries m) as He by (apply list_elem_of_lookup; eauto).
      right. split; [split; assumption | apply Habs, He].
    + intros [-> | [[He Ho] Hk]]; [split; [left; reflexivity | exact Hnew] |].
      split; [| exact Ho]. right.
      apply list_elem_of_lookup in He as [j Hj]. exists j. split; [| exact Hj].
      intros ->. apply occupied_true in Ho. congruence.
Qed.

Lemma del_find_None_inv fuel k es i :
  del_find fuel k es (Z.of_nat i) = Return None ->
  exists p e, probe_stop k es i p e /\ key e <> k.
Proof.
  revert i. induction fuel as [| fuel IH]; intros i; [discriminate |].
  cbn [del_find]. rewrite arr_get_nat.
  destruct (es !! i) as [e |] eqn:He; [| discriminate].
  destruct (str_ge (key e) k) eqn:Hge.
  - destruct (str_eq (key e) k) eqn:Heq; simpl; [discriminate |].
    intros _. exists i, e. apply str_eq_false in Heq.
    split; [| exact Heq]. split; [lia |]. split; [intros j Hj; lia | auto].
  - rewrite of_nat_succ. intros H. apply IH in H as (p & e' & Hp & Hk).
    exists p, e'. split; [| exact Hk].
    destruct Hp as (Hip & Hb & Hp).
    split; [lia |]. split; [| exact Hp].
    intros j Hj. destruct (decide (j = i)) as [-> | Hne].
    + exists e. split; [exact He | apply str_ge_false, Hge].
    + apply Hb. lia.
Qed.

Lemma del_None_inv k m m' :
  del k m = (m', Return None) ->
  m' = m /\ exists b p e, bucket k = Z.of_nat b /\
                          probe_stop k (entries m) b p e /\ key e <> k.
Proof.
  intros H. pose proof (del_inv k m m' None H) as Hm. cbn in Hm.
  split; [exact Hm |]. revert H. unfold del. rewrite bucket_unfold.
  destruct (del_find (rounds (entries m)) k (entries m) (bucket k))
    as [[i |] | err |] eqn:Hfind.
  - destruct (arr_get (entries m) i); [| discriminate].
    destruct (del_shift (rounds (entries m)) (entries m) i) as [es [g | err |]];
      discriminate.
  - intros _.
    assert (0 <= bucket k)%Z as Hb.
    { destruct (Z.le_gt_cases 0 (bucket k)) as [Hb | Hb]; [exact Hb |].
      unfold rounds in Hfind. rewrite del_find_neg in Hfind by lia. discriminate. }
    replace (bucket k) with (Z.of_nat (Z.to_nat (bucket k))) in Hfind by lia.
    apply del_find_None_inv in Hfind as (p & e & Hp & Hk).
    exists (Z.to_nat (bucket k)), p, e. split; [lia |]. auto.
  - discriminate.
  - discriminate.
Qed.

Lemma scan_after_del_inv m k m' r :
  Inv m -> legal k -> del k m = (m', Return r) ->
  forall e, e ∈ scanAscending m' <-> e ∈ scanAscending m /\ key e <> k.
Proof.
  intros HI Hl H e. destruct r as [w |].
  - apply del_inv in H as (b & p & g & e0 & (Hb & Hp & Hke & Hstop & ->) & _).
    assert (p <= g /\ S g < length (entries m)) as [Hpg Hg].
    { destruct Hstop as (Hpg & _ & e' & He' & _).
      split; [exact Hpg | eapply lookup_lt_Some, He']. }
    destruct Hp as (_ & _ & He0 & _).
    rewrite !elem_of_scan. cbn [entries]. rewrite elem_of_shift_out by lia.
    split.
    + intros [[-> | (j & Hjp & Hj)] Ho]; [discriminate Ho |].
      split; [split; [apply list_elem_of_lookup; eauto | exact Ho] |].
      intros Hk. apply Hjp.
      apply (keys_unique m j p e e0 HI Hj He0); [apply occupied_true, Ho | congruence].
    + intros [[He Ho] Hk]. split; [| exact Ho]. right.
      apply list_elem_of_lookup in He as [j Hj]. exists j. split; [| exact Hj].
      intros ->. congruence.
  - apply del_None_inv in H as (-> & b & p & e0 & Hb & Hp & Hne).
    pose proof (probe_stop_decides m k b p e0 HI Hl Hb Hp Hne) as Habs.
    split; [| tauto]. intros He. split; [exact He |].
    apply elem_of_scan in He as [He _]. apply Habs, He.
Qed.

(** X3.  After a [put] that returns, [scanAscending] yields the new entry
    and the entries it yielded before whose key is not the key put:
    nothing else appears and nothing else is lost. *)
Theorem scan_after_put m k v m' :
  reachable m -> legal k -> put k v m = (m', Return tt) ->
  forall e, e ∈ scanAscending m' <->
            e = mkEntry k (Some v) \/ (e ∈ scanAscending m /\ key e <> k).
Proof.
  intros Hr. apply scan_after_put_inv, reachable_Inv, Hr.
Qed.

Lemma scan_after_put_witness :
  mkEntry [0; 0; 0]%Z (Some [49%Z]) ∈ scanAscending one_map <->
  mkEntry [0; 0; 0]%Z (Some [49%Z]) = mkEntry [0; 0; 0]%Z (Some [49%Z])
  \/ (mkEntry [0; 0; 0]%Z (Some [49%Z]) ∈ scanAscending init /\
      key (mkEntry [0; 0; 0]%Z (Some [49%Z])) <> [0; 0; 0]%Z).
Proof.
  apply (scan_after_put init [0; 0; 0]%Z [49%Z] one_map).
  - constructor.
  - repeat constructor; lia.
  - exact one_map_put.
Defined.

(** X4.  After a [del] that returns, [scanAscending] yields exactly the
    entries it yielded before whose key is not the key deleted. *)
Theorem scan_after_del m k m' r :
  reachable m -> legal k -> del k m = (m', Return r) ->
  forall e, e ∈ scanAscending m' <-> e ∈ scanAscending m /\ key e <> k.
Proof.
  intros Hr. apply scan_after_del_inv, reachable_Inv, Hr.
Qed.

Lemma scan_after_del_witness :
  mkEntry [0; 0; 1]%Z (Some [50%Z]) ∈ scanAscending after_del_map <->
  mkEntry [0; 0; 1]%Z (Some [50%Z]) ∈ scanAscending pair_map /\
  key (mkEntry [0; 0; 1]%Z (Some [50%Z])) <> [0; 0; 0]%Z.
Proof.
  apply (scan_after_del pair_map [0; 0; 0]%Z after_del_map (Some (Some [49%Z]))).
  - exact pair_map_reachable.
  - repeat constructor; lia.
  - exact pair_map_del.
Defined.

(** * Overwriting, deleting and the other keys *)

Lemma str_lt_ge a b : str_lt a b -> str_ge b a = true.
Proof. intros H. apply str_ge_true. right. exact H. Qed.

Lemma get_after_del k m b p g e n :
  Inv m -> legal k -> bucket k = Z.of_nat b -> probe_stop k (entries m) b p e ->
  key e = k -> shift_stop (entries m) p g ->
  get k (mkMap (shift_out (entries m) p g empty_entry) n) = Return None.
Proof.
  intros HI Hl Hb Hp Hke Hstop.
  assert (p <= g /\ S g < length (entries m)) as [Hpg Hg].
  { destruct Hstop as (Hpg & _ & e' & He' & _).
    split; [exact Hpg | eapply lookup_lt_Some, He']. }
  destruct Hp as (Hbp & Hbelow & He & Hge).
  assert (exists e2, shift_out (entries m) p g empty_entry !! p = Some e2 /\
                     str_lt k (key e2)) as (e2 & He2 & Hlt).
  { rewrite lookup_shift_out by lia.
    destruct (decide (p = g)) as [Heq | Hne].
    - exists empty_entry. split; [idx_cases | apply legal_lt_EMPTY, Hl].
    - destruct Hstop as (_ & Hmoves & _).
      destruct (Hmoves p ltac:(lia)) as (ex & Hex & _ & Hox).
      exists ex. split; [idx_cases |].
      rewrite <- Hke. destruct HI as [HK _].
      apply (kinv_sorted _ HK p (S p)); auto using lookup_key_of.
      rewrite Hke. apply legal_not_EMPTY, Hl. }
  rewrite (get_at k _ b p e2 Hb).
  - assert (str_eq (key e2) k = false) as ->; [| reflexivity].
    apply str_eq_false. intros E. rewrite E in Hlt. exact (str_lt_irrefl _ Hlt).
  - cbn [entries]. split; [lia |]. split; [| split; [exact He2 |]].
    + intros j Hj. destruct (Hbelow j Hj) as (e' & He' & Hlt').
      exists e'. rewrite lookup_shift_out by lia. split; [idx_cases | exact Hlt'].
    + apply str_lt_ge, Hlt.
Qed.

Lemma stored_frame_put m k v m' k' w :
  Inv m -> legal k -> legal k' -> k' <> k -> put k v m = (m', Return tt) ->
  stored m' k' w <-> stored m k' w.
Proof.
  intros HI Hl Hl' Hne H.
  pose proof (scan_after_put_inv m k v m' HI Hl H) as Hscan.
  rewrite !stored_iff_scan by exact Hl'. split.
  - intros (e & He & Hk & Hw). exists e. split; [| auto].
    apply Hscan in He as [-> | [He _]]; [| exact He].
    cbn [key] in Hk. congruence.
  - intros (e & He & Hk & Hw). exists e. split; [| auto].
    apply Hscan. right. split; [exact He | congruence].
Qed.

Lemma stored_frame_del m k r m' k' w :
  Inv m -> legal k -> legal k' -> k' <> k -> del k m = (m', Return r) ->
  stored m' k' w <-> stored m k' w.
Proof.
  intros HI Hl Hl' Hne H.
  pose proof (scan_after_del_inv m k m' r HI Hl H) as Hscan.
  rewrite !stored_iff_scan by exact Hl'. split.
  - intros (e & He & Hk & Hw). exists e. split; [| auto].
    apply Hscan in He as [He _]. exact He.
  - intros (e & He & Hk & Hw). exists e. split; [| auto].
    apply Hscan. split; [exact He | congruence].
Qed.

(** What two states that store the same values under [k] answer to
    [get k]. *)
Lemma get_frame m m' k :
  Inv m -> Inv m' -> legal k ->
  (forall w, stored m' k w <-> stored m k w) ->
  (forall w, get k m' = Return (Some w) <-> get k m = Return (Some w)) /\
  (forall r r', get k m = Return r -> get k m' = Return r' -> r = r').
Proof.
  intros HI HI' Hl Hst.
  assert (forall w, get k m' = Return (Some w) <-> get k m = Return (Some w)) as Hsome.
  { intros w. rewrite !get_Some_iff_stored by assumption. apply Hst. }
  split; [exact Hsome |].
  intros [w |] [w' |] H H'; [| | | reflexivity].
  - pose proof (proj2 (Hsome w) H) as H2. congruence.
  - pose proof (proj2 (Hsome w) H) as H2. congruence.
  - pose proof (proj1 (Hsome w') H') as H2. congruence.
Qed.

(** X5.  On a reachable state that is not full, [put] of a key that some
    slot holds returns, whatever else the table holds; it replaces the
    entry of that slot by the key with the new value and leaves every
    other slot and [len] as they were. *)
Theorem put_overwrites_in_place m i e v :
  reachable m -> (len m < CAPACITY)%Z ->
  entries m !! i = Some e -> key e <> EMPTY_KEY ->
  put (key e) v m
  = (mkMap (<[i := mkEntry (key e) (Some v)]> (entries m)) (len m), Return tt).
Proof.
  intros Hr Hroom He Ho. pose proof (reachable_Inv m Hr) as HI.
  destruct (present_probe_stop m i e HI He Ho) as (b & Hb & Hp).
  exact (put_found_at (key e) v m b i e Hroom Hb Hp eq_refl).
Qed.

Lemma put_overwrites_in_place_witness :
  put [0; 0; 0]%Z [50%Z] one_map
  = (mkMap (<[0 := mkEntry [0; 0; 0]%Z (Some [50%Z])]> (entries one_map)) 1,
     Return tt).
Proof.
  apply (put_overwrites_in_place one_map 0 (mkEntry [0; 0; 0]%Z (Some [49%Z]))).
  - exact one_map_reachable.
  - cbn [one_map len]. rewrite CAPACITY_val. lia.
  - exact one_map_0.
  - discriminate.
Defined.

(** X6.  When [del] returns a value, the key was stored with that value;
    afterwards [get] of the key returns null and [len] is one less. *)
Theorem del_removes_the_key m k m' w :
  reachable m -> legal k -> del k m = (m', Return (Some w)) ->
  stored m k w /\ get k m' = Return None /\ len m' = (len m - 1)%Z.
Proof.
  intros Hr Hl H. pose proof (reachable_Inv m Hr) as HI.
  apply del_inv in H as (b & p & g & e & (Hb & Hp & Hke & Hstop & ->) & ->).
  split; [| split; [| reflexivity]].
  - exists p, e. destruct Hp as (_ & _ & He & _). auto.
  - exact (get_after_del k m b p g e _ HI Hl Hb Hp Hke Hstop).
Qed.

Lemma del_removes_the_key_witness :
  stored pair_map [0; 0; 0]%Z (Some [49%Z]) /\
  get [0; 0; 0]%Z after_del_map = Return None /\
  len after_del_map = (len pair_map - 1)%Z.
Proof.
  apply del_removes_the_key.
  - exact pair_map_reachable.
  - repeat constructor; lia.
  - exact pair_map_del.
Defined.

(** X7.  When [del] returns, it returns null exactly when no slot holds
    the key, and then it leaves the state as it was. *)
Theorem del_null_iff_absent m k m' r :
  reachable m -> legal k -> del k m = (m', Return r) ->
  (r = None <-> absent m k) /\ (r = None -> m' = m).
Proof.
  intros Hr Hl H. pose proof (reachable_Inv m Hr) as HI.
  destruct r as [w |].
  - split; [| discriminate]. split; [discriminate |].
    intros Habs. exfalso.
    apply del_inv in H as (b & p & g & e & (Hb & Hp & Hke & _) & _).
    destruct Hp as (_ & _ & He & _).
    apply (Habs e); [apply list_elem_of_lookup; eauto | exact Hke].
  - apply del_None_inv in H as (-> & b & p & e & Hb & Hp & Hne).
    split; [| reflexivity]. split; [| reflexivity].
    intros _. exact (probe_stop_decides m k b p e HI Hl Hb Hp Hne).
Qed.

Lemma del_001_one_map : del [0; 0; 1]%Z one_map = (one_map, Return None).
Proof.
  pose proof TABLE_big as HT.
  apply (del_absent_at [0; 0; 1]%Z one_map 1 1 empty_entry).
  - rewrite bucket_closed by (repeat constructor; lia). reflexivity.
  - split; [lia |]. split; [intros j Hj; lia |].
    split; [apply one_map_empty; lia | reflexivity].
  - discriminate.
Qed.

Lemma del_null_iff_absent_witness :
  (@None (option jsstring) = None <-> absent one_map [0; 0; 1]%Z) /\
  (@None (option jsstring) = None -> one_map = one_map).
Proof.
  apply (del_null_iff_absent one_map [0; 0; 1]%Z one_map None).
  - exact one_map_reachable.
  - repeat constructor; lia.
  - exact del_001_one_map.
Defined.

(** X8.  A [put] of the key [k] that returns does not change what [get]
    answers for another key [k']: [get k'] returns a value after it exactly
    when it did before, and whenever it returns both before and after, the
    two answers are the same. *)
Theorem put_keeps_other_keys m k v m' k' :
  reachable m -> legal k -> legal k' -> k' <> k -> put k v m = (m', Return tt) ->
  (forall w, get k' m' = Return (Some w) <-> get k' m = Return (Some w)) /\
  (forall r r', get k' m = Return r -> get k' m' = Return r' -> r = r').
Proof.
  intros Hr Hl Hl' Hne H. pose proof (reachable_Inv m Hr) as HI.
  apply get_frame; [exact HI | exact (Inv_put k v m m' HI Hl H) | exact Hl' |].
  intros w. exact (stored_frame_put m k v m' k' w HI Hl Hl' Hne H).
Qed.

Lemma put_keeps_other_keys_witness :
  (forall w, get [0; 0; 0]%Z pair_map = Return (Some w)
             <-> get [0; 0; 0]%Z one_map = Return (Some w)) /\
  (forall r r', get [0; 0; 0]%Z one_map = Return r ->
                get [0; 0; 0]%Z pair_map = Return r' -> r = r').
Proof.
  apply (put_keeps_other_keys one_map [0; 0; 1]%Z [50%Z] pair_map [0; 0; 0]%Z).
  - exact one_map_reachable.
  - repeat constructor; lia.
  - repeat constructor; lia.
  - discriminate.
  - exact pair_map_put.
Defined.

(** X9.  A [del] of the key [k] that returns does not change what [get]
    answers for another key [k']. *)
Theorem del_keeps_other_keys m k r m' k' :
  reachable m -> legal k -> legal k' -> k' <> k -> del k m = (m', Return r) ->
  (forall w, get k' m' = Return (Some w) <-> get k' m = Return (Some w)) /\
  (forall r1 r2, get k' m = Return r1 -> get k' m' = Return r2 -> r1 = r2).
Proof.
  intros Hr Hl Hl' Hne H. pose proof (reachable_Inv m Hr) as HI.
  apply get_frame; [exact HI | exact (Inv_del k m m' r HI H) | exact Hl' |].
  intros w. exact (stored_frame_del m k r m' k' w HI Hl Hl' Hne H).
Qed.

Lemma del_keeps_other_keys_witness :
  (forall w, get [0; 0; 1]%Z after_del_map = Return (Some w)
             <-> get [0; 0; 1]%Z pair_map = Return (Some w)) /\
  (forall r1 r2, get [0; 0; 1]%Z pair_map = Return r1 ->
                 get [0; 0; 1]%Z after_del_map = Return r2 -> r1 = r2).
Proof.
  apply (del_keeps_other_keys pair_map [0; 0; 0]%Z (Some (Some [49%Z]))
           after_del_map [0; 0; 1]%Z).
  - exact pair_map_reachable.
  - repeat constructor; lia.
  - repeat constructor; lia.
  - discriminate.
  - exact pair_map_del.
Defined.

(** X10.  [getOrPut] of a key that no slot holds, when it returns, answers
    [exists: false], adds one to [len], and leaves the key stored with no
    value: [get] of the key then returns undefined, not null. *)
Theorem getOrPut_creates_an_undefined_value m k m' r :
  reachable m -> legal k -> absent m k -> getOrPut k m = (m', Return r) ->
  exists_ r = false /\ len m' = (len m + 1)%Z /\ get k m' = Return (Some None).
Proof.
  intros Hr Hl Habs H. pose proof (reachable_Inv m Hr) as HI.
  pose proof (Inv_getOrPut k m m' r HI Hl H) as HI'.
  destruct (getOrPut_inv _ _ _ _ HI Hl H)
    as (_ & Hg & b & p & e & Hb & Hp & [(Hke & _) | Hins]).
  - exfalso. destruct Hp as (_ & _ & He & _).
    apply (Habs e); [apply list_elem_of_lookup; eauto | exact Hke].
  - destruct Hins as (Hne & q & Hpq & _ & (eq & Heq & _) & -> & ->).
    pose proof (lookup_lt_Some _ _ _ Heq) as Hq.
    split; [reflexivity |]. split; [reflexivity |].
    apply (get_Some_iff_stored _ k None HI' Hl).
    exists p, (mkEntry k None). cbn [entries].
    rewrite lookup_shift_in by lia. split; [idx_cases | auto].
Qed.

Lemma getOrPut_000_init :
  getOrPut [0; 0; 0]%Z init
  = (mkMap (<[0 := mkEntry [0; 0; 0]%Z None]> (replicate TABLE empty_entry)) 1,
     Return (mkSlot false 0)).
Proof.
  pose proof TABLE_big as HT.
  rewrite (getOrPut_inserted [0; 0; 0]%Z init 0 0 empty_entry 0).
  - unfold init. cbn [entries len].
    rewrite <- shift_in_base by (rewrite length_replicate; lia). exact eq_refl.
  - cbn [init len]. rewrite CAPACITY_val. lia.
  - repeat constructor; lia.
  - apply Inv_above_closed, Inv_init.
  - exact eq_refl.
  - split; [lia |]. split; [intros j Hj; lia |].
    split; [cbn [init entries]; apply lookup_replicate_2; lia | reflexivity].
  - discriminate.
  - lia.
  - intros j Hj; lia.
  - exists empty_entry. split; [| reflexivity].
    cbn [init entries]. apply lookup_replicate_2. lia.
Qed.

Lemma absent_init k : legal k -> absent init k.
Proof.
  intros Hl e He. cbn [init entries] in He.
  apply elem_of_replicate in He as [-> _]. cbn [empty_entry key].
  intros E. symmetry in E. revert E. apply legal_not_EMPTY, Hl.
Qed.

Lemma getOrPut_creates_an_undefined_value_witness :
  exists_ (mkSlot false 0) = false /\
  len (mkMap (<[0 := mkEntry [0; 0; 0]%Z None]> (replicate TABLE empty_entry)) 1)
  = (len init + 1)%Z /\
  get [0; 0; 0]%Z
      (mkMap (<[0 := mkEntry [0; 0; 0]%Z None]> (replicate TABLE empty_entry)) 1)
  = Return (Some None).
Proof.
  apply (getOrPut_creates_an_undefined_value init [0; 0; 0]%Z).
  - constructor.
  - repeat constructor; lia.
  - apply absent_init. repeat constructor; lia.
  - exact getOrPut_000_init.
Defined.

(** * What [len] counts *)

Lemma count_occupied_app a b :
  count_occupied (a ++ b) = count_occupied a + count_occupied b.
Proof. unfold count_occupied. rewrite filter_app, length_app. reflexivity. Qed.

Lemma count_occupied_cons e es :
  count_occupied (e :: es) = (if occupied e then 1 else 0) + count_occupied es.
Proof.
  unfold count_occupied. rewrite filter_cons.
  destruct (occupied e); case_decide; try congruence; reflexivity.
Qed.

Lemma split_in {A} (l : list A) p q e :
  p <= q -> l !! q = Some e ->
  l = take p l ++ take (q - p) (drop p l) ++ e :: drop (S q) l.
Proof.
  intros Hpq He.
  rewrite <- (drop_S l e q He).
  replace (drop q l) with (drop (q - p) (drop p l))
    by (rewrite drop_drop; f_equal; lia).
  rewrite (take_drop (q - p) (drop p l)), take_drop. reflexivity.
Qed.

Lemma split_out {A} (l : list A) p g e :
  p <= g -> l !! p = Some e ->
  l = take p l ++ e :: take (g - p) (drop (S p) l) ++ drop (S g) l.
Proof.
  intros Hpg He.
  replace (drop (S g) l) with (drop (g - p) (drop (S p) l))
    by (rewrite drop_drop; f_equal; lia).
  rewrite (take_drop (g - p) (drop (S p) l)).
  symmetry. apply take_drop_middle, He.
Qed.

Lemma count_shift_in l p q x e :
  p <= q -> l !! q = Some e -> occupied e = false -> occupied x = true ->
  count_occupied (shift_in l p q x) = S (count_occupied l).
Proof.
  intros Hpq He Ho Hx.
  pose proof (f_equal count_occupied (split_in l p q e Hpq He)) as Hl.
  unfold shift_in.
  rewrite ?count_occupied_app, ?count_occupied_cons, ?count_occupied_app,
    ?count_occupied_cons in Hl.
  rewrite ?count_occupied_app, ?count_occupied_cons, ?count_occupied_app,
    ?count_occupied_cons.
  rewrite Ho in Hl. rewrite Hx. lia.
Qed.

Lemma count_shift_out l p g x e :
  p <= g -> l !! p = Some e -> occupied e = true -> occupied x = false ->
  S (count_occupied (shift_out l p g x)) = count_occupied l.
Proof.
  intros Hpg He Ho Hx.
  pose proof (f_equal count_occupied (split_out l p g e Hpg He)) as Hl.
  unfold shift_out.
  rewrite ?count_occupied_app, ?count_occupied_cons, ?count_occupied_app,
    ?count_occupied_cons in Hl.
  rewrite ?count_occupied_app, ?count_occupied_cons, ?count_occupied_app,
    ?count_occupied_cons.
  rewrite Hx. rewrite Ho in Hl. lia.
Qed.

Lemma count_insert l p x e :
  l !! p = Some e -> occupied x = occupied e ->
  count_occupied (<[p := x]> l) = count_occupied l.
Proof.
  intros He Ho. pose proof (lookup_lt_Some _ _ _ He) as Hp.
  pose proof (f_equal count_occupied (eq_sym (take_drop_middle l p e He))) as Hl.
  rewrite insert_take_drop by exact Hp.
  rewrite ?count_occupied_app, ?count_occupied_cons in Hl.
  rewrite ?count_occupied_app, ?count_occupied_cons. rewrite Ho. lia.
Qed.

Lemma occupied_false e : occupied e = false <-> key e = EMPTY_KEY.
Proof.
  pose proof (occupied_true e) as H.
  destruct (occupied e); split; intros E; try congruence.
  - exfalso. apply (proj1 H); auto.
  - destruct (decide (key e = EMPTY_KEY)) as [Hk | Hk]; [exact Hk |].
    apply H in Hk. discriminate.
Qed.

Lemma Inv2_init : Inv2 init.
Proof.
  split.
  - cbn [init len entries]. unfold count_occupied.
    generalize TABLE. intros n. induction n as [| n IH]; [reflexivity |].
    cbn [replicate]. rewrite filter_cons. case_decide as Ho; [discriminate Ho |].
    exact IH.
  - intros i e He _. cbn [init entries] in He.
    apply lookup_replicate in He as [-> _]. reflexivity.
Qed.

Lemma Inv2_inserted k it m p e m' r :
  Inv2 m -> legal k -> key it = k -> gop_inserted k it m p e m' r -> Inv2 m'.
Proof.
  intros [Hlen Hsent] Hl Hit (Hne & q & Hpq & _ & (eq & Heq & Hempty) & -> & _).
  pose proof (lookup_lt_Some _ _ _ Heq) as Hq.
  assert (occupied it = true) as Hoit.
  { apply occupied_true. rewrite Hit. apply legal_not_EMPTY, Hl. }
  split; cbn [len entries].
  - rewrite (count_shift_in _ p q it eq Hpq Heq); [lia | | exact Hoit].
    apply occupied_false, Hempty.
  - intros i e' He' Hk. rewrite lookup_shift_in in He' by lia.
    repeat case_decide.
    + eapply Hsent; eauto.
    + exfalso. apply occupied_true in Hoit. congruence.
    + eapply Hsent; eauto.
    + eapply Hsent; eauto.
Qed.

Lemma Inv2_getOrPut k m m' r :
  Inv m -> Inv2 m -> legal k -> getOrPut k m = (m', Return r) -> Inv2 m'.
Proof.
  intros HI HI2 Hl H.
  destruct (getOrPut_inv _ _ _ _ HI Hl H)
    as (_ & _ & b & p & e & _ & _ & [(_ & -> & _) | Hins]); [exact HI2 |].
  exact (Inv2_inserted k (mkEntry k None) m p e m' r HI2 Hl eq_refl Hins).
Qed.

Lemma Inv2_put k v m m' :
  Inv m -> Inv2 m -> legal k -> put k v m = (m', Return tt) -> Inv2 m'.
Proof.
  intros HI HI2 Hl H.
  destruct (put_inv _ _ _ _ HI Hl H)
    as (_ & _ & b & p & e & _ & Hp & [(Hke & ->) | Hins]).
  - destruct HI2 as [Hlen Hsent]. destruct Hp as (_ & _ & He & _).
    pose proof (lookup_lt_Some _ _ _ He) as Hlt.
    assert (occupied (mkEntry k (Some v)) = true) as Hnew.
    { apply occupied_true. cbn [key]. apply legal_not_EMPTY, Hl. }
    split; cbn [len entries].
    + rewrite (count_insert _ p _ e He); [exact Hlen |].
      rewrite Hnew. symmetry. apply occupied_true. rewrite Hke.
      apply legal_not_EMPTY, Hl.
    + intros i e' He' Hk. destruct (decide (i = p)) as [-> | Hip].
      * rewrite list_lookup_insert_eq in He' by lia.
        exfalso. apply occupied_true in Hnew. congruence.
      * rewrite list_lookup_insert_ne in He' by lia. eapply Hsent; eauto.
  - exact (Inv2_inserted k (mkEntry k (Some v)) m p e m' _ HI2 Hl eq_refl Hins).
Qed.

Lemma Inv2_del k m m' r :
  Inv2 m -> legal k -> del k m = (m', Return r) -> Inv2 m'.
Proof.
  intros HI2 Hl H. pose proof (del_inv k m m' r H) as Hd.
  destruct r as [w |]; [| subst m'; exact HI2].
  destruct Hd as (b & p & g & e & (Hb & Hp & Hke & Hstop & ->) & _).
  destruct HI2 as [Hlen Hsent].
  assert (p <= g /\ S g < length (entries m)) as [Hpg Hg].
  { destruct Hstop as (Hpg & _ & e' & He' & _).
    split; [exact Hpg | eapply lookup_lt_Some, He']. }
  destruct Hp as (_ & _ & He & _).
  split; cbn [len entries].
  - rewrite <- (count_shift_out (entries m) p g empty_entry e Hpg He) in Hlen;
      [lia | | reflexivity].
    apply occupied_true. rewrite Hke. apply legal_not_EMPTY, Hl.
  - intros i e' He' Hk. rewrite lookup_shift_out in He' by lia.
    repeat case_decide.
    + eapply Hsent; eauto.
    + eapply Hsent; eauto.
    + congruence.
    + eapply Hsent; eauto.
Qed.

Lemma reachable_Inv2 m : reachable m -> Inv2 m.
Proof.
  induction 1 as [| k m m' r Hr IH Hl H | k v m m' Hr IH Hl H | k m m' r Hr IH Hl H].
  - exact Inv2_init.
  - exact (Inv2_getOrPut k m m' r (reachable_Inv m Hr) IH Hl H).
  - exact (Inv2_put k v m m' (reachable_Inv m Hr) IH Hl H).
  - exact (Inv2_del k m m' r IH Hl H).
Qed.

(** X11.  In every reachable state [len] is the number of entries that the
    scans yield, and it is never more than the capacity. *)
Theorem len_counts_the_entries m :
  reachable m ->
  len m = Z.of_nat (length (scanAscending m)) /\
  len m = Z.of_nat (length (scanDescending m)) /\
  (0 <= len m <= CAPACITY)%Z.
Proof.
  intros Hr. destruct (reachable_Inv2 m Hr) as [Hlen _].
  destruct (reachable_Inv m Hr) as [_ Hcap].
  assert (scanDescending m = reverse (scanAscending m)) as Hrev.
  { unfold scanDescending, scanAscending.
    rewrite scanDescending_from_take, take_ge by lia. exact eq_refl. }
  rewrite Hrev, length_reverse.
  split; [exact Hlen |]. split; [exact Hlen |]. split; [| exact Hcap].
  rewrite Hlen. apply Nat2Z.is_nonneg.
Qed.

Lemma len_counts_the_entries_witness :
  len pair_map = Z.of_nat (length (scanAscending pair_map)) /\
  len pair_map = Z.of_nat (length (scanDescending pair_map)) /\
  (0 <= len pair_map <= CAPACITY)%Z.
Proof. apply len_counts_the_entries. exact pair_map_reachable. Defined.

(** * Room at the end of the array *)

Lemma count_all_occupied (l : list Entry) :
  Forall (fun e => occupied e = true) l -> count_occupied l = length l.
Proof.
  induction 1 as [| e l He _ IH]; [reflexivity |].
  rewrite count_occupied_cons, He, IH. reflexivity.
Qed.

(** A run of [n] occupied slots from slot [a] on: at least [n] slots are
    occupied. *)
Lemma count_run es a n :
  (forall j, a <= j < a + n -> full es j) -> a + n <= length es ->
  n <= count_occupied es.
Proof.
  intros Hrun Hlen.
  rewrite <- (take_drop a es), count_occupied_app.
  rewrite <- (take_drop n (drop a es)), count_occupied_app.
  rewrite (count_all_occupied (take n (drop a es))).
  - rewrite length_take, length_drop. lia.
  - apply Forall_lookup. intros i e He.
    apply lookup_take_Some in He as [He Hi]. rewrite lookup_drop in He.
    destruct (Hrun (a + i) ltac:(lia)) as (e' & He' & Ho).
    apply occupied_true. congruence.
Qed.

(** With fewer than 11744356 entries the last slot is free: a key in the
    last slot would have every slot from its ideal bucket, at most
    8388350, to the end of the array occupied. *)
Lemma small_last_slot_empty m :
  Inv m -> Inv2 m -> (len m < 11744356)%Z -> last_slot_empty m.
Proof.
  intros HI [Hlen _] Hsmall. pose proof (Inv_length m HI) as HL.
  destruct (lookup_lt_is_Some_2 (entries m) (length (entries m) - 1) ltac:(lia))
    as [e He].
  exists e. split; [exact He |].
  destruct (decide (key e = EMPTY_KEY)) as [Hk | Hk]; [exact Hk | exfalso].
  destruct HI as [HK _].
  pose proof (lookup_key_of _ _ _ He) as Hke.
  pose proof (kinv_good _ HK _ _ Hke Hk) as Hg.
  pose proof (good_bucket_nonneg _ Hg) as Hb0.
  pose proof (good_bucket_bound _ Hg) as Hb1.
  pose proof (count_run (entries m) (Z.to_nat (bucket (key e)))
                (length (entries m) - Z.to_nat (bucket (key e)))) as Hrun.
  assert (length (entries m) - Z.to_nat (bucket (key e)) <= count_occupied (entries m))
    as Hc; [apply Hrun; [| lia] | lia].
  intros j Hj.
  destruct (kinv_dense _ HK _ _ j Hke Hk ltac:(lia) ltac:(lia)) as (kj & Hkj & Hoj).
  apply lookup_key in Hkj as (ej & Hej & <-). exists ej. auto.
Qed.

(** X12.  While the table holds fewer than 11744356 entries, no call on a
    legal key whose first byte is at most 0x7F throws: [get], [getOrPut],
    [put] and [del] all return. *)
Theorem no_throw_below_11744356_entries m k :
  reachable m -> (len m < 11744356)%Z -> legal k -> (charCodeAt0 k 0 <= 127)%Z ->
  (exists r, get k m = Return r) /\
  (exists m' r, getOrPut k m = (m', Return r)) /\
  (forall v, exists m', put k v m = (m', Return tt)) /\
  (exists m' r, del k m = (m', Return r)).
Proof.
  intros Hr Hsmall Hl Hc. pose proof (reachable_Inv m Hr) as HI.
  pose proof (small_last_slot_empty m HI (reachable_Inv2 m Hr) Hsmall) as Hlast.
  assert (good k) as Hg by (split; assumption).
  assert (len m < CAPACITY)%Z as Hroom by (rewrite CAPACITY_val; lia).
  split; [| split; [| split]].
  - destruct (probe_exists m k HI Hg Hlast) as (b & p & e & Hb & Hp & _).
    rewrite (get_at k m b p e Hb Hp). destruct (str_eq (key e) k); eauto.
  - exact (getOrPut_returns m k HI Hg Hlast Hroom).
  - intros v. exact (put_returns m k v HI Hg Hlast Hroom).
  - exact (del_returns m k HI Hg Hlast).
Qed.

Lemma no_throw_below_11744356_entries_witness :
  (exists r, get [0; 0; 1]%Z one_map = Return r) /\
  (exists m' r, getOrPut [0; 0; 1]%Z one_map = (m', Return r)) /\
  (forall v, exists m', put [0; 0; 1]%Z v one_map = (m', Return tt)) /\
  (exists m' r, del [0; 0; 1]%Z one_map = (m', Return r)).
Proof.
  apply no_throw_below_11744356_entries.
  - exact one_map_reachable.
  - cbn [one_map len]. lia.
  - repeat constructor; lia.
  - vm_compute. discriminate.
Defined.

(** * The benchmark loop *)

Lemma len_put k v m m' :
  Inv m -> legal k -> put k v m = (m', Return tt) -> (len m' <= len m + 1)%Z.
Proof.
  intros HI Hl H.
  destruct (put_inv _ _ _ _ HI Hl H)
    as (_ & _ & b & p & e & _ & _ & [(_ & ->) | (_ & q & _ & _ & _ & -> & _)]);
    cbn [len]; lia.
Qed.

Lemma len_del k m m' r :
  del k m = (m', Return r) -> (len m' <= len m)%Z.
Proof.
  intros H. pose proof (del_inv k m m' r H) as Hd. destruct r as [w |].
  - destruct Hd as (b & p & g & e & (_ & _ & _ & _ & ->) & _). cbn [len]. lia.
  - subst m'. lia.
Qed.

Lemma put_items_returns items :
  forall i m, reachable m -> Forall good items ->
    (len m + Z.of_nat (length items) < 11744356)%Z ->
    exists m', put_items i items m = (m', Return tt) /\ reachable m' /\
               (len m' <= len m + Z.of_nat (length items))%Z /\
               forall e, e ∈ scanAscending m' ->
                         e ∈ scanAscending m \/ key e ∈ items.
Proof.
  induction items as [| item rest IH]; intros i m Hr Hgood Hsmall.
  - exists m. cbn [put_items length]. split; [reflexivity |].
    split; [exact Hr |]. split; [lia | auto].
  - apply Forall_cons in Hgood as [Hg Hgood]. cbn [length] in Hsmall.
    pose proof (reachable_Inv m Hr) as HI.
    assert (len m < 11744356)%Z as Hm by lia.
    pose proof (small_last_slot_empty m HI (reachable_Inv2 m Hr) Hm) as Hlast.
    assert (len m < CAPACITY)%Z as Hroom by (rewrite CAPACITY_val; lia).
    destruct (put_returns m item (String_ i) HI Hg Hlast Hroom) as [m1 H1].
    pose proof (len_put _ _ _ _ HI (proj1 Hg) H1) as Hlen1.
    pose proof (reach_put _ _ _ _ Hr (proj1 Hg) H1) as Hr1.
    destruct (IH (S i) m1 Hr1 Hgood ltac:(lia)) as (m' & H' & Hr' & Hlen' & Hscan').
    exists m'. cbn [put_items length]. rewrite H1.
    split; [exact H' |]. split; [exact Hr' |]. split; [lia |].
    intros e He. destruct (Hscan' e He) as [He1 | Hk].
    + apply (scan_after_put_inv m item (String_ i) m1 HI (proj1 Hg) H1) in He1
        as [-> | [He0 _]].
      * right. cbn [key]. apply list_elem_of_here.
      * left. exact He0.
    + right. apply list_elem_of_further, Hk.
Qed.

Lemma del_items_returns items :
  forall m, reachable m -> Forall good items -> (len m < 11744356)%Z ->
    exists m', del_items items m = (m', Return tt) /\ reachable m' /\
               forall e, e ∈ scanAscending m' ->
                         e ∈ scanAscending m /\ key e ∉ items.
Proof.
  induction items as [| item rest IH]; intros m Hr Hgood Hsmall.
  - exists m. cbn [del_items]. split; [reflexivity |]. split; [exact Hr |].
    intros e He. split; [exact He | apply not_elem_of_nil].
  - apply Forall_cons in Hgood as [Hg Hgood].
    pose proof (reachable_Inv m Hr) as HI.
    pose proof (small_last_slot_empty m HI (reachable_Inv2 m Hr) Hsmall) as Hlast.
    destruct (del_returns m item HI Hg Hlast) as (m1 & r & H1).
    pose proof (len_del _ _ _ _ H1) as Hlen1.
    pose proof (reach_del _ _ _ _ Hr (proj1 Hg) H1) as Hr1.
    destruct (IH m1 Hr1 Hgood ltac:(lia)) as (m' & H' & Hr' & Hscan').
    exists m'. cbn [del_items]. rewrite H1.
    split; [exact H' |]. split; [exact Hr' |].
    intros e He. destruct (Hscan' e He) as [He1 Hk].
    apply (scan_after_del_inv m item m1 r HI (proj1 Hg) H1) in He1 as [He0 Hne].
    split; [exact He0 |]. apply not_elem_of_cons. auto.
Qed.

(** A state in which no slot is occupied is the initial state. *)
Lemma nothing_stored_init m :
  Inv m -> Inv2 m -> (forall e, e ∈ scanAscending m -> False) -> m = init.
Proof.
  intros HI [Hlen Hsent] Hnone.
  assert (scanAscending m = []) as Hnil.
  { destruct (scanAscending m) as [| e l] eqn:E; [reflexivity |].
    exfalso. apply (Hnone e). rewrite ?E. apply list_elem_of_here. }
  assert (replicate TABLE empty_entry = entries m) as Hes.
  { apply replicate_as_Forall. split.
    - pose proof (Inv_length m HI) as HL. pose proof TABLE_val. lia.
    - apply Forall_lookup. intros i e He. symmetry.
      apply (Hsent i e He). apply occupied_false.
      destruct (occupied e) eqn:Ho; [exfalso | reflexivity].
      apply (Hnone e), elem_of_scan. split; [| exact Ho].
      apply list_elem_of_lookup. eauto. }
  unfold count_occupied in Hlen. change (filter _ (entries m)) with (scanAscending m) in Hlen.
  rewrite Hnil in Hlen. destruct m as [es n]. cbn [entries len length] in *.
  unfold init. rewrite Hes, Hlen. reflexivity.
Qed.

Lemma rhh_round_init items :
  Forall good items -> (Z.of_nat (length items) < 11744356)%Z ->
  rhh_round items init = (init, Return tt).
Proof.
  intros Hgood Hsmall.
  destruct (put_items_returns items 0 init reach_init Hgood)
    as (m1 & H1 & Hr1 & Hlen1 & Hscan1); [cbn [init len]; lia |].
  cbn [init len] in Hlen1.
  destruct (del_items_returns items m1 Hr1 Hgood ltac:(lia))
    as (m2 & H2 & Hr2 & Hscan2).
  unfold rhh_round. rewrite H1, H2. f_equal.
  apply nothing_stored_init;
    [exact (reachable_Inv m2 Hr2) | exact (reachable_Inv2 m2 Hr2) |].
  intros e He. destruct (Hscan2 e He) as [He1 Hk].
  destruct (Hscan1 e He1) as [He0 | Hin]; [| exact (Hk Hin)].
  apply elem_of_scan in He0 as [He0 Ho].
  cbn [init entries] in He0. apply elem_of_replicate in He0 as [-> _].
  discriminate Ho.
Qed.

(** The items of the benchmark are strings of hexadecimal digits, which
    are legal keys with a first code unit below 0x80; there are
    [Math.floor(CAPACITY * 0.7)] = 11744051 of them. *)
Lemma hex_string_good (k : jsstring) :
  Forall (fun c => 48 <= c <= 57 \/ 97 <= c <= 102)%Z k -> good k.
Proof.
  intros H. split.
  - unfold legal. eapply Forall_impl; [exact H |]. intros c Hc. cbv beta in Hc |- *. lia.
  - unfold charCodeAt0. destruct (k !! 0%nat) as [c |] eqn:E; [| lia].
    rewrite Forall_lookup in H. pose proof (H 0%nat c E) as Hc.
    rewrite toInt32_id; lia.
Qed.

(** X13.  The benchmark loop of benchmark.ts on the map: from the initial
    state, a round that puts every item and then deletes every item
    returns and leaves the initial state again, for every number of rounds
    and every list of fewer than 11744356 legal keys whose first byte is
    at most 0x7F (the benchmark runs 10 rounds on 11744051 strings of
    hexadecimal digits), also when an item occurs more than once. *)
Theorem benchmark_rounds_restore_the_map n items :
  Forall good items -> (Z.of_nat (length items) < 11744356)%Z ->
  rhh_rounds n items init = (init, Return tt).
Proof.
  intros Hgood Hsmall. induction n as [| n IH]; [reflexivity |].
  cbn [rhh_rounds]. rewrite (rhh_round_init items Hgood Hsmall). exact IH.
Qed.

Lemma benchmark_rounds_restore_the_map_witness :
  rhh_rounds 10 [[0; 0; 1]; [0; 0; 0]; [0; 0; 1]]%Z init = (init, Return tt).
Proof.
  apply benchmark_rounds_restore_the_map.
  - repeat constructor; first [lia | vm_compute; discriminate].
  - cbn [length]. lia.
Defined.

(** * Calls one after the other *)

Lemma probe_stop_shift_in k es b p e q it :
  probe_stop k es b p e -> p <= q < length es -> key it = k ->
  probe_stop k (shift_in es p q it) b p it.
Proof.
  intros (Hbp & Hbelow & He & Hge) Hq Hit.
  split; [lia |]. split; [| split].
  - intros j Hj. destruct (Hbelow j Hj) as (e' & He' & Hlt).
    exists e'. rewrite lookup_shift_in by lia. split; [idx_cases | exact Hlt].
  - rewrite lookup_shift_in by lia. idx_cases.
  - apply str_ge_true. left. exact Hit.
Qed.

Lemma probe_stop_insert k es b p e it :
  probe_stop k es b p e -> key it = k -> probe_stop k (<[p := it]> es) b p it.
Proof.
  intros Hp Hit. pose proof (probe_stop_lt_length _ _ _ _ _ Hp) as Hlen.
  destruct Hp as (Hbp & Hbelow & He & Hge).
  split; [lia |]. split; [| split].
  - intros j Hj. destruct (Hbelow j Hj) as (e' & He' & Hlt).
    exists e'. rewrite list_lookup_insert_ne by lia. auto.
  - apply list_lookup_insert_eq. lia.
  - apply str_ge_true. left. exact Hit.
Qed.

Lemma probe_stop_shift_out k m b p g e :
  Inv m -> legal k -> probe_stop k (entries m) b p e -> key e = k ->
  shift_stop (entries m) p g ->
  exists e2, probe_stop k (shift_out (entries m) p g empty_entry) b p e2 /\
             key e2 <> k.
Proof.
  intros HI Hl Hp Hke Hstop.
  assert (p <= g /\ S g < length (entries m)) as [Hpg Hg].
  { destruct Hstop as (Hpg & _ & e' & He' & _).
    split; [exact Hpg | eapply lookup_lt_Some, He']. }
  destruct Hp as (Hbp & Hbelow & He & Hge).
  assert (exists e2, shift_out (entries m) p g empty_entry !! p = Some e2 /\
                     str_lt k (key e2)) as (e2 & He2 & Hlt).
  { rewrite lookup_shift_out by lia.
    destruct (decide (p = g)) as [Heq | Hne].
    - exists empty_entry. split; [idx_cases | apply legal_lt_EMPTY, Hl].
    - destruct Hstop as (_ & Hmoves & _).
      destruct (Hmoves p ltac:(lia)) as (ex & Hex & _ & Hox).
      exists ex. split; [idx_cases |].
      rewrite <- Hke. destruct HI as [HK _].
      apply (kinv_sorted _ HK p (S p)); auto using lookup_key_of.
      rewrite Hke. apply legal_not_EMPTY, Hl. }
  exists e2. split.
  - split; [lia |]. split; [| split; [exact He2 | apply str_lt_ge, Hlt]].
    intros j Hj. destruct (Hbelow j Hj) as (e' & He' & Hlt').
    exists e'. rewrite lookup_shift_out by lia. split; [idx_cases | exact Hlt'].
  - intros E. rewrite E in Hlt. exact (str_lt_irrefl _ Hlt).
Qed.

Lemma shift_out_shift_in {A} (l : list A) p q x y :
  p <= q < length l -> shift_out (shift_in l p q x) p q y = <[q := y]> l.
Proof.
  intros H. apply list_eq. intros j.
  rewrite lookup_shift_out by (rewrite length_shift_in; lia).
  rewrite !lookup_shift_in by lia.
  destruct (decide (j = q)) as [-> | Hne].
  - rewrite list_lookup_insert_eq by lia. idx_cases.
  - rewrite list_lookup_insert_ne by lia.
    repeat case_decide; try lia; try reflexivity; f_equal; lia.
Qed.

Lemma shift_in_shift_out {A} (l : list A) p g x y :
  p <= g < length l -> shift_in (shift_out l p g x) p g y = <[p := y]> l.
Proof.
  intros H. apply list_eq. intros j.
  rewrite lookup_shift_in by (rewrite length_shift_out; lia).
  rewrite !lookup_shift_out by lia.
  destruct (decide (j = p)) as [-> | Hne].
  - rewrite list_lookup_insert_eq by lia. idx_cases.
  - rewrite list_lookup_insert_ne by lia.
    repeat case_decide; try lia; try reflexivity; f_equal; lia.
Qed.

(** X14.  A second [getOrPut] of the same key finds it: it answers
    [exists: true] with the index the first call returned and changes
    nothing. *)
Theorem getOrPut_twice m k m' r :
  reachable m -> legal k -> getOrPut k m = (m', Return r) ->
  (len m' < CAPACITY)%Z ->
  getOrPut k m' = (m', Return (mkSlot true (index r))).
Proof.
  intros Hr Hl H Hroom. pose proof (reachable_Inv m Hr) as HI.
  destruct (getOrPut_inv _ _ _ _ HI Hl H)
    as (_ & _ & b & p & e & Hb & Hp & [(Hke & -> & ->) | Hins]).
  - exact (getOrPut_found k m b p e Hroom Hb Hp Hke).
  - destruct Hins as (Hne & q & Hpq & _ & (eq & Heq & _) & -> & ->).
    pose proof (lookup_lt_Some _ _ _ Heq) as Hq. cbn [index].
    apply (getOrPut_found k _ b p (mkEntry k None) Hroom Hb); [| reflexivity].
    cbn [entries]. apply (probe_stop_shift_in k _ b p e q); [exact Hp | lia | reflexivity].
Qed.

Lemma getOrPut_twice_witness :
  getOrPut [0; 0; 0]%Z
    (mkMap (<[0 := mkEntry [0; 0; 0]%Z None]> (replicate TABLE empty_entry)) 1)
  = (mkMap (<[0 := mkEntry [0; 0; 0]%Z None]> (replicate TABLE empty_entry)) 1,
     Return (mkSlot true (index (mkSlot false 0)))).
Proof.
  apply (getOrPut_twice init [0; 0; 0]%Z).
  - constructor.
  - repeat constructor; lia.
  - exact getOrPut_000_init.
  - cbn [len]. rewrite CAPACITY_val. lia.
Defined.

(** X15.  The last [put] wins: after a [put] of the key that returned, a
    [put] of the same key with another value does what it would have done
    on the state before, so the first value leaves no trace; with the same
    value it changes nothing. *)
Theorem put_last_write_wins m k v m1 v' :
  reachable m -> legal k -> put k v m = (m1, Return tt) ->
  (len m1 < CAPACITY)%Z ->
  put k v' m1 = put k v' m /\ put k v m1 = (m1, Return tt).
Proof.
  intros Hr Hl H Hroom1. pose proof (reachable_Inv m Hr) as HI.
  assert (forall w, put k w m1 = put k w m) as Hsame.
  { intros w.
    destruct (put_inv _ _ _ _ HI Hl H)
      as (Hroom & _ & b & p & e & Hb & Hp & [(Hke & ->) | Hins]).
    - rewrite (put_found_at k w m b p e Hroom Hb Hp Hke).
      rewrite (put_found_at k w _ b p (mkEntry k (Some v)) Hroom1 Hb
                 (probe_stop_insert k _ b p e (mkEntry k (Some v)) Hp eq_refl)
                 eq_refl).
      cbn [entries len]. rewrite list_insert_insert_eq. reflexivity.
    - destruct Hins as (Hne & q & Hpq & Hfull & Hhole & -> & _).
      pose proof Hhole as (eq & Heq & _).
      pose proof (lookup_lt_Some _ _ _ Heq) as Hq.
      rewrite (put_inserted_at k w m b p e q Hroom Hl (Inv_above_closed k m HI)
                 Hb Hp Hne Hpq Hfull Hhole).
      rewrite (put_found_at k w _ b p (mkEntry k (Some v)) Hroom1 Hb
                 (probe_stop_shift_in k _ b p e q (mkEntry k (Some v)) Hp
                    ltac:(lia) eq_refl) eq_refl).
      cbn [entries len]. rewrite insert_shift_in by lia. reflexivity. }
  split; [apply Hsame |]. rewrite Hsame. exact H.
Qed.

Lemma put_last_write_wins_witness :
  put [0; 0; 0]%Z [50%Z] one_map = put [0; 0; 0]%Z [50%Z] init /\
  put [0; 0; 0]%Z [49%Z] one_map = (one_map, Return tt).
Proof.
  apply (put_last_write_wins init [0; 0; 0]%Z [49%Z] one_map [50%Z]).
  - constructor.
  - repeat constructor; lia.
  - exact one_map_put.
  - cbn [one_map len]. rewrite CAPACITY_val. lia.
Defined.

(** X16.  Insertion and deletion undo each other: after a [put] of a key
    that no slot held, a [del] of the key that returns gives back the
    value put and leaves exactly the state before the [put]: every displaced
    entry is back in its slot. *)
Theorem put_then_del_restores m k v m1 m2 r :
  reachable m -> legal k -> absent m k ->
  put k v m = (m1, Return tt) -> del k m1 = (m2, Return r) ->
  m2 = m /\ r = Some (Some v).
Proof.
  intros Hr Hl Habs H1 H2. pose proof (reachable_Inv m Hr) as HI.
  destruct (reachable_Inv2 m Hr) as [_ Hsent].
  destruct (put_inv _ _ _ _ HI Hl H1)
    as (Hroom & _ & b & p & e & Hb & Hp & [(Hke & _) | Hins]).
  { exfalso. destruct Hp as (_ & _ & He & _).
    apply (Habs e); [apply list_elem_of_lookup; eauto | exact Hke]. }
  destruct Hins as (Hne & q & Hpq & Hfull & (eq & Heq & Hempty) & -> & _).
  pose proof (lookup_lt_Some _ _ _ Heq) as Hq.
  pose proof (probe_stop_shift_in k (entries m) b p e q (mkEntry k (Some v)) Hp
                ltac:(lia) eq_refl) as Hp1.
  destruct r as [w |].
  2:{ exfalso. apply del_None_inv in H2 as (_ & b' & p' & e' & Hb' & Hp' & Hne').
      cbn [entries] in Hp'. assert (b' = b) as -> by lia.
      destruct (probe_stop_unique _ _ _ _ _ _ _ Hp1 Hp') as [_ <-].
      apply Hne'. reflexivity. }
  apply del_inv in H2 as (b' & p' & g & e' & (Hb' & Hp' & Hke' & Hstop & ->) & ->).
  cbn [entries len] in *. assert (b' = b) as -> by lia.
  destruct (probe_stop_unique _ _ _ _ _ _ _ Hp1 Hp') as [<- <-].
  assert (g = q) as ->.
  { destruct Hstop as (Hpg & Hmoves & ex & Hex & Hstay).
    destruct HI as [HK _].
    destruct (Nat.lt_trichotomy g q) as [Hlt | [Heq' | Hgt]]; [| exact Heq' |]; exfalso.
    - rewrite lookup_shift_in in Hex by lia.
      destruct (Hfull g ltac:(lia)) as (eg & Heg & Hog).
      assert (ex = eg) as ->.
      { revert Hex. repeat case_decide; try lia.
        replace (S g - 1) with g by lia. congruence. }
      pose proof (kinv_home _ HK g (key eg) (lookup_key_of _ _ _ Heg) Hog) as Hhome.
      destruct Hstay as [Hb1 | Hk1]; [lia | contradiction].
    - destruct (Hmoves q ltac:(lia)) as (ey & Hey & Hby & Hoy).
      rewrite lookup_shift_in in Hey by lia.
      assert (entries m !! S q = Some ey) as Hey'.
      { revert Hey. repeat case_decide; try lia. auto. }
      destruct (kinv_dense _ HK (S q) (key ey) q (lookup_key_of _ _ _ Hey') Hoy
                  Hby ltac:(lia)) as (kq & Hkq & Hoq).
      apply lookup_key in Hkq as (eq' & Heq' & <-).
      rewrite Heq in Heq'. injection Heq' as <-. contradiction. }
  split; [| reflexivity].
  rewrite shift_out_shift_in by lia.
  rewrite (Hsent q eq Heq Hempty) in Heq.
  rewrite (list_insert_id _ _ _ Heq).
  destruct m as [es n]. cbn [entries len]. f_equal. lia.
Qed.

Lemma del_000_one_map :
  del [0; 0; 0]%Z one_map = (init, Return (Some (Some [49%Z]))).
Proof.
  pose proof TABLE_big as HT.
  rewrite (del_removed_at [0; 0; 0]%Z one_map 0 0
             (mkEntry [0; 0; 0]%Z (Some [49%Z])) 0).
  - rewrite shift_out_base by (rewrite one_map_length; lia).
    cbn [one_map entries len]. rewrite list_insert_insert_eq.
    rewrite list_insert_id by (apply lookup_replicate_2; lia). reflexivity.
  - exact eq_refl.
  - split; [lia |]. split; [intros j Hj; lia |].
    split; [exact one_map_0 | reflexivity].
  - reflexivity.
  - split; [lia |]. split; [intros j Hj; lia |].
    exists empty_entry. split; [apply one_map_empty; lia |]. right. reflexivity.
Qed.

Lemma put_then_del_restores_witness :
  init = init /\ Some (Some [49%Z]) = Some (Some [49%Z]).
Proof.
  apply (put_then_del_restores init [0; 0; 0]%Z [49%Z] one_map init).
  - constructor.
  - repeat constructor; lia.
  - apply absent_init. repeat constructor; lia.
  - exact one_map_put.
  - exact del_000_one_map.
Defined.

(** X17.  Deletion and insertion undo each other the other way round as
    well: after a [del] that returned the value [v] of the key, [put] of
    the key with [v] returns and leaves exactly the state before the
    [del]. *)
Theorem del_then_put_restores m k m1 v :
  reachable m -> legal k -> del k m = (m1, Return (Some (Some v))) ->
  put k v m1 = (m, Return tt).
Proof.
  intros Hr Hl H. pose proof (reachable_Inv m Hr) as HI.
  pose proof (Inv_del k m m1 _ HI H) as HI1.
  apply del_inv in H as (b & p & g & e & (Hb & Hp & Hke & Hstop & ->) & Hv).
  destruct (probe_stop_shift_out k m b p g e HI Hl Hp Hke Hstop) as (e2 & Hp2 & Hne2).
  assert (p <= g /\ S g < length (entries m)) as [Hpg Hg].
  { destruct Hstop as (Hpg & _ & e' & He' & _).
    split; [exact Hpg | eapply lookup_lt_Some, He']. }
  rewrite (put_inserted_at k v _ b p e2 g).
  - cbn [entries len]. rewrite shift_in_shift_out by lia.
    destruct Hp as (_ & _ & He & _).
    assert (e = mkEntry k (Some v)) as <-.
    { destruct e as [ke ve]. cbn [key value] in *. congruence. }
    rewrite (list_insert_id _ _ _ He).
    destruct m as [es n]. cbn [entries len]. f_equal. f_equal. lia.
  - cbn [len]. destruct HI as [_ Hcap]. lia.
  - exact Hl.
  - exact (Inv_above_closed k _ HI1).
  - exact Hb.
  - exact Hp2.
  - exact Hne2.
  - exact Hpg.
  - intros j Hj. cbn [entries]. destruct Hstop as (_ & Hmoves & _).
    destruct (Hmoves j Hj) as (ex & Hex & _ & Hox).
    exists ex. rewrite lookup_shift_out by lia. split; [idx_cases | exact Hox].
  - exists empty_entry. cbn [entries]. rewrite lookup_shift_out by lia.
    split; [idx_cases | reflexivity].
Qed.

Lemma del_then_put_restores_witness :
  put [0; 0; 0]%Z [49%Z] after_del_map = (pair_map, Return tt).
Proof.
  apply del_then_put_restores.
  - exact pair_map_reachable.
  - repeat constructor; lia.
  - exact pair_map_del.
Defined.

(** * Keys the table cannot hold *)

Lemma high_byte_bucket_neg k :
  legal k -> (128 <= charCodeAt0 k 0)%Z -> (bucket k < 0)%Z.
Proof.
  intros Hl Hc.
  destruct (Z.lt_ge_cases (bucket k) 0) as [Hneg | Hpos]; [exact Hneg |].
  destruct (legal_bucket_nonneg_good k Hl Hpos) as [_ H0]. lia.
Qed.

Lemma gop_loop_neg_state fuel k it ins i m :
  (i < 0)%Z -> getOrPut_loop (S fuel) k it ins i m = (m, Throw TypeError).
Proof. intros H. cbn [getOrPut_loop]. rewrite arr_get_neg by exact H. reflexivity. Qed.

Lemma getOrPut_neg k m :
  (bucket k < 0)%Z -> (len m < CAPACITY)%Z -> getOrPut k m = (m, Throw TypeError).
Proof.
  intros Hneg Hroom. unfold getOrPut, rounds. rewrite bucket_unfold.
  destruct (Z.geb_spec (len m) CAPACITY) as [Hfull | _]; [lia |].
  apply gop_loop_neg_state, Hneg.
Qed.

(** X18.  A legal key whose first code unit is 0x80 or more cannot be
    used: in every state, [get] and [del] throw a TypeError, and so do
    [getOrPut] and [put] when the table is not full; the state is left as
    it was. *)
Theorem high_first_byte_throws k v m :
  legal k -> (128 <= charCodeAt0 k 0)%Z ->
  get k m = Throw TypeError /\
  del k m = (m, Throw TypeError) /\
  ((len m < CAPACITY)%Z ->
   getOrPut k m = (m, Throw TypeError) /\ put k v m = (m, Throw TypeError)).
Proof.
  intros Hl Hc. pose proof (high_byte_bucket_neg k Hl Hc) as Hneg.
  split; [| split].
  - unfold get, rounds. rewrite bucket_unfold. apply get_loop_neg, Hneg.
  - unfold del, rounds. rewrite bucket_unfold.
    rewrite del_find_neg by exact Hneg. reflexivity.
  - intros Hroom. pose proof (getOrPut_neg k m Hneg Hroom) as H.
    split; [exact H |]. unfold put. rewrite H. reflexivity.
Qed.

Lemma high_first_byte_throws_witness :
  get [128; 1]%Z one_map = Throw TypeError /\
  del [128; 1]%Z one_map = (one_map, Throw TypeError) /\
  ((len one_map < CAPACITY)%Z ->
   getOrPut [128; 1]%Z one_map = (one_map, Throw TypeError) /\
   put [128; 1]%Z [49%Z] one_map = (one_map, Throw TypeError)).
Proof.
  apply high_first_byte_throws.
  - repeat constructor; lia.
  - vm_compute. discriminate.
Defined.

(** X19.  In a reachable state every stored key is a legal key whose first
    code unit is at most 0x7F, and there is no free slot between the ideal
    bucket of a stored key and the slot that holds it. *)
Theorem no_hole_before_an_entry m i e :
  reachable m -> entries m !! i = Some e -> occupied e = true ->
  legal (key e) /\ (charCodeAt0 (key e) 0 <= 127)%Z /\
  forall j, (hashToIndex (hash (key e)) <= Z.of_nat j)%Z -> j <= i ->
            exists ej, entries m !! j = Some ej /\ occupied ej = true.
Proof.
  intros Hr He Ho. destruct (reachable_Inv m Hr) as [HK _].
  apply occupied_true in Ho. pose proof (lookup_key_of _ _ _ He) as Hke.
  destruct (kinv_good _ HK _ _ Hke Ho) as [Hl H0].
  split; [exact Hl |]. split; [exact H0 |].
  intros j Hb Hj. rewrite bucket_unfold in Hb.
  destruct (kinv_dense _ HK _ _ j Hke Ho Hb Hj) as (kj & Hkj & Hoj).
  apply lookup_key in Hkj as (ej & Hej & <-).
  exists ej. split; [exact Hej | apply occupied_true, Hoj].
Qed.

Lemma no_hole_before_an_entry_witness :
  legal (key (mkEntry [0; 0; 1]%Z (Some [50%Z]))) /\
  (charCodeAt0 (key (mkEntry [0; 0; 1]%Z (Some [50%Z]))) 0 <= 127)%Z /\
  forall j,
    (hashToIndex (hash (key (mkEntry [0; 0; 1]%Z (Some [50%Z])))) <= Z.of_nat j)%Z ->
    j <= 1 -> exists ej, entries pair_map !! j = Some ej /\ occupied ej = true.
Proof.
  apply no_hole_before_an_entry.
  - exact pair_map_reachable.
  - exact pair_map_1.
  - reflexivity.
Defined.

(** * The hash as a number *)

Lemma hash_number_aux h c0 c1 c2 :
  (0 <= c0 <= 255)%Z -> (0 <= c1 <= 255)%Z -> (0 <= c2 <= 255)%Z ->
  toUint32 h = (c0 * 16777216 + c1 * 65536 + c2 * 256 + c0)%Z ->
  h = (sbyte c0 * 16777216 + c1 * 65536 + c2 * 256 + c0)%Z ->
  hashToIndex h = (sbyte c0 * 65536 + c1 * 256 + c2)%Z ->
  toUint32 h = (c0 * 16777216 + c1 * 65536 + c2 * 256 + c0)%Z /\
  h = (if (c0 <? 128)%Z then toUint32 h else toUint32 h - 4294967296)%Z /\
  hashToIndex h = (h / 256)%Z /\
  (-8388608 <= hashToIndex h < 8388608)%Z.
Proof.
  intros H0 H1 H2 Hu Hh Hb.
  assert (-2147483648 <= h < 2147483648)%Z as Hrange.
  { rewrite Hh. unfold sbyte. destruct (c0 <? 128)%Z eqn:E; lia. }
  split; [exact Hu |]. split; [| split].
  - rewrite Hu, Hh. unfold sbyte. destruct (c0 <? 128)%Z; lia.
  - apply hashToIndex_closed, Hrange.
  - rewrite Hb. unfold sbyte. destruct (c0 <? 128)%Z eqn:E; lia.
Qed.

(** X20.  For a string of bytes, [hash] is the 32-bit number whose four
    bytes are the code units at positions 0, 1, 2 and 0 again (0 where the
    string ends), read as a signed number; [hashToIndex] drops the low
    byte, and the ideal bucket is between -2^23 and 2^23. *)
Theorem hash_is_the_number_of_its_bytes k :
  bytes k ->
  toUint32 (hash k)
  = (charCodeAt0 k 0 * 16777216 + charCodeAt0 k 1 * 65536
     + charCodeAt0 k 2 * 256 + charCodeAt0 k 0)%Z /\
  hash k = (if (charCodeAt0 k 0 <? 128)%Z then toUint32 (hash k)
            else toUint32 (hash k) - 4294967296)%Z /\
  hashToIndex (hash k) = (hash k / 256)%Z /\
  (-8388608 <= hashToIndex (hash k) < 8388608)%Z.
Proof.
  intros Hk.
  pose proof (charCodeAt0_bytes k 0 Hk) as H0.
  pose proof (charCodeAt0_bytes k 1 Hk) as H1.
  pose proof (charCodeAt0_bytes k 2 Hk) as H2.
  pose proof (toUint32_hash k Hk) as Hu.
  pose proof (hash_closed k Hk) as Hh.
  pose proof (bucket_closed k Hk) as Hb. rewrite <- bucket_unfold in Hb.
  revert Hu Hh Hb. generalize (hash k). intros h Hu Hh Hb.
  revert H0 H1 H2 Hu Hh Hb.
  generalize (charCodeAt0 k 0) (charCodeAt0 k 1) (charCodeAt0 k 2).
  intros c0 c1 c2 H0 H1 H2 Hu Hh Hb.
  exact (hash_number_aux h c0 c1 c2 H0 H1 H2 Hu Hh Hb).
Qed.

Lemma hash_is_the_number_of_its_bytes_witness :
  toUint32 (hash [200; 2; 3; 4]%Z)
  = (charCodeAt0 [200; 2; 3; 4]%Z 0 * 16777216 + charCodeAt0 [200; 2; 3; 4]%Z 1 * 65536
     + charCodeAt0 [200; 2; 3; 4]%Z 2 * 256 + charCodeAt0 [200; 2; 3; 4]%Z 0)%Z /\
  hash [200; 2; 3; 4]%Z
  = (if (charCodeAt0 [200; 2; 3; 4]%Z 0 <? 128)%Z then toUint32 (hash [200; 2; 3; 4]%Z)
     else toUint32 (hash [200; 2; 3; 4]%Z) - 4294967296)%Z /\
  hashToIndex (hash [200; 2; 3; 4]%Z) = (hash [200; 2; 3; 4]%Z / 256)%Z /\
  (-8388608 <= hashToIndex (hash [200; 2; 3; 4]%Z) < 8388608)%Z.
Proof.
  apply hash_is_the_number_of_its_bytes. repeat constructor; lia.
Defined.

(** X21.  On legal keys whose first code unit is at most 0x7F the ideal
    bucket is monotone in the key and lies in the main part of the array:
    a key that is not above another has an ideal bucket that is not above
    the other's, between 0 and 8388350. *)
Theorem bucket_monotone_in_range a b :
  legal a -> legal b ->
  (charCodeAt0 a 0 <= 127)%Z -> (charCodeAt0 b 0 <= 127)%Z ->
  str_compare a b <> Gt ->
  (0 <= hashToIndex (hash a) <= hashToIndex (hash b))%Z /\
  (hashToIndex (hash b) <= 8388350 < CAPACITY)%Z.
Proof.
  intros Hla Hlb Ha Hb Hle. rewrite !bucket_unfold.
  assert (good a) as Hga by (split; assumption).
  assert (good b) as Hgb by (split; assumption).
  pose proof (good_bucket_nonneg a Hga). pose proof (good_bucket_bound b Hgb).
  pose proof (bucket_mono a b Hga Hgb Hle). rewrite CAPACITY_val. lia.
Qed.

Lemma bucket_monotone_in_range_witness :
  (0 <= hashToIndex (hash [97; 98]%Z) <= hashToIndex (hash [97; 98; 0; 7]%Z))%Z /\
  (hashToIndex (hash [97; 98; 0; 7]%Z) <= 8388350 < CAPACITY)%Z.
Proof.
  apply bucket_monotone_in_range.
  - repeat constructor; lia.
  - repeat constructor; lia.
  - vm_compute. discriminate.
  - vm_compute. discriminate.
  - vm_compute. discriminate.
Defined.

(** * The loops end *)

(** X22.  Every call ends: each [while (true)] loop of [get], [getOrPut],
    [put] and [del] returns or throws within [entries.length + 1] rounds,
    in every state and for every key. *)
Theorem every_call_ends k v m :
  get k m <> OutOfFuel /\ snd (getOrPut k m) <> OutOfFuel /\
  snd (put k v m) <> OutOfFuel /\ snd (del k m) <> OutOfFuel.
Proof.
  split; [apply get_fuel_enough |]. split; [apply getOrPut_fuel_enough |].
  split; [apply put_fuel_enough | apply del_fuel_enough].
Qed.

(** * The table is determined by what it holds *)

(** Two states that hold the same entries and agree below slot [i]: an
    entry in slot [i] of the first is in slot [i] of the second. *)
Lemma slot_determined m1 m2 i e1 :
  Inv m1 -> Inv m2 ->
  (forall e, e ∈ scanAscending m1 <-> e ∈ scanAscending m2) ->
  (forall j, j < i -> entries m1 !! j = entries m2 !! j) ->
  entries m1 !! i = Some e1 -> occupied e1 = true ->
  entries m2 !! i = Some e1.
Proof.
  intros HI1 HI2 Hsame Hbelow He1 Ho1.
  assert (e1 ∈ scanAscending m2) as Hin.
  { apply Hsame, elem_of_scan. split; [apply list_elem_of_lookup; eauto | exact Ho1]. }
  apply elem_of_scan in Hin as [Hin _].
  apply list_elem_of_lookup in Hin as [j Hj].
  pose proof Ho1 as Hk1. apply occupied_true in Hk1.
  destruct (Nat.lt_trichotomy j i) as [Hlt | [-> | Hgt]]; [| exact Hj |]; exfalso.
  - rewrite <- (Hbelow j Hlt) in Hj.
    pose proof (keys_unique m1 j i e1 e1 HI1 Hj He1 Hk1 eq_refl). lia.
  - pose proof HI1 as [HK1 _]. pose proof HI2 as [HK2 _].
    pose proof (kinv_home _ HK1 i (key e1) (lookup_key_of _ _ _ He1) Hk1) as Hhome.
    destruct (kinv_dense _ HK2 j (key e1) i (lookup_key_of _ _ _ Hj) Hk1 Hhome
                ltac:(lia)) as (k2 & Hk2 & Hok2).
    apply lookup_key in Hk2 as (e2 & He2 & <-).
    pose proof (kinv_sorted _ HK2 i j _ _ Hgt (lookup_key_of _ _ _ He2)
                  (lookup_key_of _ _ _ Hj) Hok2 Hk1) as Hlt21.
    assert (e2 ∈ scanAscending m1) as Hin2.
    { apply Hsame, elem_of_scan.
      split; [apply list_elem_of_lookup; eauto | apply occupied_true, Hok2]. }
    apply elem_of_scan in Hin2 as [Hin2 _].
    apply list_elem_of_lookup in Hin2 as [j' Hj'].
    destruct (Nat.lt_trichotomy j' i) as [Hlt' | [-> | Hgt']].
    + rewrite (Hbelow j' Hlt') in Hj'.
      pose proof (keys_unique m2 j' i e2 e2 HI2 Hj' He2 Hok2 eq_refl). lia.
    + assert (e2 = e1) as -> by congruence. exact (str_lt_irrefl _ Hlt21).
    + pose proof (kinv_sorted _ HK1 i j' _ _ Hgt' (lookup_key_of _ _ _ He1)
                    (lookup_key_of _ _ _ Hj') Hk1 Hok2) as Hlt12.
      exact (str_lt_asym _ _ Hlt12 Hlt21).
Qed.

Lemma content_determines_state m1 m2 :
  Inv m1 -> Inv m2 -> Inv2 m1 -> Inv2 m2 ->
  (forall e, e ∈ scanAscending m1 <-> e ∈ scanAscending m2) -> m1 = m2.
Proof.
  intros HI1 HI2 [Hlen1 Hsent1] [Hlen2 Hsent2] Hsame.
  assert (length (entries m1) = length (entries m2)) as Hlen.
  { pose proof (Inv_length m1 HI1). pose proof (Inv_length m2 HI2). lia. }
  assert (forall i, entries m1 !! i = entries m2 !! i) as Heq.
  { intros i. induction i as [i IH] using lt_wf_ind.
    destruct (entries m1 !! i) as [e1 |] eqn:He1.
    - destruct (lookup_lt_is_Some_2 (entries m2) i) as [e2 He2].
      { rewrite <- Hlen. eapply lookup_lt_Some, He1. }
      destruct (occupied e1) eqn:Ho1.
      + symmetry. apply (slot_determined m1 m2 i e1); auto.
      + destruct (occupied e2) eqn:Ho2.
        * assert (entries m1 !! i = Some e2) as He1'.
          { apply (slot_determined m2 m1 i e2); auto.
            - intros e. symmetry. apply Hsame.
            - intros j Hj. symmetry. apply IH, Hj. }
          congruence.
        * apply occupied_false in Ho1, Ho2.
          rewrite He2, (Hsent1 i e1 He1 Ho1), (Hsent2 i e2 He2 Ho2). reflexivity.
    - symmetry. apply lookup_ge_None. rewrite <- Hlen.
      apply lookup_ge_None, He1. }
  apply list_eq in Heq.
  destruct m1 as [es1 n1], m2 as [es2 n2]. cbn [entries len] in *.
  subst es2. f_equal. lia.
Qed.

(** X23.  The table is determined by what it holds: two reachable states
    in which the scans yield the same entries are the same state, slot by
    slot, whatever calls led to them and in whatever order. *)
Theorem state_determined_by_content m1 m2 :
  reachable m1 -> reachable m2 ->
  (forall e, e ∈ scanAscending m1 <-> e ∈ scanAscending m2) -> m1 = m2.
Proof.
  intros H1 H2.
  apply content_determines_state;
    auto using reachable_Inv, reachable_Inv2.
Qed.

(** X24.  [put]s of two different keys commute: when the two calls return
    in either order, both orders leave the same state. *)
Theorem puts_commute m a va b vb ma mab mb mba :
  reachable m -> legal a -> legal b -> a <> b ->
  put a va m = (ma, Return tt) -> put b vb ma = (mab, Return tt) ->
  put b vb m = (mb, Return tt) -> put a va mb = (mba, Return tt) ->
  mab = mba.
Proof.
  intros Hr Hla Hlb Hne Ha Hab Hb Hba.
  pose proof (reach_put _ _ _ _ Hr Hla Ha) as Hra.
  pose proof (reach_put _ _ _ _ Hr Hlb Hb) as Hrb.
  pose proof (reach_put _ _ _ _ Hra Hlb Hab) as Hrab.
  pose proof (reach_put _ _ _ _ Hrb Hla Hba) as Hrba.
  apply content_determines_state;
    auto using reachable_Inv, reachable_Inv2.
  intros e.
  rewrite (scan_after_put_inv ma b vb mab (reachable_Inv _ Hra) Hlb Hab e).
  rewrite (scan_after_put_inv m a va ma (reachable_Inv _ Hr) Hla Ha e).
  rewrite (scan_after_put_inv mb a va mba (reachable_Inv _ Hrb) Hla Hba e).
  rewrite (scan_after_put_inv m b vb mb (reachable_Inv _ Hr) Hlb Hb e).
  split.
  - intros [-> | [[-> | [He Hka]] Hkb]].
    + right. split; [left; reflexivity | cbn [key]; congruence].
    + left. reflexivity.
    + right. split; [right; split; assumption | exact Hka].
  - intros [-> | [[-> | [He Hkb]] Hka]].
    + right. split; [left; reflexivity | cbn [key]; congruence].
    + left. reflexivity.
    + right. split; [right; split; assumption | exact Hkb].
Qed.

Lemma put_001_init :
  put [0; 0; 1]%Z [50%Z] init
  = (mkMap (<[1 := mkEntry [0; 0; 1]%Z (Some [50%Z])]>
              (replicate TABLE empty_entry)) 1, Return tt).
Proof.
  pose proof TABLE_big as HT.
  assert (length (replicate TABLE empty_entry) = TABLE) as HL
    by apply length_replicate.
  rewrite (put_inserted_at [0; 0; 1]%Z [50%Z] init 1 1 empty_entry 1).
  - unfold init. cbn [entries len].
    rewrite <- shift_in_base by lia. exact eq_refl.
  - cbn [init len]. rewrite CAPACITY_val. lia.
  - repeat constructor; lia.
  - apply Inv_above_closed, Inv_init.
  - rewrite bucket_closed by (repeat constructor; lia). reflexivity.
  - split; [lia |]. split; [intros j Hj; lia |].
    split; [cbn [init entries]; apply lookup_replicate_2; lia | reflexivity].
  - discriminate.
  - lia.
  - intros j Hj; lia.
  - exists empty_entry. split; [| reflexivity].
    cbn [init entries]. apply lookup_replicate_2. lia.
Qed.

Lemma put_000_after_001 :
  put [0; 0; 0]%Z [49%Z]
      (mkMap (<[1 := mkEntry [0; 0; 1]%Z (Some [50%Z])]>
                (replicate TABLE empty_entry)) 1)
  = (pair_map, Return tt).
Proof.
  pose proof TABLE_big as HT.
  assert (length (replicate TABLE empty_entry) = TABLE) as HL
    by apply length_replicate.
  rewrite (put_inserted_at [0; 0; 0]%Z [49%Z] _ 0 0 empty_entry 0).
  - cbn [entries len]. rewrite <- shift_in_base by (rewrite length_insert; lia).
    unfold pair_map. rewrite list_insert_insert_ne by lia. reflexivity.
  - cbn [len]. rewrite CAPACITY_val. lia.
  - repeat constructor; lia.
  - intros j j' e e' Hjj He He' Ho Ho' Hlt. cbn [entries] in He, He'.
    destruct (decide (j = 1)) as [-> | Hj1].
    + destruct (decide (j' = 1)) as [-> | Hj'1]; [lia |].
      rewrite list_lookup_insert_ne in He' by lia.
      apply lookup_replicate in He' as [-> _]. contradiction Ho'. reflexivity.
    + rewrite list_lookup_insert_ne in He by lia.
      apply lookup_replicate in He as [-> _]. contradiction Ho. reflexivity.
  - exact eq_refl.
  - split; [lia |]. split; [intros j Hj; lia |]. cbn [entries].
    split; [| reflexivity].
    rewrite list_lookup_insert_ne by lia. apply lookup_replicate_2. lia.
  - discriminate.
  - lia.
  - intros j Hj; lia.
  - exists empty_entry. split; [| reflexivity]. cbn [entries].
    rewrite list_lookup_insert_ne by lia. apply lookup_replicate_2. lia.
Qed.

Lemma puts_commute_witness : pair_map = pair_map.
Proof.
  apply (puts_commute init [0; 0; 0]%Z [49%Z] [0; 0; 1]%Z [50%Z] one_map pair_map
           (mkMap (<[1 := mkEntry [0; 0; 1]%Z (Some [50%Z])]>
                     (replicate TABLE empty_entry)) 1) pair_map).
  - constructor.
  - repeat constructor; lia.
  - repeat constructor; lia.
  - discriminate.
  - exact one_map_put.
  - exact pair_map_put.
  - exact put_001_init.
  - exact put_000_after_001.
Defined.

(** Two routes to one content: [put] of 00 00 00, [put] of 00 00 01 and
    [del] of 00 00 00 on the one hand, a single [put] of 00 00 01 on the
    other. *)
Lemma after_del_map_reachable : reachable after_del_map.
Proof.
  apply (reach_del [0; 0; 0]%Z pair_map after_del_map (Some (Some [49%Z])));
    [exact pair_map_reachable | repeat constructor; lia | exact pair_map_del].
Qed.

Lemma put_001_reachable :
  reachable (mkMap (<[1 := mkEntry [0; 0; 1]%Z (Some [50%Z])]>
                      (replicate TABLE empty_entry)) 1).
Proof.
  apply (reach_put [0; 0; 1]%Z [50%Z] init);
    [constructor | repeat constructor; lia | exact put_001_init].
Qed.

Lemma same_content_two_routes e :
  e ∈ scanAscending after_del_map <->
  e ∈ scanAscending (mkMap (<[1 := mkEntry [0; 0; 1]%Z (Some [50%Z])]>
                              (replicate TABLE empty_entry)) 1).
Proof.
  assert (legal [0; 0; 0]%Z) as Hl0 by (repeat constructor; lia).
  assert (legal [0; 0; 1]%Z) as Hl1 by (repeat constructor; lia).
  rewrite (scan_after_del_inv pair_map [0; 0; 0]%Z after_del_map _
             (reachable_Inv _ pair_map_reachable) Hl0 pair_map_del e).
  rewrite (scan_after_put_inv one_map [0; 0; 1]%Z [50%Z] pair_map
             (reachable_Inv _ one_map_reachable) Hl1 pair_map_put e).
  rewrite (scan_after_put_inv init [0; 0; 0]%Z [49%Z] one_map Inv_init Hl0
             one_map_put e).
  rewrite (scan_after_put_inv init [0; 0; 1]%Z [50%Z] _ Inv_init Hl1
             put_001_init e).
  assert (~ e ∈ scanAscending init) as Hinit.
  { intros He. apply elem_of_scan in He as [He Ho].
    cbn [init entries] in He. apply elem_of_replicate in He as [-> _].
    discriminate Ho. }
  split.
  - intros [[-> | [[-> | [He _]] _]] Hk].
    + left. reflexivity.
    + exfalso. apply Hk. reflexivity.
    + contradiction.
  - intros [-> | [He _]]; [| contradiction].
    split; [left; reflexivity | discriminate].
Qed.

Lemma state_determined_by_content_witness :
  after_del_map
  = mkMap (<[1 := mkEntry [0; 0; 1]%Z (Some [50%Z])]>
             (replicate TABLE empty_entry)) 1.
Proof.
  apply state_determined_by_content.
  - exact after_del_map_reachable.
  - exact put_001_reachable.
  - exact same_content_two_routes.
Defined.
